(** * Percy core: protocol session (page.js) and orchestrator (percy.js)

    A shallow embedding of [packages/core/src/page.js] and
    [packages/core/src/percy.js].  JavaScript is single threaded: an [async]
    function runs without interruption up to its next [await], so every
    method is cut at its [await]s into atomic segments, and a session (or the
    orchestrator) becomes a labelled transition system whose labels are those
    segments and the calls the environment can make.  Promise settlements and
    messages leaving the object are recorded as a list of effects. *)

From Stdlib Require Import ZArith Lia Bool.
From stdpp Require Import base option list strings pretty gmap.

Open Scope string_scope.
Open Scope list_scope.
Open Scope Z_scope.

(** ** JavaScript [Map]: unique keys, iteration in insertion order *)

Module JsMap.
Section JsMap.
Context {K V : Type} `{EqDecision K}.

Definition t := list (K * V).

Fixpoint get (k : K) (m : t) : option V :=
  match m with
  | [] => None
  | (k', v) :: m' => if decide (k = k') then Some v else get k m'
  end.

Definition has (k : K) (m : t) : bool :=
  match get k m with Some _ => true | None => false end.

(** [set] keeps the position of a key that is already present. *)
Fixpoint set (k : K) (v : V) (m : t) : t :=
  match m with
  | [] => [(k, v)]
  | (k', v') :: m' =>
      if decide (k = k') then (k, v) :: m' else (k', v') :: set k v m'
  end.

Fixpoint delete (k : K) (m : t) : t :=
  match m with
  | [] => []
  | (k', v') :: m' =>
      if decide (k = k') then delete k m' else (k', v') :: delete k m'
  end.

Definition clear (m : t) : t := [].
Definition keys (m : t) : list K := m.*1.
Definition values (m : t) : list V := m.*2.

End JsMap.
Global Arguments t : clear implicits.
End JsMap.

(** ** JavaScript values *)

#[warnings="-register-all"]
Inductive Value :=
| VUndefined
| VNull
| VBool (b : bool)
| VNum (n : Z)
| VStr (s : string)
| VArr (items : list Value)
| VObj (fields : list (string * Value)).

(** [ToBoolean]. *)
Definition truthy (v : Value) : bool :=
  match v with
  | VUndefined | VNull => false
  | VBool b => b
  | VNum n => negb (n =? 0)
  | VStr s => negb (String.eqb s "")
  | VArr _ | VObj _ => true
  end.

(** What a [throw] carries: an [Error] object (a [TypeError] is one; only
    the [message] matters here) or a bare value. *)
Inductive Thrown :=
| Error (message : string)
| Raw (v : Value).

Inductive Outcome :=
| Resolved (v : Value)
| Rejected (e : Thrown).

(** Truthiness of a field that holds [null] or a string. *)
Definition truthy_str (o : option string) : bool :=
  match o with
  | Some s => negb (String.eqb s "")
  | None => false
  end.

(** The text V8 gives the [TypeError] of reading property [k] of [null]. *)
Definition null_deref (k : string) : string :=
  "Cannot read properties of null (reading '" +:+ k +:+ "')".

Definition undefined_deref (k : string) : string :=
  "Cannot read properties of undefined (reading '" +:+ k +:+ "')".

(** Node's [removeListener]: drops one occurrence, the one added last. *)
Fixpoint remove_last {A} `{EqDecision A} (x : A) (l : list A) : list A :=
  match l with
  | [] => []
  | y :: l' =>
      if decide (x ∈ l') then y :: remove_last x l'
      else if decide (x = y) then l' else y :: l'
  end.

(** * The protocol session: page.js *)

Module Page.

(** Used by some methods to impose a strict maximum timeout. *)
Definition PAGE_TIMEOUT : Z := 30000.

(** Protocol events the session itself listens to; anything else is
    [OtherEvent].  The payload keeps the fields the listeners read. *)
Inductive Event :=
| ExecutionContextCreated (context_id : Z) (auxData_frameId : string)
| ExecutionContextDestroyed (executionContextId : Z)
| ExecutionContextsCleared
| TargetCrashed
| FrameNavigated (frame_id : string)
| LifecycleEvent (frameId name : string)
| OtherEvent (method : string) (params : Value).

Definition event_name (e : Event) : string :=
  match e with
  | ExecutionContextCreated _ _ => "Runtime.executionContextCreated"
  | ExecutionContextDestroyed _ => "Runtime.executionContextDestroyed"
  | ExecutionContextsCleared => "Runtime.executionContextsCleared"
  | TargetCrashed => "Inspector.targetCrashed"
  | FrameNavigated _ => "Page.frameNavigated"
  | LifecycleEvent _ _ => "Page.lifecycleEvent"
  | OtherEvent m _ => m
  end.

(** Listener functions.  The two watchers [goto] installs are closures of
    one activation of [goto], named by its number. *)
Inductive Handler :=
| H_ExecutionContextCreated
| H_ExecutionContextDestroyed
| H_ExecutionContextsCleared
| H_TargetCrashed
| H_FrameNavigated (g : nat)
| H_Lifecycle (g : nat).

#[global] Instance Handler_eq_dec : EqDecision Handler.
Proof. solve_decision. Defined.

(** [data.error] of an error response. *)
Record RemoteError := {
  error_message : string;
  error_data : option string   (* ['data' in data.error] *)
}.

(** An inbound message: a response carries [id] and [result] or [error], an
    event carries [method] and [params] (here one [Event]). *)
Record Message := {
  m_id : option Z;
  m_result : Value;
  m_error : option RemoteError;
  m_event : option Event
}.

(** A pending call: [{ error, resolve, reject, method }].  [resolve],
    [reject] and [error] belong to the promise the call returned, which
    [cb_slot] names. *)
Record Callback := {
  cb_slot : nat;
  cb_method : string
}.

Record Cookie := {
  cookie_url : option string;
  cookie_domain : option string;
  cookie_name : string
}.

Record Browser := { cookies : list Cookie }.

(** How a promise inside [goto] settled: fulfilled, or rejected with an
    [Error] of that message. *)
Inductive Done :=
| Ok
| Fail (message : string).

(** Where [navigate()] of a [goto] stands. *)
Inductive NavPc :=
| NavCookies (k : nat)     (* awaiting send('Network.setCookies', ...) *)
| NavNavigate (k : nat)    (* awaiting send('Page.navigate', { url }) *)
| NavReturned.

(** One activation of [goto]. *)
Record Goto := {
  g_url : string;
  g_waitUntil : string;
  g_start : Z;                 (* clock when waitFor was called *)
  g_finished1 : bool;          (* handler.finished of the frameNavigated watcher *)
  g_finished2 : bool;          (* handler.finished of the lifecycleEvent watcher *)
  g_nav : NavPc;
  g_navigate : option Done;    (* navigate(); None while pending *)
  g_waitFor : option Done;     (* waitFor(...) *)
  g_all : option Done;         (* Promise.all([...]) *)
  g_result : option Done       (* the promise goto returned *)
}.

(** One activation of [eval]: the call it awaits, then its result. *)
Inductive Eval :=
| EvalAwait (k : nat)
| EvalDone (o : Outcome).

Record Page := {
  browser : option Browser;
  sessionId : string;
  targetId : string;
  frameId : option string;
  contextId : option Z;
  closedReason : option string;
  frames : list string;               (* child sessions, by sessionId *)
  parent : option string;
  callbacks : JsMap.t Z Callback;     (* #callbacks *)
  listeners : list (string * Handler);(* EventEmitter registrations *)
  awaiting : list (nat * string);     (* send() suspended at [await this.browser.send] *)
  next_slot : nat;                    (* promises created by send() so far *)
  gotos : list Goto;
  evals : list Eval
}.

Definition set_browser (v : option Browser) (p : Page) : Page :=
  {| browser := v; sessionId := sessionId p; targetId := targetId p;
     frameId := frameId p; contextId := contextId p;
     closedReason := closedReason p; frames := frames p; parent := parent p;
     callbacks := callbacks p; listeners := listeners p;
     awaiting := awaiting p; next_slot := next_slot p; gotos := gotos p;
     evals := evals p |}.

Definition set_frameId (v : option string) (p : Page) : Page :=
  {| browser := browser p; sessionId := sessionId p; targetId := targetId p;
     frameId := v; contextId := contextId p;
     closedReason := closedReason p; frames := frames p; parent := parent p;
     callbacks := callbacks p; listeners := listeners p;
     awaiting := awaiting p; next_slot := next_slot p; gotos := gotos p;
     evals := evals p |}.

Definition set_contextId (v : option Z) (p : Page) : Page :=
  {| browser := browser p; sessionId := sessionId p; targetId := targetId p;
     frameId := frameId p; contextId := v;
     closedReason := closedReason p; frames := frames p; parent := parent p;
     callbacks := callbacks p; listeners := listeners p;
     awaiting := awaiting p; next_slot := next_slot p; gotos := gotos p;
     evals := evals p |}.

Definition set_closedReason (v : option string) (p : Page) : Page :=
  {| browser := browser p; sessionId := sessionId p; targetId := targetId p;
     frameId := frameId p; contextId := contextId p;
     closedReason := v; frames := frames p; parent := parent p;
     callbacks := callbacks p; listeners := listeners p;
     awaiting := awaiting p; next_slot := next_slot p; gotos := gotos p;
     evals := evals p |}.

Definition set_frames (v : list string) (p : Page) : Page :=
  {| browser := browser p; sessionId := sessionId p; targetId := targetId p;
     frameId := frameId p; contextId := contextId p;
     closedReason := closedReason p; frames := v; parent := parent p;
     callbacks := callbacks p; listeners := listeners p;
     awaiting := awaiting p; next_slot := next_slot p; gotos := gotos p;
     evals := evals p |}.

Definition set_callbacks (v : JsMap.t Z Callback) (p : Page) : Page :=
  {| browser := browser p; sessionId := sessionId p; targetId := targetId p;
     frameId := frameId p; contextId := contextId p;
     closedReason := closedReason p; frames := frames p; parent := parent p;
     callbacks := v; listeners := listeners p;
     awaiting := awaiting p; next_slot := next_slot p; gotos := gotos p;
     evals := evals p |}.

Definition set_listeners (v : list (string * Handler)) (p : Page) : Page :=
  {| browser := browser p; sessionId := sessionId p; targetId := targetId p;
     frameId := frameId p; contextId := contextId p;
     closedReason := closedReason p; frames := frames p; parent := parent p;
     callbacks := callbacks p; listeners := v;
     awaiting := awaiting p; next_slot := next_slot p; gotos := gotos p;
     evals := evals p |}.

Definition set_awaiting (v : list (nat * string)) (p : Page) : Page :=
  {| browser := browser p; sessionId := sessionId p; targetId := targetId p;
     frameId := frameId p; contextId := contextId p;
     closedReason := closedReason p; frames := frames p; parent := parent p;
     callbacks := callbacks p; listeners := listeners p;
     awaiting := v; next_slot := next_slot p; gotos := gotos p;
     evals := evals p |}.

Definition set_next_slot (v : nat) (p : Page) : Page :=
  {| browser := browser p; sessionId := sessionId p; targetId := targetId p;
     frameId := frameId p; contextId := contextId p;
     closedReason := closedReason p; frames := frames p; parent := parent p;
     callbacks := callbacks p; listeners := listeners p;
     awaiting := awaiting p; next_slot := v; gotos := gotos p;
     evals := evals p |}.

Definition set_gotos (v : list Goto) (p : Page) : Page :=
  {| browser := browser p; sessionId := sessionId p; targetId := targetId p;
     frameId := frameId p; contextId := contextId p;
     closedReason := closedReason p; frames := frames p; parent := parent p;
     callbacks := callbacks p; listeners := listeners p;
     awaiting := awaiting p; next_slot := next_slot p; gotos := v;
     evals := evals p |}.

Definition set_evals (v : list Eval) (p : Page) : Page :=
  {| browser := browser p; sessionId := sessionId p; targetId := targetId p;
     frameId := frameId p; contextId := contextId p;
     closedReason := closedReason p; frames := frames p; parent := parent p;
     callbacks := callbacks p; listeners := listeners p;
     awaiting := awaiting p; next_slot := next_slot p; gotos := gotos p;
     evals := v |}.

(** What a segment does to the world outside the session object. *)
Inductive Effect :=
| ESent (sessionId method : string) (params : Value)
    (* this.browser.send({ sessionId, method, params }) *)
| ESettle (slot : nat) (o : Outcome)
    (* resolve or reject of the promise send() returned *)
| EEmit (e : option Event)
    (* this.emit(data.method, data.params) *)
| ECloseTarget (targetId : string)
    (* this.browser.send('Target.closeTarget', { targetId }) *)
| EUnhandledError (e : Event)
    (* emit('error', ...) without a listener throws out of _handleMessage *)
| EDebug (msg : string).

(** The constructor, for the fields and listeners page.js itself sets up.
    Line 29, [this.network = new Network(this)], is left out: network.js is
    not among the sources, so neither the listeners it registers on the
    session nor what they do are part of this model.  So is the automatic
    [init] of a session that has a parent (line 41), which needs the
    network object: what [init] sends goes through [send] and shows in a
    trace as [LSend] labels, like the calls of any other caller. *)
Definition new_page (b : Browser) (sid tid : string) (parent : option string)
  : Page :=
  {| browser := Some b; sessionId := sid; targetId := tid;
     frameId := None; contextId := None; closedReason := None;
     frames := []; parent := parent; callbacks := [];
     listeners :=
       [("Runtime.executionContextCreated", H_ExecutionContextCreated);
        ("Runtime.executionContextDestroyed", H_ExecutionContextDestroyed);
        ("Runtime.executionContextsCleared", H_ExecutionContextsCleared);
        ("Inspector.targetCrashed", H_TargetCrashed)];
     awaiting := []; next_slot := 0%nat; gotos := []; evals := [] |}.

Definition set_finished1 (v : bool) (G : Goto) : Goto :=
  {| g_url := g_url G; g_waitUntil := g_waitUntil G; g_start := g_start G;
     g_finished1 := v; g_finished2 := g_finished2 G; g_nav := g_nav G;
     g_navigate := g_navigate G; g_waitFor := g_waitFor G; g_all := g_all G;
     g_result := g_result G |}.

Definition set_finished2 (v : bool) (G : Goto) : Goto :=
  {| g_url := g_url G; g_waitUntil := g_waitUntil G; g_start := g_start G;
     g_finished1 := g_finished1 G; g_finished2 := v; g_nav := g_nav G;
     g_navigate := g_navigate G; g_waitFor := g_waitFor G; g_all := g_all G;
     g_result := g_result G |}.

Definition set_nav (v : NavPc) (G : Goto) : Goto :=
  {| g_url := g_url G; g_waitUntil := g_waitUntil G; g_start := g_start G;
     g_finished1 := g_finished1 G; g_finished2 := g_finished2 G; g_nav := v;
     g_navigate := g_navigate G; g_waitFor := g_waitFor G; g_all := g_all G;
     g_result := g_result G |}.

Definition set_navigate (v : option Done) (G : Goto) : Goto :=
  {| g_url := g_url G; g_waitUntil := g_waitUntil G; g_start := g_start G;
     g_finished1 := g_finished1 G; g_finished2 := g_finished2 G;
     g_nav := g_nav G; g_navigate := v; g_waitFor := g_waitFor G;
     g_all := g_all G; g_result := g_result G |}.

Definition set_waitFor (v : option Done) (G : Goto) : Goto :=
  {| g_url := g_url G; g_waitUntil := g_waitUntil G; g_start := g_start G;
     g_finished1 := g_finished1 G; g_finished2 := g_finished2 G;
     g_nav := g_nav G; g_navigate := g_navigate G; g_waitFor := v;
     g_all := g_all G; g_result := g_result G |}.

Definition set_all (v : option Done) (G : Goto) : Goto :=
  {| g_url := g_url G; g_waitUntil := g_waitUntil G; g_start := g_start G;
     g_finished1 := g_finished1 G; g_finished2 := g_finished2 G;
     g_nav := g_nav G; g_navigate := g_navigate G; g_waitFor := g_waitFor G;
     g_all := v; g_result := g_result G |}.

Definition set_result (v : option Done) (G : Goto) : Goto :=
  {| g_url := g_url G; g_waitUntil := g_waitUntil G; g_start := g_start G;
     g_finished1 := g_finished1 G; g_finished2 := g_finished2 G;
     g_nav := g_nav G; g_navigate := g_navigate G; g_waitFor := g_waitFor G;
     g_all := g_all G; g_result := v |}.

(** *** send, _handleMessage, _handleClose, close *)

Definition protocol_error (method reason : string) : Thrown :=
  Error ("Protocol error (" +:+ method +:+ "): " +:+ reason).

(** [send(method, params)] up to [await this.browser.send(...)].  The promise
    the call returns is number [next_slot]; while the transport has not
    answered with the id, the call waits in [awaiting]. *)
Definition send (method : string) (params : Value) (p : Page)
  : Page * list Effect :=
  let k := next_slot p in
  let p := set_next_slot (S k) p in
  if truthy_str (closedReason p) then
    (p, [ESettle k
           (Rejected (protocol_error method (default "" (closedReason p))))])
  else
    match browser p with
    | None => (p, [ESettle k (Rejected (Error (null_deref "send")))])
    | Some _ =>
        (set_awaiting (awaiting p ++ [(k, method)]) p,
         [ESent (sessionId p) method params])
    end.

(** [send], after the [await]: the transport returned [id]. *)
Definition send_resume (k : nat) (id : Z) (p : Page) : Page * list Effect :=
  match JsMap.get k (awaiting p) with
  | Some method =>
      (set_callbacks
         (JsMap.set id {| cb_slot := k; cb_method := method |} (callbacks p))
         (set_awaiting (JsMap.delete k (awaiting p)) p), [])
  | None => (p, [])
  end.

(** [send], after the [await], when [this.browser.send(...)] rejected (with
    an [Error] of that message): the promise of [send] rejects with it, and
    no callback is registered. *)
Definition send_reject (k : nat) (message : string) (p : Page)
  : Page * list Effect :=
  match JsMap.get k (awaiting p) with
  | Some _ =>
      (set_awaiting (JsMap.delete k (awaiting p)) p,
       [ESettle k (Rejected (Error message))])
  | None => (p, [])
  end.

(** [close()] up to its [await]. *)
Definition close (p : Page) : Page * list Effect :=
  match browser p with
  | None => (p, [])
  | Some _ => (p, [EDebug "Page closing"; ECloseTarget (targetId p)])
  end.

Definition on (name : string) (h : Handler) (p : Page) : Page :=
  set_listeners (listeners p ++ [(name, h)]) p.

Definition off (name : string) (h : Handler) (p : Page) : Page :=
  set_listeners (remove_last (name, h) (listeners p)) p.

(** One listener called with one event.  A watcher of [goto] is
    [e => cond(e) && (handler.finished = true) && handler.off()]. *)
Definition run_handler (h : Handler) (e : Event) (p : Page)
  : Page * list Effect :=
  match h, e with
  | H_ExecutionContextCreated, ExecutionContextCreated cid fid =>
      if decide (frameId p = Some fid) then (set_contextId (Some cid) p, [])
      else (p, [])
  | H_ExecutionContextDestroyed, ExecutionContextDestroyed cid =>
      if decide (contextId p = Some cid) then (set_contextId None p, [])
      else (p, [])
  | H_ExecutionContextsCleared, _ => (set_contextId None p, [])
  | H_TargetCrashed, _ => close (set_closedReason (Some "Page crashed!") p)
  | H_FrameNavigated g, FrameNavigated fid =>
      if decide (frameId p = Some fid) then
        (off "Page.frameNavigated" h
           (set_gotos (alter (set_finished1 true) g (gotos p)) p), [])
      else (p, [])
  | H_Lifecycle g, LifecycleEvent fid name =>
      match gotos p !! g with
      | Some G =>
          if bool_decide (frameId p = Some fid) && String.eqb name (g_waitUntil G)
          then (off "Page.lifecycleEvent" h
                  (set_gotos (alter (set_finished2 true) g (gotos p)) p), [])
          else (p, [])
      | None => (p, [])
      end
  | _, _ => (p, [])
  end.

Fixpoint run_handlers (hs : list Handler) (e : Event) (p : Page)
  : Page * list Effect :=
  match hs with
  | [] => (p, [])
  | h :: hs' =>
      let '(p1, eff1) := run_handler h e p in
      let '(p2, eff2) := run_handlers hs' e p1 in
      (p2, eff1 ++ eff2)
  end.

Definition listeners_of (name : string) (p : Page) : list Handler :=
  (filter (λ nh, nh.1 = name) (listeners p)).*2.

(** Node's [emit] throws an ['error'] event that has no listener. *)
Definition unhandled (ev : Event) (p : Page) : bool :=
  String.eqb (event_name ev) "error"
  && match listeners_of "error" p with [] => true | _ :: _ => false end.

(** [this.emit(data.method, data.params)]: the listeners registered for the
    name when the call starts run in registration order. *)
Definition emit (e : option Event) (p : Page) : Page * list Effect :=
  match e with
  | None => (p, [EEmit None])
  | Some ev =>
      if unhandled ev p then (p, [EEmit e; EUnhandledError ev])
      else
        let '(p', eff) := run_handlers (listeners_of (event_name ev) p) ev p in
        (p', EEmit e :: eff)
  end.

Definition response_error (callback : Callback) (e : RemoteError) : Thrown :=
  Error ("Protocol error (" +:+ cb_method callback +:+ "): "
         +:+ error_message e
         +:+ match error_data e with Some d => ": " +:+ d | None => "" end).

(** [data.id && this.#callbacks.has(data.id)] *)
Definition matches_pending (data : Message) (p : Page) : bool :=
  match m_id data with
  | Some id => negb (id =? 0) && JsMap.has id (callbacks p)
  | None => false
  end.

Definition _handleMessage (data : Message) (p : Page) : Page * list Effect :=
  if matches_pending data p then
    match m_id data with
    | Some id =>
        match JsMap.get id (callbacks p) with
        | Some callback =>
            let p' := set_callbacks (JsMap.delete id (callbacks p)) p in
            match m_error data with
            | Some e =>
                (p', [ESettle (cb_slot callback)
                        (Rejected (response_error callback e))])
            | None =>
                (p', [ESettle (cb_slot callback) (Resolved (m_result data))])
            end
        | None => (p, [])
        end
    | None => (p, [])
    end
  else emit (m_event data) p.

(** [this.closedReason ||= 'Page closed.'] *)
Definition close_reason (p : Page) : string :=
  match closedReason p with
  | Some r => if String.eqb r "" then "Page closed." else r
  | None => "Page closed."
  end.

(** [_handleClose()], for what it does to the session itself; line 327
    ([this.parent?.frames.delete(this)]) acts on another session and is in
    [Sessions._handleClose] below. *)
Definition _handleClose (p : Page) : Page * list Effect :=
  let reason := close_reason p in
  (set_browser None
     (set_callbacks (JsMap.clear (callbacks p))
        (set_closedReason (Some reason) p)),
   map (λ callback,
          ESettle (cb_slot callback)
            (Rejected (protocol_error (cb_method callback) reason)))
       (JsMap.values (callbacks p))).

(** *** goto and eval *)

(** What the awaited [Page.navigate] call gave [navigate()]. *)
Inductive NavOutcome :=
| NavRejected (message : string)
| NavResolved (errorText : option string).

(** A [Runtime.RemoteObject], for the two fields [eval] reads. *)
Record RemoteObject := {
  ro_value : Value;
  ro_description : Value
}.

(** The response to [Runtime.callFunctionOn]: [exceptionDetails] may be
    missing, and so may its [exception]. *)
Record CallResult := {
  result : RemoteObject;
  exceptionDetails : option (option RemoteObject)
}.

Inductive CallOutcome :=
| CallRejected (message : string)
| CallResolved (r : CallResult).

Inductive Label :=
| LSend (method : string) (params : Value)   (* send(method, params) *)
| LSendResume (k : nat) (id : Z)             (* the transport returned an id *)
| LSendReject (k : nat) (message : string)   (* the transport's send failed *)
| LMessage (data : Message)                  (* _handleMessage(data) *)
| LClose                                     (* _handleClose() *)
| LPageClose                                 (* close() *)
| LFrameTree (frame_id : string)             (* init(): this.frameId = ... *)
| LGoto (url waitUntil : string) (now : Z)   (* goto(url, { waitUntil }) *)
| LNavResume (g : nat) (o : NavOutcome)      (* navigate() resumes *)
| LPoll (g : nat) (now : Z)                  (* waitFor polls its predicate *)
| LGotoResume (g : nat)                      (* goto resumes after Promise.all *)
| LEval (fn : string) (args : list Value)    (* eval(fn, ...args) *)
| LEvalResume (e : nat) (o : CallOutcome).   (* eval resumes *)

Definition update_goto (g : nat) (f : Goto → Goto) (p : Page) : Page :=
  set_gotos (alter f g (gotos p)) p.

(** [Promise.all] of [navigate()] and [waitFor(...)], told that one of the
    two has settled as [this]: the first rejection rejects it, the second
    fulfilment fulfils it. *)
Definition all_settle (this : Done) (other : option Done) (G : Goto) : Goto :=
  match g_all G with
  | Some _ => G
  | None =>
      match this, other with
      | Fail m, _ => set_all (Some (Fail m)) G
      | Ok, Some Ok => set_all (Some Ok) G
      | Ok, _ => G
      end
  end.

Definition settle_navigate (d : Done) (G : Goto) : Goto :=
  all_settle d (g_waitFor G) (set_navigate (Some d) (set_nav NavReturned G)).

Definition settle_waitFor (d : Done) (G : Goto) : Goto :=
  all_settle d (g_navigate G) (set_waitFor (Some d) G).

(** [if (!cookie.url) cookie.domain ||= defaultDomain] on a copy. *)
Definition scope_cookie (defaultDomain : string) (c : Cookie) : Cookie :=
  if truthy_str (cookie_url c) then c
  else if truthy_str (cookie_domain c) then c
  else {| cookie_url := cookie_url c; cookie_domain := Some defaultDomain;
          cookie_name := cookie_name c |}.

Definition opt_str (o : option string) : Value :=
  match o with Some s => VStr s | None => VUndefined end.

Definition cookie_value (c : Cookie) : Value :=
  VObj [("name", VStr (cookie_name c)); ("url", opt_str (cookie_url c));
        ("domain", opt_str (cookie_domain c))].

(** The predicate [goto] hands to [waitFor]: it throws [closedReason] or
    tells whether every watcher has finished. *)
Definition goto_predicate (G : Goto) (p : Page) : string + bool :=
  if truthy_str (closedReason p) then inl (default "" (closedReason p))
  else inr (g_finished1 G && g_finished2 G).

(** What the session takes from outside page.js. *)
Record Env := {
  hostname : string → string;      (* [hostname] of utils.js *)
  parses : string → bool;          (* [new Function(text)] accepts [text] *)
  waitFor_src : string;            (* the text of [waitFor], as [`${waitFor}`] *)
  timeout_message : Z → string     (* message of the timeout error of [waitFor] *)
}.

Section Session.

Variable env : Env.

(** Modelled from the spec: [waitFor(predicate, timeout)] of utils.js, which
    is not among the sources.  "poll at short fixed intervals until both
    watchers are finished, the session closes (fail with closedReason), or a
    fixed hard timeout elapses (fail with a timeout error)".  This is one
    poll, [elapsed] ms after the call: what the predicate throws rejects, its
    truth fulfils, and a false predicate polls again unless the timeout has
    elapsed.  [None] means poll again. *)
Definition waitFor_poll (predicate : string + bool) (elapsed timeout : Z)
  : option Done :=
  match predicate with
  | inl message => Some (Fail message)
  | inr true => Some Ok
  | inr false =>
      if timeout <=? elapsed then Some (Fail (timeout_message env timeout))
      else None
  end.

(** [navigate()] up to its first [await]. *)
Definition navigate (url : string) (g : nat) (p : Page) : Page * list Effect :=
  match browser p with
  | None =>
      (update_goto g (settle_navigate (Fail (null_deref "cookies"))) p, [])
  | Some b =>
      let k := next_slot p in
      match cookies b with
      | [] =>
          let '(p', eff) := send "Page.navigate" (VObj [("url", VStr url)]) p in
          (update_goto g (set_nav (NavNavigate k)) p', eff)
      | _ :: _ =>
          let '(p', eff) :=
            send "Network.setCookies"
              (VObj [("cookies",
                      VArr (map (λ c, cookie_value (scope_cookie (hostname env url) c))
                              (cookies b)))]) p in
          (update_goto g (set_nav (NavCookies k)) p', eff)
      end
  end.

(** [goto(url, { waitUntil })] up to [await Promise.all(...)]. *)
Definition goto (url waitUntil : string) (now : Z) (p : Page)
  : Page * list Effect :=
  let g := length (gotos p) in
  let G := {| g_url := url; g_waitUntil := waitUntil; g_start := now;
              g_finished1 := false; g_finished2 := false;
              g_nav := NavReturned; g_navigate := None; g_waitFor := None;
              g_all := None; g_result := None |} in
  let p1 := set_gotos (gotos p ++ [G]) p in
  let p2 := on "Page.frameNavigated" (H_FrameNavigated g) p1 in
  let p3 := on "Page.lifecycleEvent" (H_Lifecycle g) p2 in
  let '(p4, eff) := navigate url g p3 in
  (p4, EDebug ("Navigate to: " +:+ url) :: eff).

(** [navigate()] after one of its [await]s, handed [o] by the [await].
    [g_nav] names the promise of [send] that is awaited; that [o] is what
    this promise settled as is said of a trace, by [scheduled] below. *)
Definition nav_resume (g : nat) (o : NavOutcome) (p : Page)
  : Page * list Effect :=
  match gotos p !! g with
  | Some G =>
      match g_nav G, o with
      | NavReturned, _ => (p, [])
      | _, NavRejected m => (update_goto g (settle_navigate (Fail m)) p, [])
      | NavCookies _, NavResolved _ =>
          let k := next_slot p in
          let '(p', eff) :=
            send "Page.navigate" (VObj [("url", VStr (g_url G))]) p in
          (update_goto g (set_nav (NavNavigate k)) p', eff)
      | NavNavigate _, NavResolved errorText =>
          if truthy_str errorText then
            (update_goto g (settle_navigate (Fail (default "" errorText))) p, [])
          else (update_goto g (settle_navigate Ok) p, [])
      end
  | None => (p, [])
  end.

(** One poll of the [waitFor] of [goto] number [g], at clock [now]. *)
Definition poll (g : nat) (now : Z) (p : Page) : Page * list Effect :=
  match gotos p !! g with
  | Some G =>
      match g_waitFor G with
      | None =>
          match waitFor_poll (goto_predicate G p) (now - g_start G)
                  PAGE_TIMEOUT with
          | Some d => (update_goto g (settle_waitFor d) p, [])
          | None => (p, [])
          end
      | Some _ => (p, [])
      end
  | None => (p, [])
  end.

(** [goto] after [await Promise.all(...)]: the [catch] block, or the end. *)
Definition goto_resume (g : nat) (p : Page) : Page * list Effect :=
  match gotos p !! g with
  | Some G =>
      match g_result G, g_all G with
      | None, Some Ok =>
          (update_goto g (set_result (Some Ok)) p, [EDebug "Page navigated"])
      | None, Some (Fail m) =>
          (update_goto g
             (set_result (Some (Fail ("Navigation failed: " +:+ m))))
             (off "Page.lifecycleEvent" (H_Lifecycle g)
                (off "Page.frameNavigated" (H_FrameNavigated g) p)), [])
      | _, _ => (p, [])
      end
  | None => (p, [])
  end.

(** Lines 181-194 of [eval]: the function text that will be sent, or [None]
    for the "not serializable" error. *)
Definition serialize (fn : string) : option string :=
  if parses env ("(" +:+ fn +:+ ")") then Some fn
  else
    let fnbody :=
      if String.prefix "async " fn
      then "async function" +:+ String.substring 5 (String.length fn - 5) fn
      else "function " +:+ fn in
    if parses env ("(" +:+ fnbody +:+ ")") then Some fnbody else None.

Definition withPercyHelpers (fnbody : string) : string :=
  "function withPercyHelpers() {"
  +:+ ("return (" +:+ fnbody +:+ ")({"
       +:+ ("waitFor: " +:+ waitFor_src env) +:+ "}, ...arguments)")
  +:+ "}".

Definition not_serializable : Thrown :=
  Error "The provided function is not serializable".

(** [eval(fn, ...args)] up to [await this.send(...)]. *)
Definition eval (fn : string) (args : list Value) (p : Page)
  : Page * list Effect :=
  match serialize fn with
  | None => (set_evals (evals p ++ [EvalDone (Rejected not_serializable)]) p, [])
  | Some fnbody =>
      let k := next_slot p in
      let '(p', eff) :=
        send "Runtime.callFunctionOn"
          (VObj [("functionDeclaration", VStr (withPercyHelpers fnbody));
                 ("arguments", VArr (map (λ value, VObj [("value", value)]) args));
                 ("executionContextId",
                  match contextId p with Some c => VNum c | None => VNull end);
                 ("returnByValue", VBool true);
                 ("awaitPromise", VBool true);
                 ("userGesture", VBool true)]) p in
      (set_evals (evals p' ++ [EvalAwait k]) p', eff)
  end.

(** What [eval] makes of the settled call. *)
Definition eval_result (o : CallOutcome) : Outcome :=
  match o with
  | CallRejected m => Rejected (Error m)
  | CallResolved r =>
      match exceptionDetails r with
      | Some (Some exception) => Rejected (Raw (ro_description exception))
      | Some None => Rejected (Error (undefined_deref "description"))
      | None => Resolved (ro_value (result r))
      end
  end.

Definition eval_resume (e : nat) (o : CallOutcome) (p : Page)
  : Page * list Effect :=
  match evals p !! e with
  | Some (EvalAwait _) =>
      (set_evals (<[e := EvalDone (eval_result o)]> (evals p)) p, [])
  | _ => (p, [])
  end.

(** One atomic segment. *)
Definition step (l : Label) (p : Page) : Page * list Effect :=
  match l with
  | LSend method params => send method params p
  | LSendResume k id => send_resume k id p
  | LSendReject k message => send_reject k message p
  | LMessage data => _handleMessage data p
  | LClose => _handleClose p
  | LPageClose => close p
  | LFrameTree fid => (set_frameId (Some fid) p, [])
  | LGoto url waitUntil now => goto url waitUntil now p
  | LNavResume g o => nav_resume g o p
  | LPoll g now => poll g now p
  | LGotoResume g => goto_resume g p
  | LEval fn args => eval fn args p
  | LEvalResume e o => eval_resume e o p
  end.

Fixpoint run (t : list Label) (p : Page) : Page * list Effect :=
  match t with
  | [] => (p, [])
  | l :: t' =>
      let '(p1, eff1) := step l p in
      let '(p2, eff2) := run t' p1 in
      (p2, eff1 ++ eff2)
  end.

Definition state (t : list Label) (p : Page) : Page := (run t p).1.
Definition effects (t : list Label) (p : Page) : list Effect := (run t p).2.

(** *** When [navigate()] resumes

    A label [LNavResume g o] says that [navigate()] of [goto] number [g]
    resumes and what its [await] hands it; the runtime resumes it only when
    the call it awaits has settled, and with what that call settled as. *)

(** The call [navigate()] awaits. *)
Definition nav_call (pc : NavPc) : option nat :=
  match pc with
  | NavCookies k | NavNavigate k => Some k
  | NavReturned => None
  end.

(** [res.errorText] *)
Definition errorText_of (res : Value) : Value :=
  match res with
  | VObj fields =>
      default VUndefined
        (snd <$> List.find (λ kv, String.eqb kv.1 "errorText") fields)
  | _ => VUndefined
  end.

(** [if (res.errorText) throw new Error(res.errorText)], for the value [v]
    of [res.errorText]: a truthy value that is not a string is thrown as
    the message of an [Error], whatever text it makes. *)
Definition errorText_says (v : Value) (o : NavOutcome) : Prop :=
  match v with
  | VStr text => o = NavResolved (Some text)
  | _ => if truthy v then ∃ message, o = NavRejected message
         else o = NavResolved None
  end.

(** What the [await] hands [navigate()] at [pc] when the call has settled
    as [out].  A rejection is rethrown (the session rejects its calls with
    [Error]s only).  The result of [Network.setCookies] is not looked at;
    of the result of [Page.navigate], [errorText] is read, which throws if
    the result is [undefined] or [null]. *)
Definition nav_says (pc : NavPc) (out : Outcome) (o : NavOutcome) : Prop :=
  match pc, out with
  | NavReturned, _ => False
  | _, Rejected (Error message) => o = NavRejected message
  | _, Rejected (Raw _) => False
  | NavCookies _, Resolved _ => ∃ ignored, o = NavResolved ignored
  | NavNavigate _, Resolved VUndefined =>
      o = NavRejected (undefined_deref "errorText")
  | NavNavigate _, Resolved VNull => o = NavRejected (null_deref "errorText")
  | NavNavigate _, Resolved res =>
      errorText_says (errorText_of res) o
  end.

(** The trace [t], run from [p] after the effects [E], resumes every
    [navigate()] that way. *)
Fixpoint scheduled (t : list Label) (p : Page) (E : list Effect) : Prop :=
  match t with
  | [] => True
  | l :: t' =>
      match l with
      | LNavResume g o =>
          ∀ G k, gotos p !! g = Some G → nav_call (g_nav G) = Some k →
                 ∃ out, ESettle k out ∈ E ∧ nav_says (g_nav G) out o
      | _ => True
      end
      ∧ scheduled t' (step l p).1 (E ++ (step l p).2)
  end.

End Session.

End Page.

(** ** The sessions of one browser

    [_handleClose] also writes to the parent session, so the session objects
    are kept in a store, by [sessionId]. *)

Module Sessions.
Import Page.

Definition frames_delete (sid : string) (fs : list string) : list string :=
  filter (λ x, x ≠ sid) fs.

(** [_handleClose()] of the session [sid], whole. *)
Definition _handleClose (sid : string) (pages : gmap string Page)
  : gmap string Page * list Effect :=
  match pages !! sid with
  | Some p =>
      let '(p', eff) := Page._handleClose p in
      let pages' := <[sid := p']> pages in
      (match parent p with
       | Some pid =>
           alter (λ q, set_frames (frames_delete sid (frames q)) q) pid pages'
       | None => pages'
       end, eff)
  | None => (pages, [])
  end.

End Sessions.

(** * The concurrency queue *)

Module Queue.

(** The work the orchestrator queues, by what its key says. *)
Inductive Task :=
| BuildCreate                 (* 'build/create' *)
| Capture (name : string)     (* `snapshot/${name}` *)
| Upload (name : string).     (* `upload/${name}` *)

#[global] Instance Task_eq_dec : EqDecision Task.
Proof. solve_decision. Defined.

Definition key (t : Task) : string :=
  match t with
  | BuildCreate => "build/create"
  | Capture name => "snapshot/" +:+ name
  | Upload name => "upload/" +:+ name
  end.

Record t := {
  closed : bool;          (* close() was called *)
  forced : bool;          (* close(true) was called *)
  running : bool;         (* dispatches queued tasks (not paused) *)
  concurrency : nat;
  queued : list Task;     (* not yet started, next first *)
  active : list Task      (* started, not yet settled *)
}.

Definition set_closed (v : bool) (q : t) : t :=
  {| closed := v; forced := forced q; running := running q;
     concurrency := concurrency q; queued := queued q; active := active q |}.

Definition set_forced (v : bool) (q : t) : t :=
  {| closed := closed q; forced := v; running := running q;
     concurrency := concurrency q; queued := queued q; active := active q |}.

Definition set_running (v : bool) (q : t) : t :=
  {| closed := closed q; forced := forced q; running := v;
     concurrency := concurrency q; queued := queued q; active := active q |}.

Definition set_queued (v : list Task) (q : t) : t :=
  {| closed := closed q; forced := forced q; running := running q;
     concurrency := concurrency q; queued := v; active := active q |}.

Definition set_active (v : list Task) (q : t) : t :=
  {| closed := closed q; forced := forced q; running := running q;
     concurrency := concurrency q; queued := queued q; active := v |}.

(** [new Queue()] *)
Definition new (concurrency : nat) : t :=
  {| closed := false; forced := false; running := true;
     concurrency := concurrency; queued := []; active := [] |}.

(** The tasks still queued or running, and their number. *)
Definition tasks (q : t) : list Task := queued q ++ active q.
Definition length (q : t) : nat := List.length (tasks q).

(** Modelled from the spec: [push(key, factory, priority?)] of queue.js,
    which is not among the sources.  "enqueues work identified by key; if
    key already denotes a queued-or-running task, the existing task's result
    is returned instead of starting a duplicate"; "priority (when given)
    places the task ahead of normal FIFO order".  A push on a closed queue
    is taken like any other: after the queues were force-closed,
    "subsequent snapshot() calls still enqueue (queue not rejecting), but no
    further upload tasks actually send (queue force-closed)"; it is
    [can_dispatch] below that keeps a force-closed queue from starting
    what it holds. *)
Definition push (task : Task) (priority : bool) (q : t) : t :=
  if decide (key task ∈ key <$> tasks q) then q
  else if priority then set_queued (task :: queued q) q
  else set_queued (queued q ++ [task]) q.

(** Modelled from the spec: [clear(keyPrefixOrPredicate)] of queue.js.
    "cancels and removes not-yet-started tasks matching the filter; running
    tasks are unaffected". *)
Definition clear (prefix : string) (q : t) : t :=
  set_queued (filter (λ task, String.prefix prefix (key task) = false) (queued q)) q.

(** Modelled from the spec: [stop()] and [run()] of queue.js.  "pause/resume
    dispatch of queued-but-not-yet-started tasks without discarding them;
    running tasks continue". *)
Definition stop (q : t) : t := set_running false q.
Definition run (q : t) : t := set_running true q.

(** Modelled from the spec: [close(force?)] of queue.js.  "stops accepting
    new tasks; returns the list of tasks still queued/running at the time of
    the call.  With force, also cancels queued and in-flight tasks
    immediately."  The queue returned stands for that list too: the caller
    reads its [length]. *)
Definition close (force : bool) (q : t) : t :=
  let q' := set_closed true q in
  if force then set_forced true (set_active [] (set_queued [] q')) else q'.

(** A queue right after [close(true)]: closed, and holding nothing. *)
Definition force_closed (q : t) : Prop :=
  closed q = true ∧ queued q = [] ∧ active q = [].

(** A queue on which [close(true)] was called at some time: it is closed,
    nothing of it is running, and it starts nothing any more. *)
Definition cancelled (q : t) : Prop :=
  closed q = true ∧ forced q = true ∧ active q = [].

(** The queue may start its next task: it was not force-closed, is not
    paused, has a task, and is below its concurrency ceiling. *)
Definition can_dispatch (q : t) : bool :=
  negb (forced q) && running q
  && bool_decide (List.length (active q) < concurrency q)%nat
  && match queued q with [] => false | _ => true end.

Definition dispatch (q : t) : t :=
  match queued q with
  | task :: rest => set_active (active q ++ [task]) (set_queued rest q)
  | [] => q
  end.

(** A started task settles and leaves the queue. *)
Definition settle (task : Task) (q : t) : t :=
  set_active (filter (λ x, x ≠ task) (active q)) q.

End Queue.

(** * The orchestrator: percy.js *)

Module Percy.

Record Build := {
  build_id : string;
  build_number : string;
  build_url : string;
  build_failed : bool
}.

(** How an awaited promise of a collaborator settled. *)
Inductive Settled :=
| Fulfilled
| Failed (code message : string).

(** An entry of [error.response.body.errors]. *)
Record ApiError := {
  source_pointer : option string;   (* e.source?.pointer *)
  detail : option string
}.

(** [error.response.body]: the body may be missing, and so may its
    [errors]; an entry of the array may be [null]. *)
Inductive Body :=
| NoBody
| BodyOf (errors : option (list (option ApiError))).

Record Response := {
  status : Z;
  body : Body
}.

(** What [sendSnapshot] rejects with. *)
Record UploadError := {
  upload_message : string;
  response : option Response
}.

(** Where [start()] stands. *)
Inductive StartPc :=
| StartIdle
| StartAwaitBuild                      (* await buildTask *)
| StartAwaitLaunch                     (* await this.browser.launch(...) *)
| StartAwaitListen                     (* await this.server?.listen(...) *)
| StartCatchServer (code message : string)   (* catch: await this.server?.close() *)
| StartCatchBrowser (code message : string)  (* catch: await this.browser.close() *)
| StartReturned.

(** Where the [stop()] that got past the guards stands. *)
Inductive StopPc :=
| StopIdle
| StopAwaitSnapshots                   (* await this.#snapshots.empty(...) *)
| StopAwaitUploads                     (* await this.#uploads.empty(...) *)
| StopAwaitServer                      (* await this.server?.close() *)
| StopAwaitBrowser                     (* await this.browser.close() *)
| StopAwaitFinalize                    (* await this.client.finalizeBuild(...) *)
| StopReturned.

Record Percy := {
  readyState : option Z;
  deferUploads : bool;
  skipUploads : bool;
  server : bool;                       (* whether this.server exists *)
  port : Z;
  uploads : Queue.t;                   (* #uploads *)
  snapshots : Queue.t;                 (* #snapshots *)
  build : option Build;
  start_pc : StartPc;
  stop_pc : StopPc
}.

Definition set_readyState (v : option Z) (s : Percy) : Percy :=
  {| readyState := v; deferUploads := deferUploads s;
     skipUploads := skipUploads s; server := server s; port := port s;
     uploads := uploads s; snapshots := snapshots s; build := build s;
     start_pc := start_pc s; stop_pc := stop_pc s |}.

Definition set_uploads (v : Queue.t) (s : Percy) : Percy :=
  {| readyState := readyState s; deferUploads := deferUploads s;
     skipUploads := skipUploads s; server := server s; port := port s;
     uploads := v; snapshots := snapshots s; build := build s;
     start_pc := start_pc s; stop_pc := stop_pc s |}.

Definition set_snapshots (v : Queue.t) (s : Percy) : Percy :=
  {| readyState := readyState s; deferUploads := deferUploads s;
     skipUploads := skipUploads s; server := server s; port := port s;
     uploads := uploads s; snapshots := v; build := build s;
     start_pc := start_pc s; stop_pc := stop_pc s |}.

Definition set_build (v : option Build) (s : Percy) : Percy :=
  {| readyState := readyState s; deferUploads := deferUploads s;
     skipUploads := skipUploads s; server := server s; port := port s;
     uploads := uploads s; snapshots := snapshots s; build := v;
     start_pc := start_pc s; stop_pc := stop_pc s |}.

Definition set_start_pc (v : StartPc) (s : Percy) : Percy :=
  {| readyState := readyState s; deferUploads := deferUploads s;
     skipUploads := skipUploads s; server := server s; port := port s;
     uploads := uploads s; snapshots := snapshots s; build := build s;
     start_pc := v; stop_pc := stop_pc s |}.

Definition set_stop_pc (v : StopPc) (s : Percy) : Percy :=
  {| readyState := readyState s; deferUploads := deferUploads s;
     skipUploads := skipUploads s; server := server s; port := port s;
     uploads := uploads s; snapshots := snapshots s; build := build s;
     start_pc := start_pc s; stop_pc := v |}.

Inductive Level := Info | Warn | Err.

Inductive Which := Snapshots | Uploads.

Inductive Effect :=
| Log (level : Level) (msg : string)
| Progress (q : Which) (len : nat)       (* this.log.progress(...) of a drain *)
| CreateBuild                            (* this.client.createBuild() *)
| Launch                                 (* this.browser.launch(...) *)
| Listen (port : Z)                      (* this.server.listen(port) *)
| ServerClose                            (* this.server.close() *)
| BrowserClose                           (* this.browser.close() *)
| FinalizeBuild (id : string)            (* this.client.finalizeBuild(id) *)
| SendSnapshot (id name : string)        (* this.client.sendSnapshot(id, ...) *)
| TaskSettled (task : Queue.Task) (ok : bool)  (* a task's promise settles *)
| Throw (msg : string).                  (* the call throws or rejects *)

(** The text of a drain's progress line. *)
Definition progress_text (q : Which) (len : nat) : string :=
  (match q with Snapshots => "Processing " | Uploads => "Uploading " end)
  +:+ pretty len +:+ " snapshot"
  +:+ (if decide (len = 1%nat) then "" else "s") +:+ "...".

(** [new Percy({ deferUploads, skipUploads, server, port, ... })];
    [concurrency] is [config.discovery.concurrency], and [default] the
    concurrency a new queue has. *)
Definition new (deferUploads skipUploads server : bool) (port : Z)
    (concurrency : option nat) (default : nat) : Percy :=
  let defer := skipUploads || deferUploads in
  {| readyState := None; deferUploads := defer; skipUploads := skipUploads;
     server := server; port := port;
     uploads :=
       if defer then Queue.stop (Queue.new default) else Queue.new default;
     snapshots :=
       match concurrency with
       | Some (S c) => Queue.new (S c)
       | _ => Queue.new default
       end;
     build := None; start_pc := StartIdle; stop_pc := StopIdle |}.

(** [close()]: immediately stops all queues. *)
Definition close (s : Percy) : Percy :=
  set_uploads (Queue.close true (uploads s))
    (set_snapshots (Queue.close true (snapshots s)) s).

Definition server_effect (s : Percy) (e : Effect) : list Effect :=
  if server s then [e] else [].

(** [start()] up to its first [await]. *)
Definition start (s : Percy) : Percy * list Effect :=
  match readyState s with
  | Some _ => (s, [])
  | None =>
      let s1 := set_readyState (Some 0) s in
      let s2 := set_uploads (Queue.push Queue.BuildCreate true (uploads s1)) s1 in
      if deferUploads s2 then (set_start_pc StartAwaitLaunch s2, [Launch])
      else (set_start_pc StartAwaitBuild s2, [])
  end.

(** The [catch] block of [start()], entered with the error. *)
Definition start_catch (code message : string) (s : Percy)
  : Percy * list Effect :=
  (set_start_pc (StartCatchServer code message) s, server_effect s ServerClose).

Definition start_rethrow (code message : string) : string :=
  if String.eqb code "EADDRINUSE"
  then "Percy is already running or the port is in use"
  else message.

(** [start()] after an [await]. *)
Definition start_resume (r : Settled) (s : Percy) : Percy * list Effect :=
  match start_pc s, r with
  | StartAwaitBuild, Fulfilled => (set_start_pc StartAwaitLaunch s, [Launch])
  | StartAwaitLaunch, Fulfilled =>
      (set_start_pc StartAwaitListen s, server_effect s (Listen (port s)))
  | StartAwaitListen, Fulfilled =>
      (set_start_pc StartReturned (set_readyState (Some 1) s),
       [Log Info "Percy has started!"])
  | StartAwaitBuild, Failed c m
  | StartAwaitLaunch, Failed c m
  | StartAwaitListen, Failed c m => start_catch c m s
  | StartCatchServer c m, Fulfilled =>
      (set_start_pc (StartCatchBrowser c m) s, [BrowserClose])
  | StartCatchBrowser c m, Fulfilled =>
      (set_start_pc StartReturned (set_readyState (Some 3) s),
       [Throw (start_rethrow c m)])
  | StartCatchServer _ _, Failed _ m'
  | StartCatchBrowser _ _, Failed _ m' =>
      (set_start_pc StartReturned s, [Throw m'])
  | StartIdle, _ | StartReturned, _ => (s, [])
  end.

(** [stop()] from "close the any running server and browser" on. *)
Definition stop_teardown (s : Percy) : Percy * list Effect :=
  (set_stop_pc StopAwaitServer s, server_effect s ServerClose).

(** [stop()] from "run, close, and wait for the upload queue to empty". *)
Definition stop_uploads (s : Percy) : Percy * list Effect :=
  if skipUploads s then stop_teardown s
  else
    let s1 := set_uploads (Queue.close false (Queue.run (uploads s))) s in
    if (0 <? Queue.length (uploads s1))%nat
    then (set_stop_pc StopAwaitUploads s1, [])
    else stop_teardown s1.

(** [stop(force)] up to its first [await]. *)
Definition stop (force : bool) (s : Percy) : Percy * list Effect :=
  match readyState s with
  | None => (s, [])
  | Some n =>
      if (n =? 0) || (2 <? n) then (s, [])
      else
        let s1 := if force then close s else s in
        if n =? 2 then (s1, [])
        else
          let s2 := set_readyState (Some 2) s1 in
          let eff := if force then [Log Info "Stopping percy..."] else [] in
          let s3 := set_snapshots (Queue.close false (snapshots s2)) s2 in
          if (0 <? Queue.length (snapshots s3))%nat
          then (set_stop_pc StopAwaitSnapshots s3, eff)
          else let '(s4, eff') := stop_uploads s3 in (s4, eff ++ eff')
  end.

(** The end of [stop()], after server and browser are closed. *)
Definition stop_finish (s : Percy) : Percy * list Effect :=
  match build s with
  | Some b =>
      if build_failed b then
        (set_stop_pc StopReturned (set_readyState (Some 3) s),
         [Log Warn ("Build #" +:+ build_number b +:+ " failed: " +:+ build_url b)])
      else (set_stop_pc StopAwaitFinalize s, [FinalizeBuild (build_id b)])
  | None =>
      (set_stop_pc StopReturned (set_readyState (Some 3) s),
       [Log Warn "Build not created"])
  end.

(** [stop()] after an [await].  The two drains resume once their queue is
    empty. *)
Definition stop_resume (r : Settled) (s : Percy) : Percy * list Effect :=
  match stop_pc s, r with
  | StopAwaitSnapshots, _ =>
      if (Queue.length (snapshots s) =? 0)%nat then stop_uploads s else (s, [])
  | StopAwaitUploads, _ =>
      if (Queue.length (uploads s) =? 0)%nat then stop_teardown s else (s, [])
  | StopAwaitServer, Fulfilled => (set_stop_pc StopAwaitBrowser s, [BrowserClose])
  | StopAwaitBrowser, Fulfilled => stop_finish s
  | StopAwaitFinalize, Fulfilled =>
      match build s with
      | Some b =>
          (set_stop_pc StopReturned (set_readyState (Some 3) s),
           [Log Info ("Finalized build #" +:+ build_number b +:+ ": "
                      +:+ build_url b)])
      | None => (set_stop_pc StopReturned s, [Throw (undefined_deref "number")])
      end
  | StopAwaitServer, Failed _ m
  | StopAwaitBrowser, Failed _ m
  | StopAwaitFinalize, Failed _ m => (set_stop_pc StopReturned s, [Throw m])
  | StopIdle, _ | StopReturned, _ => (s, [])
  end.

(** [snapshot(options)]; [name] is the name the resolved configuration
    gives the snapshot. *)
Definition snapshot (name : string) (s : Percy) : Percy * list Effect :=
  if decide (readyState s = Some 1) then
    let s1 := set_uploads (Queue.clear ("upload/" +:+ name) (uploads s)) s in
    (set_snapshots (Queue.push (Queue.Capture name) false (snapshots s1)) s1, [])
  else (s, [Throw "Not running"]).

(** [_scheduleUpload(name, conf, resources)] *)
Definition _scheduleUpload (name : string) (s : Percy) : Percy :=
  set_uploads (Queue.push (Queue.Upload name) false (uploads s)) s.

(** [errors.find(e => e.source?.pointer === '/data/attributes/build')]:
    the first such entry, if any; reading [source] of a [null] entry that
    comes before it throws. *)
Fixpoint find_build_error (errors : list (option ApiError))
  : string + option ApiError :=
  match errors with
  | [] => inr None
  | None :: _ => inl (null_deref "source")
  | Some a :: rest =>
      if bool_decide (source_pointer a = Some "/data/attributes/build")
      then inr (Some a)
      else find_build_error rest
  end.

(** [failed] of the upload task's [catch]: the first error of a 422
    response whose source pointer is the build, or the message of the
    [TypeError] that computing it throws: [error.response.body.errors.find]
    is not guarded. *)
Definition build_failure (e : UploadError) : string + option ApiError :=
  match response e with
  | Some r =>
      if status r =? 422 then
        match body r with
        | NoBody => inl (undefined_deref "errors")
        | BodyOf None => inl (undefined_deref "find")
        | BodyOf (Some errors) => find_build_error errors
        end
      else inr None
  | None => inr None
  end.

Definition mark_failed (b : Build) : Build :=
  {| build_id := build_id b; build_number := build_number b;
     build_url := build_url b; build_failed := true |}.

(** The [catch] block of the upload task.  The boolean tells whether the
    task then returns ([true]) or throws out of the block ([false]: in
    computing [failed], before anything is logged, or in the assignment to
    [this.build.failed] without a build); a task that throws rejects. *)
Definition upload_catch (name : string) (e : UploadError) (s : Percy)
  : Percy * list Effect * bool :=
  match build_failure e with
  | inl _ => (s, [], false)
  | inr failed =>
      let logs :=
        [Log Err ("Encountered an error uploading snapshot: " +:+ name);
         Log Err (default (upload_message e) (failed ≫= detail))] in
      match failed with
      | Some _ =>
          match build s with
          | Some b => (close (set_build (Some (mark_failed b)) s), logs, true)
          | None => (s, logs, false)
          end
      | None => (s, logs, true)
      end
  end.

(** Modelled from the spec: [empty(onProgress)] of queue.js, which is not
    among the sources.  "resolves once the queue fully drains (including
    tasks added after the call), invoking onProgress(remainingCount) as each
    task completes".  The only drains are the two of [stop()], so a drain is
    in progress on a queue exactly while [stop()] awaits it; this is the
    progress line a settling task of queue [q] then causes. *)
Definition drain_progress (q : Which) (s : Percy) : list Effect :=
  match q, stop_pc s with
  | Snapshots, StopAwaitSnapshots =>
      [Progress Snapshots (Queue.length (snapshots s))]
  | Uploads, StopAwaitUploads => [Progress Uploads (Queue.length (uploads s))]
  | _, _ => []
  end.

(** A started task of queue [q] settles. *)
Definition task_settled (q : Which) (task : Queue.Task) (ok : bool) (s : Percy)
  : Percy * list Effect :=
  let s' :=
    match q with
    | Snapshots => set_snapshots (Queue.settle task (snapshots s)) s
    | Uploads => set_uploads (Queue.settle task (uploads s)) s
    end in
  (s', TaskSettled task ok :: drain_progress q s').

(** The error of reading [this.build.id] without a build. *)
Definition no_build : UploadError :=
  {| upload_message := undefined_deref "id"; response := None |}.

(** A queue starts its next task, which runs up to its first [await]. *)
Definition dispatch (q : Which) (s : Percy) : Percy * list Effect :=
  match q with
  | Snapshots =>
      if Queue.can_dispatch (snapshots s)
      then (set_snapshots (Queue.dispatch (snapshots s)) s, [])
      else (s, [])
  | Uploads =>
      if Queue.can_dispatch (uploads s) then
        let s1 := set_uploads (Queue.dispatch (uploads s)) s in
        match Queue.queued (uploads s) with
        | Queue.BuildCreate :: _ =>
            (set_uploads (Queue.stop (uploads s1)) s1, [CreateBuild])
        | Queue.Upload name :: _ =>
            match build s1 with
            | Some b => (s1, [SendSnapshot (build_id b) name])
            | None =>
                let '(s2, logs, ok) := upload_catch name no_build s1 in
                let '(s3, eff) := task_settled Uploads (Queue.Upload name) ok s2 in
                (s3, logs ++ eff)
            end
        | _ => (s1, [])
        end
      else (s, [])
  end.

(** [createBuild()] resolved: the [then] callback of the build task. *)
Definition build_created (id number url : string) (s : Percy)
  : Percy * list Effect :=
  if decide (Queue.BuildCreate ∈ Queue.active (uploads s)) then
    let b := {| build_id := id; build_number := number; build_url := url;
                build_failed := false |} in
    let s1 := set_uploads (Queue.run (uploads s)) (set_build (Some b) s) in
    task_settled Uploads Queue.BuildCreate true s1
  else (s, []).

(** [createBuild()] rejected; with deferred uploads the handler attached
    in [start()] logs and closes. *)
Definition build_failed_to_create (message : string) (s : Percy)
  : Percy * list Effect :=
  if decide (Queue.BuildCreate ∈ Queue.active (uploads s)) then
    let '(s1, eff) := task_settled Uploads Queue.BuildCreate false s in
    if deferUploads s1 then
      (close s1, eff ++ [Log Err "Failed to create build"; Log Err message])
    else (s1, eff)
  else (s, []).

(** A running capture task calls [_scheduleUpload(name, ...)]. *)
Definition capture_schedules (task name : string) (s : Percy)
  : Percy * list Effect :=
  if decide (Queue.Capture task ∈ Queue.active (snapshots s))
  then (_scheduleUpload name s, [])
  else (s, []).

(** A capture task returns; its errors were logged and swallowed. *)
Definition capture_done (task : string) (s : Percy) : Percy * list Effect :=
  if decide (Queue.Capture task ∈ Queue.active (snapshots s))
  then task_settled Snapshots (Queue.Capture task) true s
  else (s, []).

(** [sendSnapshot] of a running upload task settled: the task returns, or
    runs its [catch] block first. *)
Definition upload_settled (name : string) (r : option UploadError) (s : Percy)
  : Percy * list Effect :=
  if decide (Queue.Upload name ∈ Queue.active (uploads s)) then
    match r with
    | None => task_settled Uploads (Queue.Upload name) true s
    | Some e =>
        let '(s1, logs, ok) := upload_catch name e s in
        let '(s2, eff) := task_settled Uploads (Queue.Upload name) ok s1 in
        (s2, logs ++ eff)
    end
  else (s, []).

Inductive Label :=
| LStart                                     (* start() *)
| LStartResume (r : Settled)
| LStop (force : bool)                       (* stop(force) *)
| LStopResume (r : Settled)
| LSnapshot (name : string)                  (* snapshot(options) *)
| LClose                                     (* close() *)
| LDispatch (q : Which)
| LBuildCreated (id number url : string)
| LBuildFailed (message : string)
| LScheduleUpload (task name : string)
| LCaptureDone (task : string)
| LUploadSettled (name : string) (r : option UploadError).

Definition step (l : Label) (s : Percy) : Percy * list Effect :=
  match l with
  | LStart => start s
  | LStartResume r => start_resume r s
  | LStop force => stop force s
  | LStopResume r => stop_resume r s
  | LSnapshot name => snapshot name s
  | LClose => (close s, [])
  | LDispatch q => dispatch q s
  | LBuildCreated id number url => build_created id number url s
  | LBuildFailed message => build_failed_to_create message s
  | LScheduleUpload task name => capture_schedules task name s
  | LCaptureDone task => capture_done task s
  | LUploadSettled name r => upload_settled name r s
  end.

Fixpoint run (t : list Label) (s : Percy) : Percy * list Effect :=
  match t with
  | [] => (s, [])
  | l :: t' =>
      let '(s1, eff1) := step l s in
      let '(s2, eff2) := run t' s1 in
      (s2, eff1 ++ eff2)
  end.

Definition state (t : list Label) (s : Percy) : Percy := (run t s).1.
Definition effects (t : list Label) (s : Percy) : list Effect := (run t s).2.

(** The readiness states by name, in their order. *)
Inductive Readiness := Unstarted | Starting | Running | Stopping | Stopped.

Definition readiness (s : Percy) : option Readiness :=
  match readyState s with
  | None => Some Unstarted
  | Some 0 => Some Starting
  | Some 1 => Some Running
  | Some 2 => Some Stopping
  | Some 3 => Some Stopped
  | Some _ => None
  end.

Definition rank (r : Readiness) : nat :=
  match r with
  | Unstarted => 0 | Starting => 1 | Running => 2 | Stopping => 3 | Stopped => 4
  end%nat.

(** *** The hooks of a capture task *)

Record Resource := {
  url : string;
  root : bool;
  content : string
}.

(** Modelled from the spec: [createRootResource(url, domSnapshot)] of
    utils.js, which is not among the sources: "a synthetic root resource",
    flagged "is root document", for the snapshot's URL. *)
Definition createRootResource (u dom : string) : Resource :=
  {| url := u; root := true; content := dom |}.

(** [if (domSnapshot) root = createRootResource(url, domSnapshot)] *)
Definition capture_root (u : string) (domSnapshot : option string)
  : option Resource :=
  match domSnapshot with
  | Some dom => if String.eqb dom "" then None else Some (createRootResource u dom)
  | None => None
  end.

(** [getResource] of the interception hook: [root] and [resources] are the
    task's own, [cache] is [#cache]. *)
Definition getResource (root : option Resource)
    (resources cache : gmap string Resource) (u : string) : option Resource :=
  if decide (url <$> root = Some u) then root
  else match resources !! u with
       | Some r => Some r
       | None => cache !! u
       end.

(** [addResource] of the interception hook, on the task's map and [#cache]. *)
Definition addResource (resource : Resource)
    (maps : gmap string Resource * gmap string Resource)
  : gmap string Resource * gmap string Resource :=
  if root resource then maps
  else (<[url resource := resource]> maps.1, <[url resource := resource]> maps.2).

End Percy.

(** * The rest of page.js: _handleCloseRace and scripts given as text *)

Module PageRest.
Import Page.

(** [String.prototype.endsWith] *)
Definition endsWith (s searchString : string) : bool :=
  let n := String.length s in
  let m := String.length searchString in
  (m <=? n)%nat && String.eqb (String.substring (n - m) m s) searchString.

(** [error.message] for what a promise was rejected with: the message of an
    [Error], the [message] property of a plain object, [undefined] for any
    other value that has properties; reading it off [null] or [undefined]
    throws. *)
Definition message_of (e : Thrown) : Thrown + Value :=
  match e with
  | Error message => inr (VStr message)
  | Raw VUndefined => inl (Error (undefined_deref "message"))
  | Raw VNull => inl (Error (null_deref "message"))
  | Raw (VObj fields) =>
      inr (default VUndefined (snd <$> List.find (λ kv, String.eqb kv.1 "message") fields))
  | Raw _ => inr VUndefined
  end.

(** [String(this.closedReason)], as [endsWith] converts its argument. *)
Definition reason_text (p : Page) : string :=
  match closedReason p with
  | Some reason => reason
  | None => "null"
  end.

(** [_handleCloseRace(promise)] once [promise] has settled as [o]: how the
    promise it returned settles, and the error it hands to [log.debug], if
    any. *)
Definition _handleCloseRace (o : Outcome) (p : Page) : Outcome * option Thrown :=
  match o with
  | Resolved v => (Resolved v, None)
  | Rejected error =>
      match message_of error with
      | inl thrown => (Rejected thrown, None)
      | inr (VStr message) =>
          if endsWith message (reason_text p) then (Resolved VUndefined, None)
          else (Resolved VUndefined, Some error)
      | inr VUndefined => (Rejected (Error (undefined_deref "endsWith")), None)
      | inr VNull => (Rejected (Error (null_deref "endsWith")), None)
      | inr _ =>
          (Rejected (Error "error.message.endsWith is not a function"), None)
      end
  end.

(** The line feed of a template literal. *)
Definition newline : string := String (Ascii.ascii_of_nat 10) "".

(** [snapshot], "accept function bodies as strings":
    [`async execute({ waitFor }) {\n${execute}\n}`] *)
Definition execute_text (execute : string) : string :=
  "async execute({ waitFor }) {" +:+ newline +:+ execute +:+ newline +:+ "}".

End PageRest.

(** * The resources of an upload: the capture task of percy.js *)

Module Capture.
Import Percy.

(** What a capture task does to its map of discovered resources. *)
Inductive Op :=
| Add (resource : Resource)     (* addResource(resource), called by the network *)
| SetCss (percyCSS : Resource)  (* resources.set(percyCSS.url, percyCSS) *)
| Drop (rootUrl : string).      (* resources.delete(root.url), for an earlier
                                   snapshot of the same task *)

(** The task's [resources], a [Map] from URL to resource. *)
Definition Resources := JsMap.t string Resource.

Definition apply (op : Op) (resources : Resources) : Resources :=
  match op with
  | Add resource =>
      if root resource then resources
      else JsMap.set (url resource) resource resources
  | SetCss percyCSS => JsMap.set (url percyCSS) percyCSS resources
  | Drop rootUrl => JsMap.delete rootUrl resources
  end.

Definition discovered (ops : list Op) : Resources :=
  foldl (λ resources op, apply op resources) [] ops.

(** Lines 357 and 360: [resources.delete(root.url)], then the resources
    handed to [_scheduleUpload]: [[root, ...resources.values()]].  The
    result is the map as the deletion leaves it and that list. *)
Definition page_snapshot_upload (root : Resource) (resources : Resources)
  : Resources * list Resource :=
  let resources' := JsMap.delete (url root) resources in
  (resources', root :: JsMap.values resources').

(** Line 344, when a dom snapshot was provided: the map is left alone. *)
Definition dom_snapshot_upload (root : Resource) (resources : Resources)
  : list Resource :=
  root :: JsMap.values resources.

End Capture.

(** * The local API: server.js *)

Module Server.
Import Percy.

(** The route express hands a request to: the app's routes in the order
    they are registered, [NotFound] for the catch-all. *)
Inductive Route :=
| Healthcheck                      (* GET /percy/healthcheck *)
| Idle                             (* GET /percy/idle *)
| DomJs                            (* GET /percy/dom.js *)
| Snapshot (name : string) (concurrent : Value)
                                   (* POST /percy/snapshot; [concurrent] is
                                      [req.body.concurrent] *)
| Stop                             (* POST /percy/stop *)
| NotFound.                        (* .use('*', ...) *)

Inductive Reply :=
| Json (status : Z) (success : bool) (error : option string)
    (* res.status(status).json({ success, error }) *)
| Health    (* res.json({ success: true, config, loglevel, build }) *)
| File.     (* res.sendFile(require.resolve('@percy/dom')) *)

(** What a route handler awaits. *)
Inductive Awaited :=
| AwaitIdle                        (* await percy.idle() *)
| AwaitSnapshot (name : string)    (* await snapshot *)
| AwaitStop.                       (* await percy.stop() *)

Inductive Answer :=
| Replied (r : Reply)
| Pending (a : Awaited).

(** The generic error handler: [res.status(500).send({ success: false,
    error: message })]. *)
Definition error_reply (message : string) : Reply :=
  Json 500 false (Some message).

Definition success : Reply := Json 200 true None.

(** [=== false] *)
Definition is_false (v : Value) : bool :=
  match v with VBool false => true | _ => false end.

(** What [percy.snapshot] or [percy.stop] threw, if it threw. *)
Definition thrown (eff : list Effect) : option string :=
  head (omap (λ e, match e with Throw m => Some m | _ => None end) eff).

(** A request arrives: the handler of its route runs up to its first
    [await] or to its reply.  A handler wrapped in [asyncRoute] that throws
    has its error passed to [next], that is, to the error handler. *)
Definition handle (r : Route) (s : Percy) : Percy * list Effect * Answer :=
  match r with
  | Healthcheck => (s, [], Replied Health)
  | Idle => (s, [], Pending AwaitIdle)
  | DomJs => (s, [], Replied File)
  | Snapshot name concurrent =>
      let '(s', eff) := snapshot name s in
      match thrown eff with
      | Some message => (s', eff, Replied (error_reply message))
      | None =>
          if is_false concurrent then (s', eff, Pending (AwaitSnapshot name))
          else (s', eff, Replied success)
      end
  | Stop =>
      (* [percy.stop()] returns at once unless the instance is running *)
      let '(s', eff) := stop false s in
      if decide (readyState s = Some 1) then (s', eff, Pending AwaitStop)
      else (s', eff, Replied success)
  | NotFound => (s, [], Replied (Json 404 false (Some "Not found")))
  end.

(** The awaited promise settled: the handler replies, or its rejection
    goes to the error handler. *)
Definition resume (a : Awaited) (o : Settled) : Reply :=
  match o with
  | Fulfilled => success
  | Failed _ message => error_reply message
  end.

(** [startServer(app, port)]: the events of the server that [app.listen]
    returned. *)
Inductive ServerEvent :=
| Listening
| ServerError (message : string).

(** The promise [startServer] returned and the two [once] listeners. *)
Record Starting := {
  started : option (option string);  (* settled: resolved, or rejected with *)
  on_listening : bool;
  on_error : bool
}.

Definition startServer : Starting :=
  {| started := None; on_listening := true; on_error := true |}.

(** Settling a promise that is settled does nothing. *)
Definition settle (o : option string) (st : option (option string))
  : option (option string) :=
  match st with
  | Some _ => st
  | None => Some o
  end.

(** The server emits an event; the boolean tells whether a listener of
    this promise ran. *)
Definition emit (e : ServerEvent) (st : Starting) : Starting * bool :=
  match e with
  | Listening =>
      if on_listening st then
        ({| started := settle None (started st); on_listening := false;
            on_error := on_error st |}, true)
      else (st, false)
  | ServerError message =>
      if on_error st then
        ({| started := settle (Some message) (started st);
            on_listening := on_listening st; on_error := false |}, true)
      else (st, false)
  end.

Definition emit_all (es : list ServerEvent) (st : Starting) : Starting :=
  foldl (λ st e, (emit e st).1) st es.

End Server.

(** * Facts about the [Map] model *)

Module JsMapFacts.
Import JsMap.
Section Facts.
Context {K V : Type} `{EqDecision K}.
Implicit Types (m : JsMap.t K V) (k : K) (v : V).

Lemma get_set_eq k v m : get k (set k v m) = Some v.
Proof.
induction m as [|[k' v'] m IH]; simpl.
- by rewrite decide_True.
- destruct (decide (k = k')); simpl.
  + by rewrite decide_True.
  + by rewrite decide_False.
Qed.

Lemma get_set_ne k k' v m : k ≠ k' → get k (set k' v m) = get k m.
Proof.
intros Hne. induction m as [|[k'' v''] m IH]; simpl.
- by rewrite decide_False.
- destruct (decide (k' = k'')) as [->|]; simpl.
  + by rewrite !decide_False.
  + destruct (decide (k = k'')); [done | apply IH].
Qed.

Lemma get_delete_eq k m : get k (delete k m) = None.
Proof.
induction m as [|[k' v'] m IH]; simpl; [done|].
destruct (decide (k = k')); simpl; [done|]. by rewrite decide_False.
Qed.

Lemma get_delete_ne k k' m : k ≠ k' → get k (delete k' m) = get k m.
Proof.
intros Hne. induction m as [|[k'' v''] m IH]; simpl; [done|].
destruct (decide (k' = k'')) as [->|]; simpl.
- by rewrite decide_False.
- destruct (decide (k = k'')); [done | apply IH].
Qed.

Lemma get_Some_elem k v m : get k m = Some v → (k, v) ∈ m.
Proof.
induction m as [|[k' v'] m IH]; simpl; [done|].
destruct (decide (k = k')) as [->|]; intros Hg.
- injection Hg as ->. apply list_elem_of_here.
- apply list_elem_of_further. by apply IH.
Qed.

Lemma get_None_keys k m : get k m = None → k ∉ keys m.
Proof.
induction m as [|[k' v'] m IH]; simpl.
- intros _. apply not_elem_of_nil.
- destruct (decide (k = k')); [done|]. intros Hg.
  apply not_elem_of_cons. split; [done | by apply IH].
Qed.

Lemma elem_of_delete kv k m : kv ∈ delete k m → kv ∈ m ∧ kv.1 ≠ k.
Proof.
induction m as [|[k' v'] m IH]; simpl.
- by intros ?%elem_of_nil.
- destruct (decide (k = k')) as [->|].
  + intros [? ?]%IH. split; [by apply list_elem_of_further | done].
  + intros [->|Hin]%elem_of_cons.
    * split; [apply list_elem_of_here | simpl; congruence].
    * destruct (IH Hin). split; [by apply list_elem_of_further | done].
Qed.

Lemma elem_of_set kv k v m : kv ∈ set k v m → kv = (k, v) ∨ kv ∈ m.
Proof.
induction m as [|[k' v'] m IH]; simpl.
- intros ?%list_elem_of_singleton. by left.
- destruct (decide (k = k')) as [->|].
  + intros [->|Hin]%elem_of_cons; [by left|].
    right. by apply list_elem_of_further.
  + intros [->|Hin]%elem_of_cons.
    * right. apply list_elem_of_here.
    * destruct (IH Hin); [by left|]. right. by apply list_elem_of_further.
Qed.

Lemma set_fresh k v m : get k m = None → set k v m = m ++ [(k, v)].
Proof.
induction m as [|[k' v'] m IH]; simpl; [done|].
destruct (decide (k = k')); [done|]. intros Hg. by rewrite IH.
Qed.

Lemma delete_absent k m : get k m = None → delete k m = m.
Proof.
induction m as [|[k' v'] m IH]; simpl; [done|].
destruct (decide (k = k')); [done|]. intros Hg. by rewrite IH.
Qed.

Lemma keys_set_fresh k v m : get k m = None → keys (set k v m) = keys m ++ [k].
Proof. intros Hg. rewrite set_fresh by done. unfold keys. by rewrite fmap_app. Qed.

Lemma set_present k v m :
  is_Some (get k m) → keys (set k v m) = keys m.
Proof.
  induction m as [|[k' v'] m IH]; simpl.
  - by intros [? ?].
  - destruct (decide (k = k')) as [->|]; simpl; [done|].
    intros Hs. unfold keys in *. simpl. by rewrite IH.
Qed.

Lemma keys_set_NoDup k v m : NoDup (keys m) → NoDup (keys (set k v m)).
Proof.
  intros Hnd. destruct (get k m) eqn:Hg.
  - by rewrite set_present.
  - rewrite keys_set_fresh by done. apply NoDup_app. split_and!; [done | | apply NoDup_singleton].
    intros x Hx ->%list_elem_of_singleton. by apply get_None_keys in Hg.
Qed.

Lemma delete_sublist k m : delete k m `sublist_of` m.
Proof.
  induction m as [|[k' v'] m IH]; simpl; [done|].
  destruct (decide (k = k')); [by apply sublist_cons | by apply sublist_skip].
Qed.

Lemma keys_delete_NoDup k m : NoDup (keys m) → NoDup (keys (delete k m)).
Proof.
  intros Hnd. eapply sublist_NoDup; [exact Hnd|].
  unfold keys. apply fmap_sublist, delete_sublist.
Qed.

(** With unique keys, [delete] removes exactly the entry [get] finds. *)
Lemma delete_split k v m :
  NoDup (keys m) → get k m = Some v →
  ∃ m1 m2, m = m1 ++ (k, v) :: m2 ∧ delete k m = m1 ++ m2.
Proof.
  induction m as [|[k' v'] m IH]; simpl; [done|].
  intros Hnd Hg. apply NoDup_cons in Hnd as [Hk' Hnd].
  destruct (decide (k = k')) as [->|Hne].
  - injection Hg as ->. exists [], m. split; [done|]. simpl.
    apply delete_absent. destruct (get k' m) eqn:Hg'; [|done].
    apply get_Some_elem in Hg'. exfalso. apply Hk'.
    apply list_elem_of_fmap. by exists (k', v0).
  - destruct (IH Hnd Hg) as (m1 & m2 & -> & Hd).
    exists ((k', v') :: m1), m2. split; [done|]. simpl. by rewrite Hd.
Qed.

End Facts.
End JsMapFacts.

(** * Facts about [remove_last] *)

Section RemoveLast.
Context {A : Type} `{EqDecision A}.
Implicit Types (x y : A) (l : list A).

Lemma remove_last_sublist x l : remove_last x l `sublist_of` l.
Proof.
  induction l as [|y l IH]; simpl; [done|].
  destruct (decide (x ∈ l)); [by apply sublist_skip|].
  destruct (decide (x = y)); [by apply sublist_cons | done].
Qed.

Lemma remove_last_elem x y l : y ∈ remove_last x l → y ∈ l.
Proof. intros Hin. eapply elem_of_sublist; [done | apply remove_last_sublist]. Qed.

Lemma remove_last_NoDup x l : NoDup l → NoDup (remove_last x l).
Proof. intros Hnd. eapply sublist_NoDup; [done | apply remove_last_sublist]. Qed.

Lemma remove_last_gone x l : NoDup l → x ∉ remove_last x l.
Proof.
  induction l as [|y l IH]; simpl; [intros _; apply not_elem_of_nil|].
  intros [Hy Hnd]%NoDup_cons.
  destruct (decide (x ∈ l)) as [Hin|Hnin].
  - apply not_elem_of_cons. split; [intros ->; contradiction | by apply IH].
  - destruct (decide (x = y)); [done|]. by apply not_elem_of_cons.
Qed.

Lemma remove_last_absent x l : x ∉ l → remove_last x l = l.
Proof.
  induction l as [|y l IH]; simpl; [done|].
  intros [Hne Hnin]%not_elem_of_cons.
  rewrite decide_False by done. by rewrite decide_False.
Qed.

Lemma remove_last_other x y l : y ≠ x → y ∈ l → y ∈ remove_last x l.
Proof.
  intros Hne. induction l as [|z l IH]; simpl; [done|].
  intros [->|Hin]%elem_of_cons.
  - destruct (decide (x ∈ l)); [apply list_elem_of_here|].
    rewrite decide_False by done. apply list_elem_of_here.
  - destruct (decide (x ∈ l)); [apply list_elem_of_further; by apply IH|].
    destruct (decide (x = z)); [done | by apply list_elem_of_further].
Qed.

End RemoveLast.

(** * Facts about the protocol session *)

Module PageFacts.
Import Page.

(** The promises of [send] that are not settled yet: calls waiting for
    their id, then pending calls. *)
Definition outstanding (p : Page) : list nat :=
  (awaiting p).*1 ++ (cb_slot <$> JsMap.values (callbacks p)).

(** The promises a list of effects settles, in order. *)
Definition settled (E : list Effect) : list nat :=
  omap (λ e, match e with ESettle k _ => Some k | _ => None end) E.

(** The messages a list of effects sends through the session. *)
Definition sent (E : list Effect) : list (string * string * Value) :=
  omap (λ e, match e with ESent s m ps => Some (s, m, ps) | _ => None end) E.

(** The promises a list of effects fulfils. *)
Definition resolved (E : list Effect) : list nat :=
  omap (λ e, match e with ESettle k (Resolved _) => Some k | _ => None end) E.

(** What the matching response makes of a pending call. *)
Definition response_outcome (data : Message) (callback : Callback) : Outcome :=
  match m_error data with
  | Some e => Rejected (response_error callback e)
  | None => Resolved (m_result data)
  end.

(** What a segment can do to the calls of a session. *)
Inductive slot_change (l : Label) (p p' : Page) (eff : list Effect) : Prop :=
| sc_none :
    awaiting p' = awaiting p → callbacks p' = callbacks p →
    next_slot p' = next_slot p → settled eff = [] →
    slot_change l p p' eff
| sc_issue method :
    truthy_str (closedReason p) = false →
    awaiting p' = awaiting p ++ [(next_slot p, method)] →
    callbacks p' = callbacks p → next_slot p' = S (next_slot p) →
    settled eff = [] →
    slot_change l p p' eff
| sc_refuse :
    truthy_str (closedReason p) = true ∨ browser p = None →
    awaiting p' = awaiting p → callbacks p' = callbacks p →
    next_slot p' = S (next_slot p) → settled eff = [next_slot p] →
    resolved eff = [] →
    slot_change l p p' eff
| sc_register k method id :
    l = LSendResume k id →
    JsMap.get k (awaiting p) = Some method →
    awaiting p' = JsMap.delete k (awaiting p) →
    callbacks p' =
      JsMap.set id {| cb_slot := k; cb_method := method |} (callbacks p) →
    next_slot p' = next_slot p → settled eff = [] →
    slot_change l p p' eff
| sc_fail k method message :
    l = LSendReject k message →
    JsMap.get k (awaiting p) = Some method →
    awaiting p' = JsMap.delete k (awaiting p) →
    callbacks p' = callbacks p →
    next_slot p' = next_slot p →
    eff = [ESettle k (Rejected (Error message))] →
    slot_change l p p' eff
| sc_respond data id callback :
    l = LMessage data → m_id data = Some id → id ≠ 0 →
    JsMap.get id (callbacks p) = Some callback →
    awaiting p' = awaiting p →
    callbacks p' = JsMap.delete id (callbacks p) →
    next_slot p' = next_slot p →
    eff = [ESettle (cb_slot callback) (response_outcome data callback)] →
    slot_change l p p' eff
| sc_close :
    l = LClose →
    awaiting p' = awaiting p → callbacks p' = [] →
    next_slot p' = next_slot p →
    settled eff = cb_slot <$> JsMap.values (callbacks p) →
    resolved eff = [] →
    slot_change l p p' eff.

Lemma settled_app E1 E2 : settled (E1 ++ E2) = settled E1 ++ settled E2.
Proof. unfold settled. apply omap_app. Qed.

Lemma run_handler_calls h e p :
  awaiting (run_handler h e p).1 = awaiting p ∧
  callbacks (run_handler h e p).1 = callbacks p ∧
  next_slot (run_handler h e p).1 = next_slot p ∧
  evals (run_handler h e p).1 = evals p ∧
  settled (run_handler h e p).2 = [] ∧
  sent (run_handler h e p).2 = [].
Proof.
  unfold run_handler, close.
  repeat (case_match; simpl; try done).
Qed.

Lemma run_handlers_calls hs e p :
  awaiting (run_handlers hs e p).1 = awaiting p ∧
  callbacks (run_handlers hs e p).1 = callbacks p ∧
  next_slot (run_handlers hs e p).1 = next_slot p ∧
  evals (run_handlers hs e p).1 = evals p ∧
  settled (run_handlers hs e p).2 = [] ∧
  sent (run_handlers hs e p).2 = [].
Proof.
  revert p. induction hs as [|h hs IH]; intros p; simpl; [done|].
  destruct (run_handler h e p) as [p1 eff1] eqn:H1.
  destruct (run_handlers hs e p1) as [p2 eff2] eqn:H2. simpl.
  pose proof (run_handler_calls h e p) as Hh. rewrite H1 in Hh. simpl in Hh.
  pose proof (IH p1) as Hr. rewrite H2 in Hr. simpl in Hr.
  destruct Hh as (? & ? & ? & ? & Hs1 & Hn1).
  destruct Hr as (? & ? & ? & ? & Hs2 & Hn2).
  rewrite settled_app, Hs1, Hs2. unfold sent in *. rewrite omap_app, Hn1, Hn2.
  split_and!; first [congruence | done].
Qed.


Section Facts.
Variable env : Env.

Lemma send_change l method params p :
  slot_change l p (send method params p).1 (send method params p).2.
Proof.
  unfold send. simpl.
  destruct (truthy_str (closedReason p)) eqn:Hr; [apply sc_refuse; auto|].
  destruct (browser p) eqn:Hb; [by eapply sc_issue | apply sc_refuse; auto].
Qed.

(** [slot_change] only looks at the calls. *)
Lemma send_change_frame l method params p p0 q eff :
  awaiting p0 = awaiting p → callbacks p0 = callbacks p →
  next_slot p0 = next_slot p → closedReason p0 = closedReason p →
  browser p0 = browser p →
  awaiting q = awaiting (send method params p0).1 →
  callbacks q = callbacks (send method params p0).1 →
  next_slot q = next_slot (send method params p0).1 →
  settled eff = settled (send method params p0).2 →
  resolved eff = resolved (send method params p0).2 →
  slot_change l p q eff.
Proof.
  unfold send. simpl. intros Ha Hc Hn Hr Hb. rewrite Hr, Hb.
  destruct (truthy_str (closedReason p)) eqn:Hr'; simpl.
  { intros. apply sc_refuse; auto; congruence. }
  destruct (browser p) eqn:Hb'; simpl; intros.
  - eapply (sc_issue _ _ _ _ method); auto; congruence.
  - apply sc_refuse; auto; congruence.
Qed.

Lemma settled_nil_resolved E : settled E = [] → resolved E = [].
Proof.
  induction E as [|e E IH]; [done|]. unfold settled, resolved in *. simpl.
  destruct e; simpl; done.
Qed.

Lemma emit_calls e p :
  awaiting (emit e p).1 = awaiting p ∧
  callbacks (emit e p).1 = callbacks p ∧
  next_slot (emit e p).1 = next_slot p ∧
  evals (emit e p).1 = evals p ∧
  settled (emit e p).2 = [] ∧
  sent (emit e p).2 = [].
Proof.
  destruct e as [ev|]; simpl; [|done].
  destruct (unhandled ev p); [done|].
  pose proof (run_handlers_calls (listeners_of (event_name ev) p) ev p) as H.
  destruct (run_handlers _ ev p) as [p' eff]. simpl in *. done.
Qed.

Lemma settled_map_settle (f : Callback → Outcome) (cbs : list Callback) :
  settled (map (λ cb, ESettle (cb_slot cb) (f cb)) cbs) = cb_slot <$> cbs.
Proof. induction cbs as [|cb cbs IH]; simpl; [done | by rewrite IH]. Qed.

Lemma resolved_map_reject (f : Callback → Thrown) (cbs : list Callback) :
  resolved (map (λ cb, ESettle (cb_slot cb) (Rejected (f cb))) cbs) = [].
Proof. by induction cbs as [|cb cbs IH]. Qed.

Ltac via_send :=
  match goal with
  | |- context [send ?m ?ps ?q] =>
      eapply (send_change_frame _ m ps _ q); try done;
      destruct (send m ps q) as [? ?]; simpl; done
  end.

Lemma step_slot_change l p : slot_change l p (step env l p).1 (step env l p).2.
Proof.
  destruct l; simpl.
  - apply send_change.
  - unfold send_resume. destruct (JsMap.get k (awaiting p)) eqn:Hk; simpl.
    + by eapply sc_register.
    + by apply sc_none.
  - unfold send_reject. destruct (JsMap.get k (awaiting p)) eqn:Hk; simpl.
    + by eapply sc_fail.
    + by apply sc_none.
  - unfold _handleMessage. destruct (matches_pending data p) eqn:Hm.
    + unfold matches_pending in Hm. destruct (m_id data) as [id|] eqn:Hid; [|done].
      apply andb_prop in Hm as [Hz _].
      assert (id ≠ 0) by (intros ->; done).
      destruct (JsMap.get id (callbacks p)) as [cb|] eqn:Hg.
      * eapply (sc_respond _ _ _ _ data id cb); try done;
          unfold response_outcome; by destruct (m_error data).
      * by apply sc_none.
    + destruct (emit_calls (m_event data) p) as (? & ? & ? & ? & ? & ?).
      by apply sc_none.
  - apply sc_close; try done; unfold _handleClose; simpl.
    + apply (settled_map_settle
               (λ cb, Rejected (protocol_error (cb_method cb) (close_reason p)))).
    + apply (resolved_map_reject
               (λ cb, protocol_error (cb_method cb) (close_reason p))).
  - unfold close. destruct (browser p); by apply sc_none.
  - by apply sc_none.
  - unfold goto, navigate. simpl. destruct (browser p) as [b|]; simpl.
    + destruct (cookies b); simpl; via_send.
    + by apply sc_none.
  - unfold nav_resume. destruct (gotos p !! g) as [G|]; [|by apply sc_none].
    destruct (g_nav G), o; simpl; try by apply sc_none.
    + via_send.
    + destruct (truthy_str errorText); by apply sc_none.
  - unfold poll. repeat case_match; by apply sc_none.
  - unfold goto_resume. repeat case_match; by apply sc_none.
  - unfold eval. destruct (serialize env fn); [|by apply sc_none]. via_send.
  - unfold eval_resume. repeat case_match; by apply sc_none.
Qed.

Lemma values_set_elem {K V} `{EqDecision K} (k : K) (v x : V) (m : JsMap.t K V) :
  x ∈ JsMap.values (JsMap.set k v m) → x = v ∨ x ∈ JsMap.values m.
Proof.
  unfold JsMap.values. intros ([k' x'] & -> & Hin)%list_elem_of_fmap.
  apply JsMapFacts.elem_of_set in Hin as [Heq|Hin].
  - left. by injection Heq.
  - right. apply list_elem_of_fmap. by exists (k', x').
Qed.

Lemma values_set_NoDup {K V B} `{EqDecision K} (f : V → B) (k : K) (v : V)
    (m : JsMap.t K V) :
  NoDup (f <$> JsMap.values m) → f v ∉ f <$> JsMap.values m →
  NoDup (f <$> JsMap.values (JsMap.set k v m)).
Proof.
  induction m as [|[k' v'] m IH]; simpl.
  - intros _ _. apply NoDup_singleton.
  - intros [Hv' Hnd]%NoDup_cons [Hne Hnin]%not_elem_of_cons.
    destruct (decide (k = k')) as [->|]; simpl.
    + apply NoDup_cons. by split.
    + apply NoDup_cons. split; [|by apply IH].
      intros (x & Hx & [->|Hin]%values_set_elem)%list_elem_of_fmap.
      * by apply Hne.
      * apply Hv'. apply list_elem_of_fmap. by exists x.
Qed.

Lemma keys_delete_elem {K V} `{EqDecision K} (k x : K) (m : JsMap.t K V) :
  x ∈ (JsMap.delete k m).*1 → x ∈ m.*1 ∧ x ≠ k.
Proof.
  intros ([k' v'] & -> & Hin)%list_elem_of_fmap.
  apply JsMapFacts.elem_of_delete in Hin as [Hin Hne]. split; [|done].
  apply list_elem_of_fmap. by exists (k', v').
Qed.

Lemma values_delete_sublist {K V} `{EqDecision K} (k : K) (m : JsMap.t K V) :
  JsMap.values (JsMap.delete k m) `sublist_of` JsMap.values m.
Proof. unfold JsMap.values. apply fmap_sublist, JsMapFacts.delete_sublist. Qed.

(** The calls of a session are told apart by their promises, and every
    promise in use was created by [send]. *)
Record calls_ok (p : Page) : Prop := {
  calls_nodup : NoDup (outstanding p);
  calls_bound : ∀ k, k ∈ outstanding p → (k < next_slot p)%nat;
  calls_keys : NoDup (JsMap.keys (callbacks p))
}.

Lemma slot_change_ok l p p' eff :
  slot_change l p p' eff → calls_ok p → calls_ok p'.
Proof.
  intros Hc [Hnd Hb Hk]. unfold outstanding in *.
  destruct Hc as [Ha Hcb Hn _|m _ Ha Hcb Hn _|_ Ha Hcb Hn _ _
                 |k m id _ Hg Ha Hcb Hn _|k m msg _ Hg Ha Hcb Hn _
                 |data id cb _ _ _ Hg Ha Hcb Hn _
                 |_ Ha Hcb Hn _ _];
    split; unfold outstanding; rewrite ?Ha, ?Hcb, ?Hn; try done.
  - rewrite fmap_app. simpl. rewrite <-(assoc_L (++)).
    apply NoDup_app in Hnd as (HA & HAC & HC).
    apply NoDup_app. split_and!; [done| |].
    + intros x Hx [->%list_elem_of_singleton|Hin]%elem_of_app.
      * assert (next_slot p < next_slot p)%nat; [|lia].
        apply Hb, elem_of_app. by left.
      * by eapply HAC.
    + apply NoDup_cons. split; [|done]. intros Hin.
      assert (next_slot p < next_slot p)%nat; [|lia].
      apply Hb, elem_of_app. by right.
  - intros k [Hin|Hin]%elem_of_app.
    + rewrite fmap_app in Hin. apply elem_of_app in Hin as [Hin|Hin].
      * assert (k < next_slot p)%nat; [|lia]. apply Hb, elem_of_app. by left.
      * apply list_elem_of_singleton in Hin. simpl in Hin. lia.
    + assert (k < next_slot p)%nat; [|lia]. apply Hb, elem_of_app. by right.
  - intros k Hin. apply Hb in Hin. lia.
  - apply NoDup_app in Hnd as (HA & HAC & HC).
    assert (k ∈ (awaiting p).*1) as Hk1.
    { apply JsMapFacts.get_Some_elem in Hg. apply list_elem_of_fmap.
      by exists (k, m). }
    apply NoDup_app. split_and!.
    + eapply sublist_NoDup; [exact HA|]. apply fmap_sublist, JsMapFacts.delete_sublist.
    + intros x [Hx Hne]%keys_delete_elem
        (cb & -> & [->|Hin]%values_set_elem)%list_elem_of_fmap; [done|].
      eapply HAC; [exact Hx|]. apply list_elem_of_fmap. by exists cb.
    + apply (values_set_NoDup cb_slot); [done|]. simpl. by apply HAC.
  - intros x [[Hx Hne]%keys_delete_elem|Hin]%elem_of_app.
    + apply Hb, elem_of_app. by left.
    + apply list_elem_of_fmap in Hin as (cb & -> & [->|Hin]%values_set_elem).
      * simpl. apply Hb, elem_of_app. left.
        apply JsMapFacts.get_Some_elem in Hg. apply list_elem_of_fmap.
        by exists (k, m).
      * apply Hb, elem_of_app. right. apply list_elem_of_fmap. by exists cb.
  - by apply JsMapFacts.keys_set_NoDup.
  - apply NoDup_app in Hnd as (HA & HAC & HC).
    apply NoDup_app. split_and!; [| |done].
    + eapply sublist_NoDup; [exact HA|].
      apply fmap_sublist, JsMapFacts.delete_sublist.
    + intros x [Hx _]%keys_delete_elem Hin. by eapply HAC.
  - intros x [[Hx _]%keys_delete_elem|Hin]%elem_of_app;
      apply Hb, elem_of_app; [by left | by right].
  - apply NoDup_app in Hnd as (HA & HAC & HC).
    assert (cb_slot <$> JsMap.values (JsMap.delete id (callbacks p))
            `sublist_of` cb_slot <$> JsMap.values (callbacks p)) as Hsub
      by apply fmap_sublist, values_delete_sublist.
    apply NoDup_app. split_and!; [done| |by eapply sublist_NoDup].
    intros x Hx Hin. eapply HAC; [exact Hx|]. by eapply elem_of_sublist.
  - intros k [Hin|Hin]%elem_of_app.
    + apply Hb, elem_of_app. by left.
    + apply Hb, elem_of_app. right. eapply elem_of_sublist; [exact Hin|].
      apply fmap_sublist, values_delete_sublist.
  - by apply JsMapFacts.keys_delete_NoDup.
  - simpl. rewrite app_nil_r. by apply NoDup_app in Hnd as (HA & _ & _).
  - intros k Hin. simpl in Hin. rewrite app_nil_r in Hin.
    apply Hb, elem_of_app. by left.
  - apply NoDup_nil_2.
Qed.


(** Every promise [send] has created is accounted for once: it was settled,
    by the effects [E] so far, or it is still outstanding. *)
Definition accounted (p : Page) (E : list Effect) : Prop :=
  settled E ++ outstanding p ≡ₚ seq 0 (next_slot p).

(** The id a segment registers a call under, if it has to be a new one. *)
Definition fresh_id (l : Label) (p : Page) : Prop :=
  match l with
  | LSendResume _ id => JsMap.get id (callbacks p) = None
  | _ => True
  end.

Lemma slot_change_accounted l p p' eff E :
  slot_change l p p' eff → calls_ok p → fresh_id l p →
  accounted p E → accounted p' (E ++ eff).
Proof.
  intros Hc [Hnd Hb Hk] Hfresh. unfold accounted, outstanding in *.
  rewrite settled_app.
  destruct Hc as [Ha Hcb Hn He|m _ Ha Hcb Hn He|_ Ha Hcb Hn He _
                 |k m id Hreg Hg Ha Hcb Hn He|k m msg _ Hg Ha Hcb Hn He
                 |data id cb _ _ _ Hg Ha Hcb Hn He
                 |_ Ha Hcb Hn He _];
    rewrite Ha, Hcb, Hn, ?He; intros HE.
  - by rewrite app_nil_r.
  - rewrite seq_S, <-HE, fmap_app. simpl. solve_Permutation.
  - rewrite seq_S, <-HE. simpl. solve_Permutation.
  - rewrite <-HE, app_nil_r.
    subst l. simpl in Hfresh.
    rewrite (JsMapFacts.set_fresh id _ (callbacks p)) by done.
    apply NoDup_app in Hnd as (HA & _ & _).
    destruct (JsMapFacts.delete_split k m (awaiting p) HA Hg)
      as (A1 & A2 & HA12 & ->).
    rewrite HA12. unfold JsMap.values. rewrite !fmap_app. simpl.
    solve_Permutation.
  - rewrite <-HE. simpl.
    apply NoDup_app in Hnd as (HA & _ & _).
    destruct (JsMapFacts.delete_split k m (awaiting p) HA Hg)
      as (A1 & A2 & HA12 & ->).
    rewrite HA12. rewrite !fmap_app. simpl.
    solve_Permutation.
  - rewrite <-HE. subst eff. simpl.
    destruct (JsMapFacts.delete_split id cb (callbacks p) Hk Hg)
      as (C1 & C2 & HC12 & ->).
    rewrite HC12. unfold JsMap.values. rewrite !fmap_app. simpl.
    rewrite ?fmap_app. simpl. solve_Permutation.
  - rewrite <-HE. simpl. solve_Permutation.
Qed.

(** The transport never hands out an id that a pending call of the session
    still holds. *)
Fixpoint fresh_ids (t : list Label) (p : Page) : Prop :=
  match t with
  | [] => True
  | l :: t' =>
      fresh_id l p ∧ fresh_ids t' (step env l p).1
  end.

Lemma state_cons l t p : state env (l :: t) p = state env t (step env l p).1.
Proof.
  unfold state. simpl. destruct (step env l p) as [p1 e1]. simpl.
  by destruct (run env t p1).
Qed.

Lemma effects_cons l t p :
  effects env (l :: t) p = (step env l p).2 ++ effects env t (step env l p).1.
Proof.
  unfold effects. simpl. destruct (step env l p) as [p1 e1]. simpl.
  by destruct (run env t p1).
Qed.

Lemma state_app t1 t2 p :
  state env (t1 ++ t2) p = state env t2 (state env t1 p).
Proof.
  revert p. induction t1 as [|l t1 IH]; intros p; [done|].
  simpl. by rewrite !state_cons, IH.
Qed.

Lemma effects_app t1 t2 p :
  effects env (t1 ++ t2) p
  = effects env t1 p ++ effects env t2 (state env t1 p).
Proof.
  revert p. induction t1 as [|l t1 IH]; intros p; [done|].
  simpl. by rewrite !effects_cons, state_cons, IH, (assoc_L (++)).
Qed.

Lemma run_calls_ok t p : calls_ok p → calls_ok (state env t p).
Proof.
  revert p. induction t as [|l t IH]; intros p Hp; [done|].
  rewrite state_cons. apply IH. eapply slot_change_ok; [|done].
  apply step_slot_change.
Qed.

Lemma run_accounted t p E :
  calls_ok p → fresh_ids t p → accounted p E →
  accounted (state env t p) (E ++ effects env t p).
Proof.
  revert p E. induction t as [|l t IH]; intros p E Hp Hf HE.
  - unfold effects. simpl. by rewrite app_nil_r.
  - destruct Hf as [Hl Hf]. rewrite state_cons, effects_cons, (assoc_L (++)).
    apply IH; [|done|].
    + eapply slot_change_ok; [apply step_slot_change | done].
    + eapply slot_change_accounted; [apply step_slot_change | done..].
Qed.

Lemma new_page_calls_ok b sid tid par : calls_ok (new_page b sid tid par).
Proof.
  split; simpl.
  - apply NoDup_nil_2.
  - by intros k ?%elem_of_nil.
  - apply NoDup_nil_2.
Qed.


(** *** The close reason and the browser reference *)

Definition page_closed : string := "Page closed.".
Definition page_crashed : string := "Page crashed!".

Record session_ok (p : Page) : Prop := {
  reason_ok :
    closedReason p = None ∨ closedReason p = Some page_closed
    ∨ closedReason p = Some page_crashed;
  browser_ok : browser p = None → closedReason p ≠ None
}.

(** What a segment can do to the close reason and the browser reference. *)
Definition reason_change (l : Label) (p p' : Page) : Prop :=
  (closedReason p' = closedReason p ∧ browser p' = browser p)
  ∨ (closedReason p' = Some page_crashed ∧ browser p' = browser p)
  ∨ (l = LClose ∧ closedReason p' = Some (close_reason p) ∧ browser p' = None).

Lemma run_handler_reason h e p :
  (closedReason (run_handler h e p).1 = closedReason p
   ∨ closedReason (run_handler h e p).1 = Some page_crashed)
  ∧ browser (run_handler h e p).1 = browser p.
Proof.
  unfold run_handler, close.
  repeat (case_match; simpl; try (split; [by left | done]));
    split; try done; by right.
Qed.

Lemma run_handlers_reason hs e p :
  (closedReason (run_handlers hs e p).1 = closedReason p
   ∨ closedReason (run_handlers hs e p).1 = Some page_crashed)
  ∧ browser (run_handlers hs e p).1 = browser p.
Proof.
  revert p. induction hs as [|h hs IH]; intros p; simpl; [by split; [left|]|].
  pose proof (run_handler_reason h e p) as Hh.
  destruct (run_handler h e p) as [p1 eff1].
  pose proof (IH p1) as Hr.
  destruct (run_handlers hs e p1) as [p2 eff2]. simpl in *.
  destruct Hh as [Hh1 Hh2], Hr as [Hr1 Hr2]. split; [|congruence].
  destruct Hr1 as [Hr1|Hr1]; [|by right].
  rewrite Hr1. exact Hh1.
Qed.

Lemma send_reason m ps p :
  closedReason (send m ps p).1 = closedReason p
  ∧ browser (send m ps p).1 = browser p.
Proof. unfold send. simpl. by repeat case_match. Qed.

Lemma step_reason_change l p : reason_change l p (step env l p).1.
Proof.
  unfold reason_change.
  destruct l; simpl; try (left; apply send_reason).
  - left. unfold send_resume. by case_match.
  - left. unfold send_reject. by case_match.
  - unfold _handleMessage. destruct (matches_pending data p).
    + left. by repeat case_match.
    + unfold emit. destruct (m_event data) as [ev|]; [|by left].
      destruct (unhandled ev p); [by left|].
      pose proof (run_handlers_reason (listeners_of (event_name ev) p) ev p) as H.
      destruct (run_handlers _ ev p) as [p' eff]. simpl in *.
      destruct H as [[H|H] Hb]; [by left | right; by left].
  - right. right. done.
  - left. unfold close. by case_match.
  - by left.
  - left. unfold goto, navigate. simpl. destruct (browser p) as [b|] eqn:Hb; simpl; [|done].
    destruct (cookies b); simpl;
      match goal with |- context [send ?m ?ps ?q] =>
        pose proof (send_reason m ps q) as Hs;
        destruct (send m ps q) as [p' eff] end; simpl in *;
      destruct Hs as [-> ->]; by rewrite ?Hb.
  - left. unfold nav_resume. destruct (gotos p !! g) as [G|]; [|done].
    destruct (g_nav G), o; simpl; try done.
    + match goal with |- context [send ?m ?ps ?q] =>
        pose proof (send_reason m ps q) as Hs;
        destruct (send m ps q) as [p' eff] end; simpl in *. done.
    + by destruct (truthy_str errorText).
  - left. unfold poll. by repeat case_match.
  - left. unfold goto_resume. by repeat case_match.
  - left. unfold eval. destruct (serialize env fn); [|done].
    match goal with |- context [send ?m ?ps ?q] =>
        pose proof (send_reason m ps q) as Hs;
        destruct (send m ps q) as [p' eff] end; simpl in *. done.
  - left. unfold eval_resume. by repeat case_match.
Qed.

Lemma close_reason_cases p :
  session_ok p →
  (close_reason p = page_closed ∨ close_reason p = page_crashed)
  ∧ (∀ r, closedReason p = Some r → close_reason p = r).
Proof.
  intros [Hr _]. unfold close_reason.
  destruct Hr as [-> | [-> | ->]]; simpl; split; auto; intros r [= <-]; done.
Qed.

Lemma reason_change_ok l p p' : reason_change l p p' → session_ok p → session_ok p'.
Proof.
  intros Hc Hp. pose proof (close_reason_cases p Hp) as [Hcr _].
  destruct Hp as [Hr Hb].
  destruct Hc as [[H1 H2]|[[H1 H2]|[_ [H1 H2]]]]; split; rewrite ?H1, ?H2; auto.
  destruct Hcr as [H|H]; rewrite H; auto.
Qed.

Lemma run_session_ok t p : session_ok p → session_ok (state env t p).
Proof.
  revert p. induction t as [|l t IH]; intros p Hp; [done|].
  rewrite state_cons. apply IH. eapply reason_change_ok; [|done].
  apply step_reason_change.
Qed.

Lemma new_page_session_ok b sid tid par : session_ok (new_page b sid tid par).
Proof. split; simpl; [by left | done]. Qed.

(** A reason that is set is one of the two texts, hence truthy. *)
Lemma session_ok_truthy p r :
  session_ok p → closedReason p = Some r → truthy_str (closedReason p) = true.
Proof. intros [Hr _] Hp. rewrite Hp in *. by destruct Hr as [?|[[= ->]|[= ->]]]. Qed.

Lemma session_ok_open p :
  session_ok p → closedReason p = None → is_Some (browser p).
Proof.
  intros [_ Hb] Hr. destruct (browser p); [by eexists|]. by destruct Hb.
Qed.

(** Once a reason is set, it stays set. *)
Lemma run_stays_closed t p :
  session_ok p → is_Some (closedReason p) → is_Some (closedReason (state env t p)).
Proof.
  revert p. induction t as [|l t IH]; intros p Hp Hc; [done|].
  rewrite state_cons. apply IH.
  - eapply reason_change_ok; [apply step_reason_change | done].
  - destruct (step_reason_change l p) as [[H _]|[[H _]|[_ [H _]]]];
      rewrite H; eauto.
Qed.


(** *** Calls of a closed session *)

Lemma elem_of_resolved k v E : ESettle k (Resolved v) ∈ E → k ∈ resolved E.
Proof.
  intros Hin. unfold resolved. apply list_elem_of_omap.
  by exists (ESettle k (Resolved v)).
Qed.

Lemma elem_of_settled k o E : ESettle k o ∈ E → k ∈ settled E.
Proof.
  intros Hin. unfold settled. apply list_elem_of_omap. by exists (ESettle k o).
Qed.

Lemma resolved_app E1 E2 : resolved (E1 ++ E2) = resolved E1 ++ resolved E2.
Proof. unfold resolved. apply omap_app. Qed.

Lemma slot_change_closed l p p' eff :
  slot_change l p p' eff → truthy_str (closedReason p) = true →
  (∀ k, k ∈ outstanding p' → k ∈ outstanding p)
  ∧ (∀ k, k ∈ resolved eff → k ∈ outstanding p).
Proof.
  intros Hc Hcl. unfold outstanding.
  destruct Hc as [Ha Hcb Hn He|m Hop Ha Hcb Hn He|_ Ha Hcb Hn He Hr
                 |k m id _ Hg Ha Hcb Hn He|k m msg _ Hg Ha Hcb Hn He
                 |data id cb _ _ _ Hg Ha Hcb Hn He
                 |_ Ha Hcb Hn He Hr];
    rewrite ?Ha, ?Hcb; try congruence.
  - split; [done|]. rewrite (settled_nil_resolved _ He). by intros k ?%elem_of_nil.
  - split; [done|]. rewrite Hr. by intros k ?%elem_of_nil.
  - split.
    + intros x [[Hx _]%keys_delete_elem|Hin]%elem_of_app.
      * apply elem_of_app. by left.
      * apply list_elem_of_fmap in Hin as (cb & -> & [->|Hin]%values_set_elem).
        -- simpl. apply elem_of_app. left.
           apply JsMapFacts.get_Some_elem in Hg. apply list_elem_of_fmap.
           by exists (k, m).
        -- apply elem_of_app. right. apply list_elem_of_fmap. by exists cb.
    + rewrite (settled_nil_resolved _ He). by intros x ?%elem_of_nil.
  - split.
    + intros x [[Hx _]%keys_delete_elem|Hin]%elem_of_app;
        apply elem_of_app; [by left | by right].
    + subst eff. by intros x ?%elem_of_nil.
  - assert (cb_slot cb ∈ cb_slot <$> JsMap.values (callbacks p)) as Hcb'.
    { apply list_elem_of_fmap. exists cb. split; [done|].
      apply JsMapFacts.get_Some_elem in Hg. apply list_elem_of_fmap.
      by exists (id, cb). }
    split.
    + intros x [Hin|Hin]%elem_of_app; apply elem_of_app; [by left|right].
      eapply elem_of_sublist; [exact Hin|].
      apply fmap_sublist, values_delete_sublist.
    + subst eff. unfold resolved, response_outcome. simpl.
      destruct (m_error data); simpl; [by intros x ?%elem_of_nil|].
      intros x ->%list_elem_of_singleton. apply elem_of_app. by right.
  - split.
    + simpl. rewrite app_nil_r. intros x Hx. apply elem_of_app. by left.
    + rewrite Hr. by intros x ?%elem_of_nil.
Qed.

Lemma step_stays_truthy l p :
  session_ok p → truthy_str (closedReason p) = true →
  truthy_str (closedReason (step env l p).1) = true.
Proof.
  intros Hp Hcl. pose proof (close_reason_cases p Hp) as [Hcr _].
  destruct (step_reason_change l p) as [[H _]|[[H _]|[_ [H _]]]]; rewrite H;
    [done | done |]. by destruct Hcr as [-> | ->].
Qed.

Lemma run_closed_resolved t p :
  session_ok p → truthy_str (closedReason p) = true →
  ∀ k, k ∈ resolved (effects env t p) → k ∈ outstanding p.
Proof.
  revert p. induction t as [|l t IH]; intros p Hp Hcl k.
  - by intros ?%elem_of_nil.
  - rewrite effects_cons, resolved_app.
    destruct (slot_change_closed l p _ _ (step_slot_change l p) Hcl) as [Ho Hr].
    intros [Hin|Hin]%elem_of_app; [by apply Hr|].
    apply Ho. eapply IH; [| |exact Hin].
    + eapply reason_change_ok; [apply step_reason_change | done].
    + by apply step_stays_truthy.
Qed.


Lemma settled_nil_not_elem k o E : settled E = [] → ESettle k o ∉ E.
Proof. intros HE Hin%elem_of_settled. rewrite HE in Hin. by apply elem_of_nil in Hin. Qed.

Lemma reachable_ok b sid tid par t :
  calls_ok (state env t (new_page b sid tid par))
  ∧ session_ok (state env t (new_page b sid tid par)).
Proof.
  split; [apply run_calls_ok, new_page_calls_ok
         | apply run_session_ok, new_page_session_ok].
Qed.

Lemma send_closed method params p reason :
  session_ok p → closedReason p = Some reason →
  send method params p =
    (set_next_slot (S (next_slot p)) p,
     [ESettle (next_slot p) (Rejected (protocol_error method reason))]).
Proof.
  intros Hp Hr. unfold send. simpl.
  rewrite (session_ok_truthy p reason Hp Hr). by rewrite Hr.
Qed.

Lemma send_open method params p :
  session_ok p → closedReason p = None →
  send method params p =
    (set_awaiting (awaiting p ++ [(next_slot p, method)])
       (set_next_slot (S (next_slot p)) p),
     [ESent (sessionId p) method params]).
Proof.
  intros Hp Hr. unfold send. simpl. rewrite Hr. simpl.
  by destruct (session_ok_open p Hp Hr) as [b ->].
Qed.

Lemma slot_change_slots l p p' eff :
  slot_change l p p' eff → calls_ok p → calls_ok p' →
  (next_slot p ≤ next_slot p')%nat
  ∧ settled eff ++ outstanding p'
    ⊆+ outstanding p ++ seq (next_slot p) (next_slot p' - next_slot p).
Proof.
  intros Hc [Hnd Hb Hk] [Hnd' _ _]. unfold outstanding in *.
  destruct Hc as [Ha Hcb Hn He|m _ Ha Hcb Hn He|_ Ha Hcb Hn He _
                 |k m id Hreg Hg Ha Hcb Hn He|k m msg _ Hg Ha Hcb Hn He
                 |data id cb _ _ _ Hg Ha Hcb Hn He
                 |_ Ha Hcb Hn He _];
    rewrite ?Hn, ?He; (split; [lia|]).
  - rewrite Ha, Hcb, Nat.sub_diag. simpl. by rewrite app_nil_r.
  - rewrite Ha, Hcb. replace (S (next_slot p) - next_slot p)%nat with 1%nat by lia.
    simpl. apply Permutation_submseteq. rewrite fmap_app. simpl.
    solve_Permutation.
  - rewrite Ha, Hcb. replace (S (next_slot p) - next_slot p)%nat with 1%nat by lia.
    simpl. apply Permutation_submseteq. solve_Permutation.
  - rewrite Nat.sub_diag. simpl. rewrite app_nil_r.
    apply NoDup_submseteq; [done|].
    rewrite Ha, Hcb. intros x [[Hx _]%keys_delete_elem|Hin]%elem_of_app.
    + apply elem_of_app. by left.
    + apply list_elem_of_fmap in Hin as (cb & -> & [->|Hin]%values_set_elem).
      * simpl. apply elem_of_app. left.
        apply JsMapFacts.get_Some_elem in Hg. apply list_elem_of_fmap.
        by exists (k, m).
      * apply elem_of_app. right. apply list_elem_of_fmap. by exists cb.
  - rewrite Nat.sub_diag, Ha, Hcb. simpl. rewrite app_nil_r.
    apply Permutation_submseteq.
    apply NoDup_app in Hnd as (HA & _ & _).
    destruct (JsMapFacts.delete_split k m (awaiting p) HA Hg)
      as (A1 & A2 & HA12 & ->).
    rewrite HA12. rewrite !fmap_app. simpl. solve_Permutation.
  - rewrite Nat.sub_diag, Ha, Hcb. subst eff. simpl. rewrite app_nil_r.
    apply Permutation_submseteq.
    destruct (JsMapFacts.delete_split id cb (callbacks p) Hk Hg)
      as (C1 & C2 & HC12 & ->).
    rewrite HC12. unfold JsMap.values. rewrite !fmap_app. simpl.
    rewrite ?fmap_app. simpl. solve_Permutation.
  - rewrite Nat.sub_diag, Ha, Hcb. simpl. rewrite !app_nil_r.
    apply Permutation_submseteq. solve_Permutation.
Qed.

Lemma step_slots l p :
  calls_ok p →
  (next_slot p ≤ next_slot (step env l p).1)%nat
  ∧ settled (step env l p).2 ++ outstanding (step env l p).1
    ⊆+ outstanding p
       ++ seq (next_slot p) (next_slot (step env l p).1 - next_slot p).
Proof.
  intros Hp. eapply slot_change_slots; [apply step_slot_change | done |].
  eapply slot_change_ok; [apply step_slot_change | done].
Qed.

Lemma submseteq_NoDup {A} (l k : list A) : l ⊆+ k → NoDup k → NoDup l.
Proof.
  intros (l2 & Hsub & Hperm)%submseteq_sublist_l Hk.
  eapply sublist_NoDup; [|exact Hsub]. by rewrite Hperm.
Qed.

Lemma run_slots t p E :
  calls_ok p →
  settled E ++ outstanding p ⊆+ seq 0 (next_slot p) →
  settled (E ++ effects env t p) ++ outstanding (state env t p)
  ⊆+ seq 0 (next_slot (state env t p)).
Proof.
  revert p E. induction t as [|l t IH]; intros p E Hp HE.
  - unfold effects. simpl. by rewrite app_nil_r.
  - rewrite state_cons, effects_cons, (assoc_L (++)).
    assert (calls_ok (step env l p).1) as Hp'.
    { eapply slot_change_ok; [apply step_slot_change | done]. }
    apply IH; [done|].
    destruct (step_slots l p Hp) as [Hle Hs].
    rewrite settled_app, <-(assoc_L (++)).
    replace (next_slot (step env l p).1)
      with (next_slot p + (next_slot (step env l p).1 - next_slot p))%nat by lia.
    rewrite seq_app. simpl.
    etrans; [apply submseteq_skips_l, Hs|].
    rewrite (assoc_L (++)). by apply submseteq_skips_r.
Qed.


(** What a [send] settles at once is its own promise, on a closed session. *)
Lemma send_settles method params p q k o :
  session_ok p →
  closedReason q = closedReason p → browser q = browser p →
  next_slot q = next_slot p →
  ESettle k o ∈ (send method params q).2 →
  k = next_slot p
  ∧ ∃ reason, closedReason p = Some reason
              ∧ o = Rejected (protocol_error method reason).
Proof.
  intros Hs Hr Hb Hn. unfold send. simpl. rewrite Hr, Hb, Hn.
  destruct (closedReason p) as [r|] eqn:Hcr.
  - pose proof (session_ok_truthy p r Hs Hcr) as Ht. rewrite Hcr in Ht.
    rewrite Ht. simpl. intros [= -> ->]%list_elem_of_singleton. eauto.
  - simpl. destruct (session_ok_open p Hs Hcr) as [b' ->].
    by intros ?%list_elem_of_singleton.
Qed.

(** The ways a promise of [send] is settled. *)
Inductive settles (l : Label) (p : Page) (k : nat) (o : Outcome) : Prop :=
| by_response data id callback :
    l = LMessage data → m_id data = Some id → id ≠ 0 →
    JsMap.get id (callbacks p) = Some callback → cb_slot callback = k →
    o = response_outcome data callback →
    settles l p k o
| by_close callback :
    l = LClose → callback ∈ JsMap.values (callbacks p) →
    cb_slot callback = k →
    o = Rejected (protocol_error (cb_method callback) (close_reason p)) →
    settles l p k o
| by_transport message method :
    l = LSendReject k message → JsMap.get k (awaiting p) = Some method →
    o = Rejected (Error message) →
    settles l p k o
| by_refusal reason method :
    k = next_slot p → closedReason p = Some reason →
    o = Rejected (protocol_error method reason) →
    settles l p k o.

Lemma step_settles l p k o :
  session_ok p → ESettle k o ∈ (step env l p).2 → settles l p k o.
Proof.
  intros Hs. destruct l; simpl.
  - intros Hin.
    destruct (send_settles method params p p k o Hs) as (-> & r & Hr & ->);
      [done..|]. by eapply by_refusal.
  - unfold send_resume. case_match; by intros ?%elem_of_nil.
  - unfold send_reject. destruct (JsMap.get k0 (awaiting p)) eqn:Hg;
      [|by intros ?%elem_of_nil].
    intros [= -> ->]%list_elem_of_singleton. by eapply by_transport.
  - unfold _handleMessage. destruct (matches_pending data p) eqn:Hm.
    + unfold matches_pending in Hm.
      destruct (m_id data) as [id|] eqn:Hid; [|done].
      apply andb_prop in Hm as [Hz _].
      assert (id ≠ 0) by (intros ->; done).
      destruct (JsMap.get id (callbacks p)) as [cb|] eqn:Hg;
        [|by intros ?%elem_of_nil].
      intros Hin.
      assert (k = cb_slot cb ∧ o = response_outcome data cb) as [-> ->].
      { unfold response_outcome. destruct (m_error data); simpl in Hin;
          by apply list_elem_of_singleton in Hin as [= -> ->]. }
      by eapply (by_response _ _ _ _ data id cb).
    + destruct (emit_calls (m_event data) p) as (_ & _ & _ & _ & He & _).
      intros Hin. by apply settled_nil_not_elem in Hin.
  - unfold _handleClose. simpl.
    intros (cb & [= -> ->] & Hin)%list_elem_of_fmap. by eapply by_close.
  - unfold close. destruct (browser p); simpl;
      [|by intros ?%elem_of_nil].
    intros [?|Hin]%elem_of_cons; [done|].
    by apply list_elem_of_singleton in Hin.
  - by intros ?%elem_of_nil.
  - unfold goto, navigate. simpl. destruct (browser p) as [b|] eqn:Hb; simpl.
    + destruct (cookies b); simpl;
        match goal with |- context [send ?m ?ps ?q] =>
          pose proof (send_settles m ps p q k o Hs) as Hsend;
          destruct (send m ps q) as [p' eff] end; simpl in *;
        intros [?|Hin]%elem_of_cons; try done;
        destruct Hsend as (-> & r & Hr & ->); try done;
        by eapply by_refusal.
    + intros [?|?%elem_of_nil]%elem_of_cons; done.
  - unfold nav_resume. destruct (gotos p !! g) as [G|]; [|by intros ?%elem_of_nil].
    destruct (g_nav G), o0; simpl; try by intros ?%elem_of_nil.
    + match goal with |- context [send ?m ?ps ?q] =>
          pose proof (send_settles m ps p q k o Hs) as Hsend;
          destruct (send m ps q) as [p' eff] end; simpl in *.
      intros Hin. destruct Hsend as (-> & r & Hr & ->); try done.
      by eapply by_refusal.
    + destruct (truthy_str errorText); by intros ?%elem_of_nil.
  - unfold poll. repeat case_match; by intros ?%elem_of_nil.
  - unfold goto_resume. repeat case_match; simpl;
      try (by intros ?%elem_of_nil).
    by intros ?%list_elem_of_singleton.
  - unfold eval. destruct (serialize env fn); [|by intros ?%elem_of_nil].
    match goal with |- context [send ?m ?ps ?q] =>
          pose proof (send_settles m ps p q k o Hs) as Hsend;
          destruct (send m ps q) as [p' eff] end; simpl in *.
    intros Hin. destruct Hsend as (-> & r & Hr & ->); try done.
    by eapply by_refusal.
  - unfold eval_resume. repeat case_match; by intros ?%elem_of_nil.
Qed.

(** C3, amended: on a session whose [closedReason] is set, [send] fails at
    once with the protocol error that carries the method and that reason,
    and sends nothing; on an open session it sends one message and leaves
    its promise pending.  A promise of [send] is then settled in one of
    four ways only: by [_handleMessage] of a response whose id is not zero
    and is the id the call is pending under, with the outcome the response
    gives; by [_handleClose], which rejects a pending call with the close
    reason; by the rejection of the transport's own send, with its error;
    or at once, when the call was issued on a closed session.  (The
    amendment: a response is not the only thing that settles the promise of
    a call issued on an open session.) *)
Theorem send_fails_closed_else_settles_on_response b sid tid par t :
  let p := state env t (new_page b sid tid par) in
  (∀ method params reason,
     closedReason p = Some reason →
     send method params p =
       (set_next_slot (S (next_slot p)) p,
        [ESettle (next_slot p)
           (Rejected (Error ("Protocol error (" +:+ method +:+ "): "
                             +:+ reason)))]))
  ∧ (∀ method params,
       closedReason p = None →
       send method params p =
         (set_awaiting (awaiting p ++ [(next_slot p, method)])
            (set_next_slot (S (next_slot p)) p),
          [ESent (sessionId p) method params]))
  ∧ (∀ l k o,
       ESettle k o ∈ (step env l p).2 →
       (∃ data id callback,
          l = LMessage data ∧ m_id data = Some id ∧ id ≠ 0 ∧
          JsMap.get id (callbacks p) = Some callback ∧
          cb_slot callback = k ∧ o = response_outcome data callback)
       ∨ (∃ callback,
            l = LClose ∧ callback ∈ JsMap.values (callbacks p) ∧
            cb_slot callback = k ∧
            o = Rejected (protocol_error (cb_method callback) (close_reason p)))
       ∨ (∃ message method,
            l = LSendReject k message ∧
            JsMap.get k (awaiting p) = Some method ∧
            o = Rejected (Error message))
       ∨ (∃ reason method,
            k = next_slot p ∧ closedReason p = Some reason ∧
            o = Rejected (protocol_error method reason))).
Proof.
  intros p. destruct (reachable_ok b sid tid par t) as [Hc Hs]. fold p in Hc, Hs.
  split_and!.
  - intros. by apply send_closed.
  - intros. by apply send_open.
  - intros l k o Hin.
    destruct (step_settles l p k o Hs Hin)
      as [data id cb ? ? ? ? ? ?|cb ? ? ? ?|message method ? ? ?
         |reason method ? ? ?].
    + left. by exists data, id, cb.
    + right. left. by exists cb.
    + right. right. left. by exists message, method.
    + right. right. right. by exists reason, method.
Qed.

(** C1, amended: a call never gets two resolutions, and a call that was
    settled is no longer pending, whatever ids the transport hands out;
    and none is lost, provided the transport hands out ids that no pending
    call holds: then every promise [send] has returned was settled once or
    is still outstanding.  An inbound message whose id is not zero and is
    the id of a pending call settles that call, with the result or with the
    protocol error made of the remote message and its optional data, and
    removes it; every other message, also one with id zero, is emitted as
    an event and leaves the pending calls alone. *)
Theorem inbound_message_settles_pending_call_once b sid tid par t :
  let p := state env t (new_page b sid tid par) in
  let E := effects env t (new_page b sid tid par) in
  NoDup (settled E)
  ∧ (∀ k, k ∈ settled E → k ∉ outstanding p)
  ∧ (∀ k, k ∈ settled E ++ outstanding p → (k < next_slot p)%nat)
  ∧ (fresh_ids t (new_page b sid tid par) →
     settled E ++ outstanding p ≡ₚ seq 0 (next_slot p))
  ∧ (∀ data id callback,
       m_id data = Some id → id ≠ 0 →
       JsMap.get id (callbacks p) = Some callback →
       _handleMessage data p =
         (set_callbacks (JsMap.delete id (callbacks p)) p,
          [ESettle (cb_slot callback)
             match m_error data with
             | Some e =>
                 Rejected
                   (Error ("Protocol error (" +:+ cb_method callback +:+ "): "
                           +:+ error_message e
                           +:+ match error_data e with
                               | Some d => ": " +:+ d
                               | None => ""
                               end))
             | None => Resolved (m_result data)
             end])
       ∧ JsMap.get id (callbacks (_handleMessage data p).1) = None)
  ∧ (∀ data,
       m_id data = None ∨ m_id data = Some 0
       ∨ (∃ id, m_id data = Some id ∧ JsMap.get id (callbacks p) = None) →
       _handleMessage data p = emit (m_event data) p
       ∧ callbacks (_handleMessage data p).1 = callbacks p
       ∧ settled (_handleMessage data p).2 = []
       ∧ head (_handleMessage data p).2 = Some (EEmit (m_event data))).
Proof.
  intros p E. destruct (reachable_ok b sid tid par t) as [Hc Hs]. fold p in Hc, Hs.
  assert (settled E ++ outstanding p ⊆+ seq 0 (next_slot p)) as Hsub.
  { apply (run_slots t (new_page b sid tid par) []);
      [apply new_page_calls_ok | done]. }
  assert (NoDup (settled E ++ outstanding p)) as Hnd.
  { eapply submseteq_NoDup; [exact Hsub | apply NoDup_seq]. }
  apply NoDup_app in Hnd as (Hnd1 & Hdisj & _).
  split_and!.
  - done.
  - done.
  - intros k Hk. eapply elem_of_submseteq in Hk; [|exact Hsub].
    apply elem_of_seq in Hk. lia.
  - intros Hf. apply (run_accounted t (new_page b sid tid par) []);
      [apply new_page_calls_ok | done | by unfold accounted].
  - intros data id cb Hid Hz Hg.
    assert (matches_pending data p = true) as Hm.
    { unfold matches_pending, JsMap.has. rewrite Hid, Hg.
      apply andb_true_intro. split; [|done].
      apply negb_true_iff, Z.eqb_neq. done. }
    unfold _handleMessage. rewrite Hm, Hid, Hg. split.
    + by destruct (m_error data).
    + destruct (m_error data); simpl; apply JsMapFacts.get_delete_eq.
  - intros data Hd.
    assert (matches_pending data p = false) as Hm.
    { unfold matches_pending, JsMap.has.
      destruct Hd as [->|[->|(id & -> & ->)]]; [done..|apply andb_false_r]. }
    unfold _handleMessage. rewrite Hm.
    destruct (emit_calls (m_event data) p) as (_ & Hcb & _ & _ & Hst & _).
    split_and!; [done..|].
    unfold emit. destruct (m_event data) as [ev|]; [|done].
    destruct (unhandled ev p); [done|]. by destruct (run_handlers _ _ _).
Qed.


Lemma handleClose_store (pages : gmap string Page) s p pid q :
  pages !! s = Some p → parent p = Some pid → pid ≠ s → pages !! pid = Some q →
  ((Sessions._handleClose s pages).1) !! s = Some (_handleClose p).1
  ∧ (Sessions._handleClose s pages).2 = (_handleClose p).2
  ∧ ∃ q', ((Sessions._handleClose s pages).1) !! pid = Some q'
          ∧ (s ∉ frames q')
          ∧ (∀ x, x ≠ s → x ∈ frames q → x ∈ frames q').
Proof.
  intros Hs Hpar Hne Hq. unfold Sessions._handleClose. rewrite Hs.
  destruct (_handleClose p) as [p' eff] eqn:Hc. rewrite Hpar. simpl.
  split_and!.
  - rewrite lookup_alter_ne by done. apply lookup_insert_eq.
  - done.
  - exists (set_frames (Sessions.frames_delete s (frames q)) q). split_and!.
    + rewrite lookup_alter_eq. rewrite lookup_insert_ne by done. by rewrite Hq.
    + simpl. unfold Sessions.frames_delete. intros [Hx _]%list_elem_of_filter.
      by apply Hx.
    + simpl. intros x Hx Hin. unfold Sessions.frames_delete.
      apply list_elem_of_filter. by split.
Qed.

(** C2, amended: [_handleClose] rejects every pending call, each once (the
    calls have different promises), with the protocol error that embeds the
    call's method and the close reason; when it returns the pending map is
    empty, the browser reference is dropped and the reason is set; the
    session is removed from its parent's [frames]; and from then on the
    session stays closed, every [send] is rejected at once without sending,
    and the only promises that can still be fulfilled belong to calls that
    were issued before the close and were waiting for their id.  (The
    amendment: the pending map is empty when [_handleClose] returns, not in
    every state in which [closedReason] is set.) *)
Theorem close_rejects_pending_calls_once b sid tid par t :
  let p := state env t (new_page b sid tid par) in
  let reason := close_reason p in
  let p' := (_handleClose p).1 in
  (_handleClose p).2 =
    map (λ callback,
           ESettle (cb_slot callback)
             (Rejected (Error ("Protocol error (" +:+ cb_method callback
                               +:+ "): " +:+ reason))))
        (JsMap.values (callbacks p))
  ∧ NoDup (cb_slot <$> JsMap.values (callbacks p))
  ∧ (reason = "Page closed." ∨ reason = "Page crashed!")
  ∧ (∀ r, closedReason p = Some r → reason = r)
  ∧ callbacks p' = [] ∧ browser p' = None ∧ closedReason p' = Some reason
  ∧ (∀ (pages : gmap string Page) s pid q,
       pages !! s = Some p → parent p = Some pid → pid ≠ s →
       pages !! pid = Some q →
       ((Sessions._handleClose s pages).1) !! s = Some p'
       ∧ (Sessions._handleClose s pages).2 = (_handleClose p).2
       ∧ ∃ q', ((Sessions._handleClose s pages).1) !! pid = Some q'
               ∧ (s ∉ frames q'))
  ∧ (∀ t2,
       let q := state env t2 p' in
       (∃ r, closedReason q = Some r ∧
             ∀ method params,
               send method params q =
                 (set_next_slot (S (next_slot q)) q,
                  [ESettle (next_slot q)
                     (Rejected (protocol_error method r))]))
       ∧ (∀ k v, ESettle k (Resolved v) ∈ effects env t2 p' →
                 k ∈ (awaiting p).*1)).
Proof.
  intros p reason p'.
  destruct (reachable_ok b sid tid par t) as [Hc Hs]. fold p in Hc, Hs.
  destruct (close_reason_cases p Hs) as [Hcases Hsame].
  assert (session_ok p') as Hs'.
  { eapply (reason_change_ok LClose p); [|done]. apply (step_reason_change LClose). }
  assert (truthy_str (closedReason p') = true) as Htr.
  { unfold p'. simpl. by destruct Hcases as [-> | ->]. }
  split_and!; try done.
  - destruct Hc as [Hnd _ _]. by apply NoDup_app in Hnd as (_ & _ & ?).
  - intros pages s pid q Hs1 Hpar Hne Hq.
    destruct (handleClose_store pages s p pid q Hs1 Hpar Hne Hq)
      as (H1 & H2 & q' & H3 & H4 & _).
    split_and!; [done..|]. by exists q'.
  - intros t2 q. split.
    + assert (is_Some (closedReason q)) as [r Hr].
      { apply run_stays_closed; [done|]. by eexists. }
      exists r. split; [done|]. intros method params. apply send_closed; [|done].
      by apply run_session_ok.
    + intros k v Hin%elem_of_resolved.
      apply (run_closed_resolved t2 p' Hs' Htr) in Hin.
      unfold outstanding, p' in Hin. simpl in Hin. by rewrite app_nil_r in Hin.
Qed.


(** *** Navigation watchers *)

Definition watcher1 (g : nat) : string * Handler :=
  ("Page.frameNavigated", H_FrameNavigated g).
Definition watcher2 (g : nat) : string * Handler :=
  ("Page.lifecycleEvent", H_Lifecycle g).

Definition navigation_failed (m : string) : string := "Navigation failed: " +:+ m.

(** What holds of one activation of [goto], given the listeners. *)
Record goto_entry_ok (ls : list (string * Handler)) (g : nat) (G : Goto)
  : Prop := {
  fin1_detached : g_finished1 G = true → watcher1 g ∉ ls;
  fin2_detached : g_finished2 G = true → watcher2 g ∉ ls;
  wait_finished :
    g_waitFor G = Some Ok → g_finished1 G = true ∧ g_finished2 G = true;
  all_waited : g_all G = Some Ok → g_waitFor G = Some Ok;
  ok_all : g_result G = Some Ok → g_all G = Some Ok;
  fail_all : ∀ m, g_result G = Some (Fail m) →
    (∃ m', m = navigation_failed m' ∧ g_all G = Some (Fail m'))
    ∧ (watcher1 g ∉ ls) ∧ (watcher2 g ∉ ls)
}.

Record nav_ok (p : Page) : Prop := {
  listeners_nodup : NoDup (listeners p);
  watchers_bound : ∀ n g,
    (n, H_FrameNavigated g) ∈ listeners p ∨ (n, H_Lifecycle g) ∈ listeners p →
    (g < length (gotos p))%nat;
  gotos_ok : ∀ g G, gotos p !! g = Some G → goto_entry_ok (listeners p) g G
}.

Lemma entry_ok_sub ls ls' g G :
  (∀ x, x ∈ ls' → x ∈ ls) → goto_entry_ok ls g G → goto_entry_ok ls' g G.
Proof.
  intros Hsub [H1 H2 H3 H4 H5 H6]. split; try done.
  - intros HF Hin. apply (H1 HF). auto.
  - intros HF Hin. apply (H2 HF). auto.
  - intros m Hm. destruct (H6 m Hm) as (? & Ha & Hb).
    split_and!; [done|..]; intros Hin; [apply Ha|apply Hb]; auto.
Qed.

Lemma nav_ok_frame p q :
  listeners q = listeners p → gotos q = gotos p → nav_ok p → nav_ok q.
Proof. intros Hl Hg [H1 H2 H3]. split; rewrite ?Hl, ?Hg; done. Qed.

Lemma nav_ok_update g f p :
  nav_ok p →
  (∀ G, gotos p !! g = Some G →
        goto_entry_ok (listeners p) g G → goto_entry_ok (listeners p) g (f G)) →
  nav_ok (update_goto g f p).
Proof.
  intros [H1 H2 H3] Hf. split; simpl; [done| |].
  - intros n g' Hin. rewrite length_alter. by eapply H2.
  - intros g' G'. destruct (decide (g = g')) as [<-|Hne].
    + rewrite list_lookup_alter_eq.
      destruct (gotos p !! g) as [G|] eqn:HG; [|done].
      intros [= <-]. auto.
    + rewrite list_lookup_alter_ne by done. apply H3.
Qed.

Lemma nav_ok_off n h p : nav_ok p → nav_ok (off n h p).
Proof.
  intros [H1 H2 H3]. split; simpl.
  - by apply remove_last_NoDup.
  - intros n' g [Hin|Hin]; apply (H2 n' g); [left|right];
      by eapply remove_last_elem.
  - intros g G HG. eapply entry_ok_sub; [|by apply H3].
    intros x. apply remove_last_elem.
Qed.

Lemma off_gone n h p : nav_ok p → (n, h) ∉ listeners (off n h p).
Proof. intros [H1 _ _]. simpl. by apply remove_last_gone. Qed.

Lemma off_keeps_out n h x p : x ∉ listeners p → x ∉ listeners (off n h p).
Proof. intros Hx Hin. apply Hx. simpl in Hin. by eapply remove_last_elem. Qed.

Lemma nav_ok_finish1 g p :
  nav_ok p →
  nav_ok (off "Page.frameNavigated" (H_FrameNavigated g)
            (set_gotos (alter (set_finished1 true) g (gotos p)) p)).
Proof.
  intros Hp. pose proof Hp as [H1 H2 H3]. split; simpl.
  - by apply remove_last_NoDup.
  - intros n' g' [Hin|Hin]; rewrite length_alter; apply (H2 n' g');
      [left|right]; by eapply remove_last_elem.
  - intros g' G'. destruct (decide (g = g')) as [<-|Hne].
    + rewrite list_lookup_alter_eq.
      destruct (gotos p !! g) as [G|] eqn:HG; [|done]. intros [= <-].
      destruct (H3 g G HG) as [F1 F2 F3 F4 F5 F6].
      assert (∀ x, x ∉ listeners p →
                   x ∉ remove_last (watcher1 g) (listeners p)) as Hout.
      { intros x Hx Hin. apply Hx. by eapply remove_last_elem. }
      split; simpl; auto.
      * intros _. by apply remove_last_gone.
      * intros HF. destruct (F3 HF). done.
      * intros m Hm. destruct (F6 m Hm) as (? & ? & ?). auto.
    + rewrite list_lookup_alter_ne by done. intros HG.
      eapply entry_ok_sub; [|by apply H3]. intros x. apply remove_last_elem.
Qed.

Lemma nav_ok_finish2 g p :
  nav_ok p →
  nav_ok (off "Page.lifecycleEvent" (H_Lifecycle g)
            (set_gotos (alter (set_finished2 true) g (gotos p)) p)).
Proof.
  intros Hp. pose proof Hp as [H1 H2 H3]. split; simpl.
  - by apply remove_last_NoDup.
  - intros n' g' [Hin|Hin]; rewrite length_alter; apply (H2 n' g');
      [left|right]; by eapply remove_last_elem.
  - intros g' G'. destruct (decide (g = g')) as [<-|Hne].
    + rewrite list_lookup_alter_eq.
      destruct (gotos p !! g) as [G|] eqn:HG; [|done]. intros [= <-].
      destruct (H3 g G HG) as [F1 F2 F3 F4 F5 F6].
      assert (∀ x, x ∉ listeners p →
                   x ∉ remove_last (watcher2 g) (listeners p)) as Hout.
      { intros x Hx Hin. apply Hx. by eapply remove_last_elem. }
      split; simpl; auto.
      * intros _. by apply remove_last_gone.
      * intros HF. destruct (F3 HF). done.
      * intros m Hm. destruct (F6 m Hm) as (? & ? & ?). auto.
    + rewrite list_lookup_alter_ne by done. intros HG.
      eapply entry_ok_sub; [|by apply H3]. intros x. apply remove_last_elem.
Qed.

Lemma run_handler_nav_ok h e p : nav_ok p → nav_ok (run_handler h e p).1.
Proof.
  intros Hp. unfold run_handler, close.
  repeat (case_match; simpl; try done);
    first [ by apply nav_ok_finish1 | by apply nav_ok_finish2
          | by eapply nav_ok_frame; [| |exact Hp] ].
Qed.

Lemma run_handlers_nav_ok hs e p : nav_ok p → nav_ok (run_handlers hs e p).1.
Proof.
  revert p. induction hs as [|h hs IH]; intros p Hp; simpl; [done|].
  pose proof (run_handler_nav_ok h e p Hp) as H1.
  destruct (run_handler h e p) as [p1 eff1].
  pose proof (IH p1 H1) as H2.
  by destruct (run_handlers hs e p1) as [p2 eff2].
Qed.

Lemma send_nav m ps p :
  listeners (send m ps p).1 = listeners p ∧ gotos (send m ps p).1 = gotos p.
Proof. unfold send. simpl. by repeat case_match. Qed.

Lemma entry_ok_set_nav ls g pc G :
  goto_entry_ok ls g G → goto_entry_ok ls g (set_nav pc G).
Proof. intros [? ? ? ? ? ?]. by split. Qed.

Ltac entry_fields :=
  split; simpl;
  repeat match goal with
         | |- context [match ?x with _ => _ end] => destruct x eqn:?; simpl
         end;
  try done; try congruence; auto;
  try (match goal with H : g_all _ = _ |- _ => rewrite H end; done).

Lemma entry_ok_settle_navigate ls g d G :
  goto_entry_ok ls g G → goto_entry_ok ls g (settle_navigate d G).
Proof.
  intros [F1 F2 F3 F4 F5 F6]. unfold settle_navigate, all_settle. simpl.
  entry_fields.
  all: try (intros m0 Hm; destruct (F6 m0 Hm) as ((m' & ? & ?) & ? & ?);
            congruence).
  all: try (intros; exfalso; congruence).
  all: try (intros HF; specialize (F5 HF); congruence).
Qed.

Lemma entry_ok_settle_waitFor ls g d G :
  (d = Ok → g_finished1 G = true ∧ g_finished2 G = true) →
  g_waitFor G = None →
  goto_entry_ok ls g G → goto_entry_ok ls g (settle_waitFor d G).
Proof.
  intros Hd Hw [F1 F2 F3 F4 F5 F6]. unfold settle_waitFor, all_settle. simpl.
  entry_fields.
  all: try (intros m0 Hm; destruct (F6 m0 Hm) as ((m' & ? & ?) & ? & ?);
            congruence).
  all: try (intros [= ->]; auto).
  all: try (intros; exfalso; congruence).
  all: try (intros HF; specialize (F5 HF); congruence).
  all: try (intros HF; specialize (F4 HF); congruence).
  all: try (match goal with H : g_all _ = _ |- _ => rewrite H end;
            intros HF; specialize (F4 HF); congruence).
Qed.

Lemma nav_ok_new G0 p :
  g_finished1 G0 = false → g_finished2 G0 = false → g_waitFor G0 = None →
  g_all G0 = None → g_result G0 = None →
  nav_ok p →
  nav_ok (on "Page.lifecycleEvent" (H_Lifecycle (length (gotos p)))
            (on "Page.frameNavigated" (H_FrameNavigated (length (gotos p)))
               (set_gotos (gotos p ++ [G0]) p))).
Proof.
  intros E1 E2 E3 E4 E5 [H1 H2 H3]. set (g := length (gotos p)).
  assert (∀ n, (n, H_FrameNavigated g) ∉ listeners p) as Hw1.
  { intros n Hin. assert (g < length (gotos p))%nat; [|unfold g in *; lia].
    apply (H2 n). by left. }
  assert (∀ n, (n, H_Lifecycle g) ∉ listeners p) as Hw2.
  { intros n Hin. assert (g < length (gotos p))%nat; [|unfold g in *; lia].
    apply (H2 n). by right. }
  split; simpl.
  - rewrite <-(assoc_L (++)). simpl. apply NoDup_app. split_and!; [done| |].
    + intros x Hx [->|[->|?%elem_of_nil]%elem_of_cons]%elem_of_cons;
        [by eapply Hw1 | by eapply Hw2 | done].
    + apply NoDup_cons. split; [|apply NoDup_singleton].
      intros [=]%list_elem_of_singleton.
  - intros n g'. rewrite length_app. simpl. fold g.
    rewrite <-(assoc_L (++)). simpl.
    intros [[Hin|Hin]%elem_of_app|[Hin|Hin]%elem_of_app].
    + assert (g' < length (gotos p))%nat by (apply (H2 n); by left). lia.
    + apply elem_of_cons in Hin as [[= -> ->]|Hin]; [lia|].
      apply list_elem_of_singleton in Hin. done.
    + assert (g' < length (gotos p))%nat by (apply (H2 n); by right). lia.
    + apply elem_of_cons in Hin as [[=]|Hin].
      apply list_elem_of_singleton in Hin as [= -> ->]. lia.
  - intros g' G' HG. rewrite <-(assoc_L (++)). simpl.
    apply lookup_app_Some in HG as [HG|[Hge HG]].
    + pose proof (lookup_lt_Some _ _ _ HG) as Hlt.
      destruct (H3 g' G' HG) as [F1 F2 F3 F4 F5 F6].
      assert (∀ x, x ∉ listeners p → x ∈ [watcher1 g; watcher2 g] → False
                   → False) as _ by done.
      assert (watcher1 g' ∉ [watcher1 g; watcher2 g]) as N1.
      { intros [[= ?]|[[=]|?%elem_of_nil]%elem_of_cons]%elem_of_cons;
          [unfold g in *; lia | done]. }
      assert (watcher2 g' ∉ [watcher1 g; watcher2 g]) as N2.
      { intros [[=]|[[= ?]|?%elem_of_nil]%elem_of_cons]%elem_of_cons;
          [unfold g in *; lia | done]. }
      split; auto.
      * intros HF [Hin|Hin]%elem_of_app; [by apply F1 | by apply N1].
      * intros HF [Hin|Hin]%elem_of_app; [by apply F2 | by apply N2].
      * intros m Hm. destruct (F6 m Hm) as (? & Ha & Hb).
        split_and!; [done| |].
        -- intros [Hin|Hin]%elem_of_app; [by apply Ha | by apply N1].
        -- intros [Hin|Hin]%elem_of_app; [by apply Hb | by apply N2].
    + destruct (g' - length (gotos p))%nat; simpl in HG; [|done].
      injection HG as <-. split; congruence.
Qed.

Ltac framed Hp :=
  simpl; first [exact Hp | refine (nav_ok_frame _ _ _ _ Hp); done].

Lemma step_nav_ok l p : nav_ok p → nav_ok (step env l p).1.
Proof.
  intros Hp. destruct l; simpl.
  - refine (nav_ok_frame _ _ _ _ Hp); apply send_nav.
  - unfold send_resume. case_match; framed Hp.
  - unfold send_reject. case_match; framed Hp.
  - unfold _handleMessage. destruct (matches_pending data p).
    + repeat case_match; framed Hp.
    + unfold emit. destruct (m_event data) as [ev|]; [|done].
      destruct (unhandled ev p); [done|].
      pose proof (run_handlers_nav_ok (listeners_of (event_name ev) p) ev p Hp).
      by destruct (run_handlers _ ev p).
  - framed Hp.
  - unfold close. case_match; framed Hp.
  - framed Hp.
  - unfold goto.
    match goal with |- context [navigate _ ?u ?g ?x] =>
      set (q := x); assert (nav_ok q) as Hq by (by apply nav_ok_new);
      clearbody q end.
    unfold navigate. destruct (browser q) as [b|]; simpl.
    + destruct (cookies b); simpl;
        match goal with |- context [send ?m ?ps ?q] =>
          pose proof (send_nav m ps q) as [Hl Hg];
          destruct (send m ps q) as [q' eff] end; simpl in *;
        (apply nav_ok_update; [by eapply nav_ok_frame|]);
        intros; by apply entry_ok_set_nav.
    + apply nav_ok_update; [done|]. intros. by apply entry_ok_settle_navigate.
  - unfold nav_resume. destruct (gotos p !! g) as [G|]; [|done].
    destruct (g_nav G), o; simpl; try done;
      try (apply nav_ok_update; [done|]; intros;
           by apply entry_ok_settle_navigate).
    + match goal with |- context [send ?m ?ps ?q] =>
          pose proof (send_nav m ps q) as [Hl Hg];
          destruct (send m ps q) as [q' eff] end; simpl in *.
      apply nav_ok_update; [by eapply nav_ok_frame|].
      intros; by apply entry_ok_set_nav.
    + destruct (truthy_str errorText); simpl;
        (apply nav_ok_update; [done|]); intros;
        by apply entry_ok_settle_navigate.
  - unfold poll. destruct (gotos p !! g) as [G|] eqn:HG; [|done].
    destruct (g_waitFor G) eqn:Hw; [done|].
    destruct (waitFor_poll env (goto_predicate G p) _ _) as [d|] eqn:Hpoll;
      [|done].
    simpl. apply nav_ok_update; [done|]. intros G' HG'.
    assert (G' = G) as -> by congruence.
    apply entry_ok_settle_waitFor; [|done]. intros ->.
    unfold waitFor_poll, goto_predicate in Hpoll.
    destruct (truthy_str (closedReason p)); [done|].
    destruct (g_finished1 G), (g_finished2 G); simpl in Hpoll; try done.
    all: by destruct (_ <=? _).
  - unfold goto_resume. destruct (gotos p !! g) as [G|] eqn:HG; [|done].
    destruct (g_result G) eqn:Hr; [done|].
    destruct (g_all G) as [[|m]|] eqn:Ha; simpl; [| |done].
    + apply nav_ok_update; [done|]. intros G' HG' [F1 F2 F3 F4 F5 F6].
      assert (G' = G) as -> by congruence. by split.
    + apply nav_ok_update; [by do 2 apply nav_ok_off|].
      simpl. intros G' HG' [F1 F2 F3 F4 F5 F6].
      assert (G' = G) as -> by congruence.
      assert (watcher1 g ∉ remove_last (watcher2 g)
                (remove_last (watcher1 g) (listeners p))) as N1.
      { intros Hin%remove_last_elem. revert Hin. apply remove_last_gone.
        by destruct Hp. }
      assert (watcher2 g ∉ remove_last (watcher2 g)
                (remove_last (watcher1 g) (listeners p))) as N2.
      { apply remove_last_gone. apply remove_last_NoDup. by destruct Hp. }
      split; simpl; auto; try congruence.
      intros m0 [= <-]. split_and!; [|done..]. by exists m.
  - unfold eval. destruct (serialize env fn); [|framed Hp].
    match goal with |- context [send ?m ?ps ?q] =>
          pose proof (send_nav m ps q) as [Hl Hg];
          destruct (send m ps q) as [q' eff] end; simpl in *.
    eapply nav_ok_frame; [| |exact Hp]; simpl; congruence.
  - unfold eval_resume. repeat case_match; framed Hp.
Qed.

Lemma run_nav_ok t p : nav_ok p → nav_ok (state env t p).
Proof.
  revert p. induction t as [|l t IH]; intros p Hp; [done|].
  rewrite state_cons. by apply IH, step_nav_ok.
Qed.

Lemma new_page_nav_ok b sid tid par : nav_ok (new_page b sid tid par).
Proof.
  split; simpl.
  - repeat (apply NoDup_cons; split;
            [rewrite ?elem_of_cons, elem_of_nil; intuition congruence|]).
    apply NoDup_nil_2.
  - intros n g. rewrite !elem_of_cons, !elem_of_nil. intuition congruence.
  - intros g G. by rewrite lookup_nil.
Qed.

(** What never changes again in an activation of [goto] once it is set. *)
Record goto_le (G G' : Goto) : Prop := {
  le_result : ∀ d, g_result G = Some d → g_result G' = Some d;
  le_all : ∀ d, g_all G = Some d → g_all G' = Some d;
  le_waitFor : ∀ d, g_waitFor G = Some d → g_waitFor G' = Some d;
  le_finished1 : g_finished1 G = true → g_finished1 G' = true;
  le_finished2 : g_finished2 G = true → g_finished2 G' = true;
  le_start : g_start G' = g_start G
}.

Definition gotos_grow (gs gs' : list Goto) : Prop :=
  ∀ g G, gs !! g = Some G → ∃ G', gs' !! g = Some G' ∧ goto_le G G'.

Lemma goto_le_refl G : goto_le G G.
Proof. by split. Qed.

Lemma goto_le_trans G1 G2 G3 : goto_le G1 G2 → goto_le G2 G3 → goto_le G1 G3.
Proof.
  intros [A1 A2 A3 A4 A5 A6] [B1 B2 B3 B4 B5 B6]. split; auto. congruence.
Qed.

Lemma gotos_grow_refl gs : gotos_grow gs gs.
Proof. intros g G HG. exists G. split; [done | apply goto_le_refl]. Qed.

Lemma gotos_grow_trans gs1 gs2 gs3 :
  gotos_grow gs1 gs2 → gotos_grow gs2 gs3 → gotos_grow gs1 gs3.
Proof.
  intros H12 H23 g G HG. destruct (H12 g G HG) as (G2 & HG2 & Hle2).
  destruct (H23 g G2 HG2) as (G3 & HG3 & Hle3).
  exists G3. split; [done | by eapply goto_le_trans].
Qed.

Lemma gotos_grow_alter f g gs :
  (∀ G, gs !! g = Some G → goto_le G (f G)) → gotos_grow gs (alter f g gs).
Proof.
  intros Hf g' G HG. destruct (decide (g = g')) as [<-|Hne].
  - exists (f G). rewrite list_lookup_alter_eq, HG. split; [done | by apply Hf].
  - exists G. rewrite list_lookup_alter_ne by done. split; [done|apply goto_le_refl].
Qed.

Lemma gotos_grow_app gs G0 : gotos_grow gs (gs ++ [G0]).
Proof.
  intros g G HG. exists G. split; [|apply goto_le_refl].
  rewrite lookup_app_l; [done | by eapply lookup_lt_Some].
Qed.

Lemma goto_le_set_finished1 G : goto_le G (set_finished1 true G).
Proof. by split. Qed.

Lemma goto_le_set_finished2 G : goto_le G (set_finished2 true G).
Proof. by split. Qed.

Lemma goto_le_set_nav pc G : goto_le G (set_nav pc G).
Proof. by split. Qed.

Lemma goto_le_settle_navigate d G : goto_le G (settle_navigate d G).
Proof.
  unfold settle_navigate, all_settle. simpl.
  split; simpl; repeat case_match; simpl; try done; congruence.
Qed.

Lemma goto_le_settle_waitFor d G :
  g_waitFor G = None → goto_le G (settle_waitFor d G).
Proof.
  intros Hw. unfold settle_waitFor, all_settle. simpl.
  split; simpl; repeat case_match; simpl; try done; congruence.
Qed.

Lemma goto_le_set_result d G : g_result G = None → goto_le G (set_result d G).
Proof. intros Hr. split; simpl; try done. congruence. Qed.

Lemma run_handler_grow h e p : gotos_grow (gotos p) (gotos (run_handler h e p).1).
Proof.
  unfold run_handler, close.
  repeat (case_match; simpl; try apply gotos_grow_refl);
    apply gotos_grow_alter; intros;
    [apply goto_le_set_finished1 | apply goto_le_set_finished2].
Qed.

Lemma run_handlers_grow hs e p :
  gotos_grow (gotos p) (gotos (run_handlers hs e p).1).
Proof.
  revert p. induction hs as [|h hs IH]; intros p; simpl;
    [apply gotos_grow_refl|].
  pose proof (run_handler_grow h e p) as H1.
  destruct (run_handler h e p) as [p1 eff1].
  pose proof (IH p1) as H2.
  destruct (run_handlers hs e p1) as [p2 eff2]. simpl in *.
  by eapply gotos_grow_trans.
Qed.

Ltac grown := simpl; first [apply gotos_grow_refl | done].

Lemma step_gotos_grow l p : gotos_grow (gotos p) (gotos (step env l p).1).
Proof.
  destruct l; simpl.
  - destruct (send_nav method params p) as [_ ->]. apply gotos_grow_refl.
  - unfold send_resume. case_match; grown.
  - unfold send_reject. case_match; grown.
  - unfold _handleMessage. destruct (matches_pending data p).
    + repeat case_match; grown.
    + unfold emit. destruct (m_event data) as [ev|]; [|grown].
      destruct (unhandled ev p); [grown|].
      pose proof (run_handlers_grow (listeners_of (event_name ev) p) ev p).
      by destruct (run_handlers _ ev p).
  - grown.
  - unfold close. case_match; grown.
  - grown.
  - unfold goto.
    match goal with |- context [navigate _ ?u ?g ?x] =>
      set (q := x);
      assert (gotos_grow (gotos p) (gotos q)) as Hq
        by (simpl; apply gotos_grow_app);
      clearbody q end.
    eapply gotos_grow_trans; [exact Hq|].
    unfold navigate. destruct (browser q) as [b'|]; simpl.
    + destruct (cookies b'); simpl;
        match goal with |- context [send ?m ?ps ?q] =>
          pose proof (send_nav m ps q) as [Hl Hg];
          destruct (send m ps q) as [q' eff] end; simpl in *;
        rewrite Hg; apply gotos_grow_alter; intros; apply goto_le_set_nav.
    + apply gotos_grow_alter; intros; apply goto_le_settle_navigate.
  - unfold nav_resume. destruct (gotos p !! g) as [G|]; [|grown].
    destruct (g_nav G), o; simpl; try apply gotos_grow_refl;
      try (apply gotos_grow_alter; intros; apply goto_le_settle_navigate).
    + match goal with |- context [send ?m ?ps ?q] =>
          pose proof (send_nav m ps q) as [Hl Hg];
          destruct (send m ps q) as [q' eff] end; simpl in *.
      rewrite Hg. apply gotos_grow_alter; intros; apply goto_le_set_nav.
    + destruct (truthy_str errorText); simpl;
        apply gotos_grow_alter; intros; apply goto_le_settle_navigate.
  - unfold poll. destruct (gotos p !! g) as [G|] eqn:HG; [|grown].
    destruct (g_waitFor G) eqn:Hw; [grown|].
    destruct (waitFor_poll env _ _ _) as [d|]; [|grown].
    simpl. apply gotos_grow_alter. intros G' HG'.
    assert (G' = G) as -> by congruence. by apply goto_le_settle_waitFor.
  - unfold goto_resume. destruct (gotos p !! g) as [G|] eqn:HG; [|grown].
    destruct (g_result G) eqn:Hr; [grown|].
    destruct (g_all G) as [[|m]|] eqn:Ha; simpl; [| |grown].
    + apply gotos_grow_alter. intros G' HG'.
      assert (G' = G) as -> by congruence. by apply goto_le_set_result.
    + apply gotos_grow_alter. intros G' HG'.
      assert (G' = G) as -> by congruence. by apply goto_le_set_result.
  - unfold eval. destruct (serialize env fn); [|grown].
    match goal with |- context [send ?m ?ps ?q] =>
          pose proof (send_nav m ps q) as [Hl Hg];
          destruct (send m ps q) as [q' eff] end; simpl in *.
    rewrite Hg. apply gotos_grow_refl.
  - unfold eval_resume. repeat case_match; grown.
Qed.

Lemma run_gotos_grow t p : gotos_grow (gotos p) (gotos (state env t p)).
Proof.
  revert p. induction t as [|l t IH]; intros p; [apply gotos_grow_refl|].
  rewrite state_cons. eapply gotos_grow_trans; [apply step_gotos_grow | apply IH].
Qed.

(** C4: [PAGE_TIMEOUT] is 30000.  While the wait of a [goto] is pending, one
    poll fails it with [closedReason] when the session is closed, fulfils it
    when both watchers have finished, polls again when they have not and
    less than 30000 ms have passed, and fails it with the timeout error
    otherwise; a failed wait fails [Promise.all].  When [goto] resumes from a
    failed [Promise.all] it fails with the message prefixed by "Navigation
    failed: "; a [goto] that has failed has such a message, stays failed,
    and neither of its watchers is registered in any later state; a [goto]
    that succeeded had both watchers finished and detached. *)
Theorem goto_polls_then_fails_detached b sid tid par t g G :
  let p := state env t (new_page b sid tid par) in
  gotos p !! g = Some G →
  PAGE_TIMEOUT = 30000
  ∧ (g_waitFor G = None →
     ∀ now,
       (∀ r, closedReason p = Some r →
             gotos (poll env g now p).1 !! g
             = Some (settle_waitFor (Fail r) G))
       ∧ (closedReason p = None →
          g_finished1 G = true → g_finished2 G = true →
          gotos (poll env g now p).1 !! g = Some (settle_waitFor Ok G))
       ∧ (closedReason p = None →
          g_finished1 G && g_finished2 G = false →
          (now - g_start G < 30000 → poll env g now p = (p, []))
          ∧ (30000 ≤ now - g_start G →
             gotos (poll env g now p).1 !! g
             = Some (settle_waitFor (Fail (timeout_message env 30000)) G))))
  ∧ (g_waitFor G = None →
     ∀ m, g_waitFor (settle_waitFor (Fail m) G) = Some (Fail m)
          ∧ ∃ m', g_all (settle_waitFor (Fail m) G) = Some (Fail m'))
  ∧ (∀ m, g_result G = None → g_all G = Some (Fail m) →
          gotos (goto_resume g p).1 !! g
          = Some (set_result (Some (Fail ("Navigation failed: " +:+ m))) G))
  ∧ (∀ m, g_result G = Some (Fail m) →
          (∃ m', m = "Navigation failed: " +:+ m' ∧ g_all G = Some (Fail m'))
          ∧ ∀ t2,
              (∃ G', gotos (state env t2 p) !! g = Some G'
                     ∧ g_result G' = Some (Fail m))
              ∧ (watcher1 g ∉ listeners (state env t2 p))
              ∧ (watcher2 g ∉ listeners (state env t2 p)))
  ∧ (g_result G = Some Ok →
     g_finished1 G = true ∧ g_finished2 G = true
     ∧ (watcher1 g ∉ listeners p) ∧ (watcher2 g ∉ listeners p)).
Proof.
  intros p HG.
  assert (nav_ok p) as Hp by apply run_nav_ok, new_page_nav_ok.
  assert (session_ok p) as Hs by apply run_session_ok, new_page_session_ok.
  pose proof (gotos_ok p Hp g G HG) as [F1 F2 F3 F4 F5 F6].
  assert (∀ d, gotos (update_goto g (settle_waitFor d) p) !! g
               = Some (settle_waitFor d G)) as Hup.
  { intros d. simpl. by rewrite list_lookup_alter_eq, HG. }
  split_and!.
  - done.
  - intros Hw now. unfold poll. rewrite HG, Hw.
    unfold waitFor_poll, goto_predicate. split_and!.
    + intros r Hr. rewrite (session_ok_truthy p r Hs Hr), Hr. simpl. apply Hup.
    + intros Hr H1 H2. rewrite Hr, H1, H2. simpl. apply Hup.
    + intros Hr Hf. rewrite Hr, Hf. simpl. unfold PAGE_TIMEOUT. split.
      * intros Hlt. by rewrite (proj2 (Z.leb_gt _ _) Hlt).
      * intros Hge. rewrite (proj2 (Z.leb_le _ _) Hge). simpl. apply Hup.
  - intros Hw m. unfold settle_waitFor, all_settle. simpl.
    destruct (g_all G) as [[|a]|] eqn:Ha; simpl.
    + specialize (F4 eq_refl). congruence.
    + split; [done|]. rewrite Ha. by exists a.
    + split; [done|]. by exists m.
  - intros m Hr Ha. unfold goto_resume. rewrite HG, Hr, Ha. simpl.
    by rewrite list_lookup_alter_eq, HG.
  - intros m Hm. destruct (F6 m Hm) as (Hpre & _ & _). split; [done|].
    intros t2.
    destruct (run_gotos_grow t2 p g G HG) as (G' & HG' & Hle).
    pose proof (le_result _ _ Hle _ Hm) as Hm'.
    assert (nav_ok (state env t2 p)) as Hq by by apply run_nav_ok.
    destruct (gotos_ok _ Hq g G' HG') as [_ _ _ _ _ F6'].
    destruct (F6' m Hm') as (_ & ? & ?). split_and!; [|done..].
    by exists G'.
  - intros Hok. specialize (F5 Hok). specialize (F4 F5).
    destruct (F3 F4) as [H1 H2]. auto.
Qed.

Lemma send_evals m ps p : evals (send m ps p).1 = evals p.
Proof. unfold send. simpl. by repeat case_match. Qed.

(** C8: a function text that parses as an expression is sent as it is; one
    that does not is rewritten (an "async " shorthand into "async function",
    any other into "function ...") and sent if that parses; if not, [eval]
    fails with the "not serializable" error and sends nothing.  Otherwise
    one [Runtime.callFunctionOn] call is issued with the wrapped text, and
    when its response has [exceptionDetails], [eval] throws the exception's
    description, else it returns the value of the result. *)
Theorem eval_rewrites_refuses_and_reports fn args p :
  (parses env ("(" +:+ fn +:+ ")") = true → serialize env fn = Some fn)
  ∧ (parses env ("(" +:+ fn +:+ ")") = false →
     ∀ rewritten,
       rewritten = (if String.prefix "async " fn
                    then "async function"
                         +:+ String.substring 5 (String.length fn - 5) fn
                    else "function " +:+ fn) →
       (parses env ("(" +:+ rewritten +:+ ")") = true →
        serialize env fn = Some rewritten)
       ∧ (parses env ("(" +:+ rewritten +:+ ")") = false →
          serialize env fn = None))
  ∧ (serialize env fn = None →
     eval env fn args p
     = (set_evals
          (evals p
           ++ [EvalDone
                 (Rejected (Error "The provided function is not serializable"))])
          p, []))
  ∧ (∀ fnbody, serialize env fn = Some fnbody →
     ∃ params,
       (eval env fn args p).2 = (send "Runtime.callFunctionOn" params p).2
       ∧ evals (eval env fn args p).1 = evals p ++ [EvalAwait (next_slot p)]
       ∧ ∃ rest,
           params
           = VObj (("functionDeclaration",
                    VStr (withPercyHelpers env fnbody))
                   :: ("arguments",
                       VArr (map (λ value, VObj [("value", value)]) args))
                   :: rest))
  ∧ (∀ e k r, evals p !! e = Some (EvalAwait k) →
     eval_resume e (CallResolved r) p
     = (set_evals
          (<[e := EvalDone
                    match exceptionDetails r with
                    | Some (Some exception) =>
                        Rejected (Raw (ro_description exception))
                    | Some None =>
                        Rejected (Error (undefined_deref "description"))
                    | None => Resolved (ro_value (result r))
                    end]> (evals p)) p, [])).
Proof.
  split_and!.
  - intros H. unfold serialize. by rewrite H.
  - intros H rewritten ->. unfold serialize. rewrite H.
    split; by intros ->.
  - intros H. unfold eval. by rewrite H.
  - intros fnbody H. unfold eval. rewrite H.
    match goal with |- context [send ?m ?ps p] =>
      exists ps; pose proof (send_evals m ps p) as He;
      destruct (send m ps p) as [p' eff] end.
    simpl in *. split_and!; [done | by rewrite He | by eexists].
  - intros e k r H. unfold eval_resume. by rewrite H.
Qed.

End Facts.

(** *** Concrete sessions *)

Definition env0 : Env :=
  {| hostname := λ url, url;
     parses := λ text, String.prefix "(function" text
                       || String.prefix "(async function" text;
     waitFor_src := "function waitFor() {}";
     timeout_message := λ ms, "Timeout of " +:+ pretty ms +:+ "ms exceeded." |}.

Definition page0 : Page := new_page {| cookies := [] |} "S1" "T1" None.

Definition response (id : Z) (v : Value) : Message :=
  {| m_id := Some id; m_result := v; m_error := None; m_event := None |}.

Definition error_response (id : Z) (message : string) (data : option string)
  : Message :=
  {| m_id := Some id; m_result := VUndefined;
     m_error := Some {| error_message := message; error_data := data |};
     m_event := None |}.

Definition event (e : Event) : Message :=
  {| m_id := None; m_result := VUndefined; m_error := None; m_event := Some e |}.

(** Two calls answered in the opposite order, the first with an error. *)
Definition out_of_order : list Label :=
  [LSend "Page.enable" VUndefined; LSend "Page.getFrameTree" VUndefined;
   LSendResume 0 1; LSendResume 1 2;
   LMessage (response 2 (VStr "tree"));
   LMessage (error_response 1 "Not allowed" (Some "details"))].

Lemma out_of_order_witness :
  fresh_ids env0 out_of_order page0
  ∧ effects env0 out_of_order page0 =
      [ESent "S1" "Page.enable" VUndefined;
       ESent "S1" "Page.getFrameTree" VUndefined;
       ESettle 1 (Resolved (VStr "tree"));
       ESettle 0 (Rejected
                    (Error "Protocol error (Page.enable): Not allowed: details"))]
  ∧ NoDup (settled (effects env0 out_of_order page0))
  ∧ settled (effects env0 out_of_order page0)
      ++ outstanding (state env0 out_of_order page0)
      ≡ₚ seq 0 (next_slot (state env0 out_of_order page0)).
Proof.
  assert (fresh_ids env0 out_of_order page0) as Hf by (vm_compute; tauto).
  split; [exact Hf|]. split; [reflexivity|].
  destruct (inbound_message_settles_pending_call_once env0
              {| cookies := [] |} "S1" "T1" None out_of_order)
    as (H1 & _ & _ & H4 & _).
  split; [exact H1 | exact (H4 Hf)].
Defined.

(** A call pending under id 0 is not settled by its response. *)
Definition pending_zero : Page :=
  state env0 [LSend "Page.enable" VUndefined; LSendResume 0 0] page0.

(** The transport hands out id 7 a second time while the first call is
    still pending under it: the response settles the second call, and the
    first is never settled, not even when the session closes. *)
Definition id_handed_out_twice : list Label :=
  [LSend "Page.enable" VUndefined; LSendResume 0 7;
   LSend "Page.getFrameTree" VUndefined; LSendResume 1 7;
   LMessage (response 7 (VStr "tree")); LClose].

Lemma id_zero_or_reused_id_loses_the_resolution :
  (JsMap.get 0 (callbacks pending_zero)
     = Some {| cb_slot := 0; cb_method := "Page.enable" |}
   ∧ _handleMessage (response 0 (VBool true)) pending_zero
     = (pending_zero, [EEmit None]))
  ∧ (effects env0 id_handed_out_twice page0
     = [ESent "S1" "Page.enable" VUndefined;
        ESent "S1" "Page.getFrameTree" VUndefined;
        ESettle 1 (Resolved (VStr "tree"))]
     ∧ outstanding (state env0 id_handed_out_twice page0) = []
     ∧ next_slot (state env0 id_handed_out_twice page0) = 2%nat
     ∧ ¬ fresh_ids env0 id_handed_out_twice page0
     ∧ (0%nat ∉ settled (effects env0 id_handed_out_twice page0)
               ++ outstanding (state env0 id_handed_out_twice page0))).
Proof.
  split; [by split|]. split_and!; [reflexivity..| |].
  - intros (_ & _ & _ & Hf & _). vm_compute in Hf. discriminate Hf.
  - vm_compute. by intros [=]%list_elem_of_singleton.
Qed.

(** A call issued on an open session is rejected without any response:
    when the session closes, and when the transport's own send fails. *)
Lemma open_call_rejected_without_response :
  closedReason (state env0 [LSend "Page.enable" VUndefined; LSendResume 0 1]
                  page0) = None
  ∧ effects env0 [LSend "Page.enable" VUndefined; LSendResume 0 1; LClose]
      page0
    = [ESent "S1" "Page.enable" VUndefined;
       ESettle 0
         (Rejected (Error "Protocol error (Page.enable): Page closed."))]
  ∧ effects env0
      [LSend "Page.enable" VUndefined; LSendReject 0 "WebSocket is not open"]
      page0
    = [ESent "S1" "Page.enable" VUndefined;
       ESettle 0 (Rejected (Error "WebSocket is not open"))].
Proof. repeat split; reflexivity. Qed.

(** A crash sets the reason and leaves the calls pending; a [send] that was
    waiting for its id when the session closed registers afterwards. *)
Definition crashed : Page :=
  state env0
    [LSend "Page.enable" VUndefined; LSendResume 0 1;
     LMessage (event TargetCrashed)] page0.

Definition closed_in_flight : Page :=
  state env0 [LSend "Page.enable" VUndefined; LClose; LSendResume 0 1] page0.

Lemma closed_session_with_pending_call :
  (closedReason crashed = Some "Page crashed!"
   ∧ callbacks crashed = [(1, {| cb_slot := 0; cb_method := "Page.enable" |})])
  ∧ (closedReason closed_in_flight = Some "Page closed."
     ∧ browser closed_in_flight = None
     ∧ callbacks closed_in_flight
       = [(1, {| cb_slot := 0; cb_method := "Page.enable" |})]).
Proof. repeat split; reflexivity. Qed.



(** A navigation whose frame navigates but whose [load] event never comes. *)
Definition timed_out : list Label :=
  [LFrameTree "F"; LGoto "http://localhost/" "load" 1000;
   LSendResume 0 1; LMessage (response 1 (VObj []));
   LNavResume 0 (NavResolved None);
   LMessage (event (FrameNavigated "F"));
   LPoll 0 1010; LPoll 0 30990; LPoll 0 31000; LGotoResume 0].

Definition timed_out_goto : Goto :=
  {| g_url := "http://localhost/"; g_waitUntil := "load"; g_start := 1000;
     g_finished1 := true; g_finished2 := false; g_nav := NavReturned;
     g_navigate := Some Ok;
     g_waitFor := Some (Fail "Timeout of 30000ms exceeded.");
     g_all := Some (Fail "Timeout of 30000ms exceeded.");
     g_result :=
       Some (Fail "Navigation failed: Timeout of 30000ms exceeded.") |}.

Lemma goto_timeout_witness :
  gotos (state env0 timed_out page0) !! 0%nat = Some timed_out_goto
  ∧ listeners (state env0 timed_out page0) = listeners page0
  ∧ (watcher1 0 ∉ listeners (state env0 [] (state env0 timed_out page0)))
  ∧ (watcher2 0 ∉ listeners (state env0 [] (state env0 timed_out page0))).
Proof.
  assert (gotos (state env0 timed_out page0) !! 0%nat = Some timed_out_goto)
    as HG by (vm_compute; reflexivity).
  split; [exact HG|]. split; [vm_compute; reflexivity|].
  pose proof (goto_polls_then_fails_detached env0 {| cookies := [] |}
                "S1" "T1" None timed_out 0 timed_out_goto HG)
    as (_ & _ & _ & _ & Hfail & _).
  destruct (Hfail _ eq_refl) as (_ & Hlater).
  destruct (Hlater []) as (_ & N1 & N2). split; [exact N1 | exact N2].
Defined.

(** The session closes while the wait is pending: the next poll fails the
    wait with the reason. *)
Lemma goto_closed_example :
  g_result <$> gotos (state env0
     [LFrameTree "F"; LGoto "http://localhost/" "load" 0; LSendResume 0 1;
      LMessage (response 1 (VObj [])); LNavResume 0 (NavResolved None);
      LClose; LPoll 0 10; LGotoResume 0]
     page0) !! 0%nat
  = Some (Some (Fail "Navigation failed: Page closed.")).
Proof. vm_compute. reflexivity. Qed.

(** Both events arrive: the navigation succeeds and nothing stays
    registered. *)
Lemma goto_success_example :
  let p := state env0
     [LFrameTree "F"; LGoto "http://localhost/" "load" 0; LSendResume 0 1;
      LMessage (response 1 (VObj [])); LNavResume 0 (NavResolved None);
      LMessage (event (LifecycleEvent "F" "init"));
      LMessage (event (FrameNavigated "F"));
      LMessage (event (LifecycleEvent "F" "load"));
      LPoll 0 10; LGotoResume 0] page0 in
  g_result <$> gotos p !! 0%nat = Some (Some Ok)
  ∧ listeners p = listeners page0.
Proof. vm_compute. split; reflexivity. Qed.

(** Method and async shorthand are rewritten; what still does not parse is
    refused. *)
Lemma serialize_examples :
  serialize env0 "function () { return 1 }" = Some "function () { return 1 }"
  ∧ serialize env0 "waitFor() { return 1 }"
    = Some "function waitFor() { return 1 }"
  ∧ serialize env0 "async execute({ waitFor }) {}"
    = Some "async function execute({ waitFor }) {}"
  ∧ serialize env0 "" = Some "function "
  ∧ withPercyHelpers env0 "function f() {}"
    = "function withPercyHelpers() {return (function f() {})({waitFor: function waitFor() {}}, ...arguments)}".
Proof. vm_compute. repeat split; reflexivity. Qed.

End PageFacts.

(** * Facts about the orchestrator *)

Module PercyFacts.
Import Percy.

(** *** Queues that were force-closed stay so *)

Lemma close_force_cancelled q : Queue.cancelled (Queue.close true q).
Proof. done. Qed.

Lemma close_force_closed q : Queue.force_closed (Queue.close true q).
Proof. done. Qed.

Lemma push_cancelled task pr q :
  Queue.cancelled q → Queue.cancelled (Queue.push task pr q).
Proof. intros (Hc & Hf & Ha). unfold Queue.push. by repeat case_match. Qed.

Lemma clear_cancelled prefix q :
  Queue.cancelled q → Queue.cancelled (Queue.clear prefix q).
Proof. by intros (Hc & Hf & Ha). Qed.

Lemma run_cancelled q : Queue.cancelled q → Queue.cancelled (Queue.run q).
Proof. done. Qed.

Lemma stop_cancelled q : Queue.cancelled q → Queue.cancelled (Queue.stop q).
Proof. done. Qed.

Lemma close_cancelled force q :
  Queue.cancelled q → Queue.cancelled (Queue.close force q).
Proof. intros (Hc & Hf & Ha). by destruct force. Qed.

Lemma set_closed_cancelled q :
  Queue.cancelled q → Queue.cancelled (Queue.set_closed true q).
Proof. by intros (Hc & Hf & Ha). Qed.

Lemma can_dispatch_cancelled q :
  Queue.cancelled q → Queue.can_dispatch q = false.
Proof. intros (_ & Hf & _). unfold Queue.can_dispatch. by rewrite Hf. Qed.

Lemma settle_cancelled task q :
  Queue.cancelled q → Queue.cancelled (Queue.settle task q).
Proof.
  intros (Hc & Hf & Ha). unfold Queue.settle, Queue.cancelled. simpl.
  by rewrite Ha.
Qed.

Lemma not_active_cancelled task q : Queue.cancelled q → task ∉ Queue.active q.
Proof. intros (_ & _ & ->). apply not_elem_of_nil. Qed.

(** The build failed: both queues were force-closed. *)
Definition failed (s : Percy) : Prop :=
  ∃ b, build s = Some b ∧ build_failed b = true.

Definition failed_closes (s : Percy) : Prop :=
  failed s → Queue.cancelled (uploads s) ∧ Queue.cancelled (snapshots s).

(** A running upload task has a build to send to. *)
Definition uploads_have_build (s : Percy) : Prop :=
  ∀ name, Queue.Upload name ∈ Queue.active (uploads s) → is_Some (build s).

(** Readiness and the two program counters agree. *)
Record lifecycle_ok (s : Percy) : Prop := {
  start_pc_ok :
    match start_pc s with
    | StartIdle => readyState s = None
    | StartReturned => readyState s ≠ None
    | _ => readyState s = Some 0
    end;
  stop_pc_ok :
    match stop_pc s with
    | StopIdle =>
        readyState s = None ∨ readyState s = Some 0 ∨ readyState s = Some 1
        ∨ readyState s = Some 3
    | StopReturned => readyState s = Some 2 ∨ readyState s = Some 3
    | _ => readyState s = Some 2
    end;
  ready_ok :
    readyState s = None ∨ readyState s = Some 0 ∨ readyState s = Some 1
    ∨ readyState s = Some 2 ∨ readyState s = Some 3
}.

(** Once [stop()] is past the snapshot drain, the snapshot queue is closed
    and empty. *)
Definition past_snapshots (pc : StopPc) : bool :=
  match pc with
  | StopIdle | StopAwaitSnapshots => false
  | _ => true
  end.

Record drain_ok (s : Percy) : Prop := {
  snapshots_closed : stop_pc s ≠ StopIdle → Queue.closed (snapshots s) = true;
  snapshots_empty :
    past_snapshots (stop_pc s) = true → Queue.length (snapshots s) = 0%nat
}.

Record percy_ok (s : Percy) : Prop := {
  ok_lifecycle : lifecycle_ok s;
  ok_failed : failed_closes s;
  ok_uploads : uploads_have_build s;
  ok_drain : drain_ok s
}.

Lemma new_ok defer skip server port conc dflt :
  percy_ok (new defer skip server port conc dflt).
Proof.
  split.
  - split; simpl; auto.
  - intros (b & Hb & _). done.
  - intros name. simpl. destruct (skip || defer); simpl; by intros ?%elem_of_nil.
  - split; simpl; done.
Qed.


Ltac unfold_step :=
  unfold step, start, start_resume, start_catch, stop, stop_resume,
    stop_finish, stop_uploads, stop_teardown, snapshot, dispatch,
    build_created, build_failed_to_create, capture_schedules, capture_done,
    upload_settled, upload_catch, task_settled, _scheduleUpload, close,
    server_effect, drain_progress in *.

Ltac break_step :=
  unfold_step; simpl in *;
  repeat (match goal with
          | |- context [match ?x with _ => _ end] => destruct x eqn:?
          | H : context [match ?x with _ => _ end] |- _ => destruct x eqn:?
          end; simpl in *; simplify_eq).

(** The segments that leave readiness and both program counters alone. *)
Definition quiet (l : Label) : bool :=
  match l with
  | LStart | LStartResume _ | LStop _ | LStopResume _ => false
  | _ => true
  end.

Lemma quiet_same l s :
  quiet l = true →
  readyState (step l s).1 = readyState s
  ∧ start_pc (step l s).1 = start_pc s
  ∧ stop_pc (step l s).1 = stop_pc s.
Proof. intros Hq. destruct l; try done; break_step; done. Qed.

Ltac z_bools :=
  repeat match goal with
         | H : (_ =? _) = true |- _ => apply Z.eqb_eq in H
         | H : (_ =? _) = false |- _ => apply Z.eqb_neq in H
         | H : (_ <? _) = true |- _ => apply Z.ltb_lt in H
         | H : (_ <? _) = false |- _ => apply Z.ltb_ge in H
         | H : _ || _ = false |- _ => apply orb_false_elim in H as [? ?]
         | H : _ || _ = true |- _ => apply orb_prop in H
         end.

Ltac known_fields :=
  repeat match goal with
         | H : start_pc _ = _ |- _ => rewrite H in *; clear H
         | H : stop_pc _ = _ |- _ => rewrite H in *; clear H
         | H : readyState _ = _ |- _ => rewrite H in *; clear H
         end.

Lemma step_lifecycle_ok l s : lifecycle_ok s → lifecycle_ok (step l s).1.
Proof.
  intros Hs. destruct (quiet l) eqn:Hq.
  { destruct (quiet_same l s Hq) as (H1 & H2 & H3).
    destruct Hs as [A B C]. split; rewrite ?H1, ?H2, ?H3; done. }
  destruct Hs as [A B C].
  destruct l; try done; break_step; split; simpl in *; known_fields;
    simpl in *; z_bools; try done; auto 10;
    try (intuition (first [congruence | lia])).
Qed.


Create HintDb cancelled.
#[local] Hint Resolve close_force_cancelled push_cancelled clear_cancelled
  run_cancelled stop_cancelled close_cancelled settle_cancelled
  set_closed_cancelled : cancelled.

(** In a failed build (with its queues closed) nothing is dispatched and no
    task is running. *)
Ltac failed_absurd :=
  match goal with
  | Hu : Queue.cancelled ?q, H : Queue.can_dispatch ?q = true |- _ =>
      rewrite (can_dispatch_cancelled q Hu) in H; discriminate H
  | Hu : Queue.cancelled ?q, H : ?task ∈ Queue.active ?q |- _ =>
      exfalso; exact (not_active_cancelled task q Hu H)
  end.

Lemma step_failed_closes l s : failed_closes s → failed_closes (step l s).1.
Proof.
  intros Hfc. unfold failed_closes, failed in *.
  destruct l; break_step; intros (bld & Hb & Hf); simpl in *; simplify_eq;
    try (split; by auto with cancelled);
    try (destruct Hfc as [Hu Hs]; [by eauto|];
         first [ failed_absurd | split; by auto 6 with cancelled ]).
Qed.


Lemma active_push task pr q : Queue.active (Queue.push task pr q) = Queue.active q.
Proof. unfold Queue.push. by repeat case_match. Qed.

Lemma closed_push task pr q : Queue.closed (Queue.push task pr q) = Queue.closed q.
Proof. unfold Queue.push. by repeat case_match. Qed.

Lemma forced_push task pr q : Queue.forced (Queue.push task pr q) = Queue.forced q.
Proof. unfold Queue.push. by repeat case_match. Qed.

Lemma active_dispatch task q :
  task ∈ Queue.active (Queue.dispatch q) →
  task ∈ Queue.active q ∨ head (Queue.queued q) = Some task.
Proof.
  unfold Queue.dispatch. destruct (Queue.queued q) as [|t0 rest]; simpl; [by left|].
  intros [Hin|Hin]%elem_of_app; [by left|].
  apply list_elem_of_singleton in Hin as ->. by right.
Qed.

Lemma closed_dispatch q : Queue.closed (Queue.dispatch q) = Queue.closed q.
Proof. unfold Queue.dispatch. by case_match. Qed.

Lemma length_dispatch q : Queue.length (Queue.dispatch q) = Queue.length q.
Proof.
  unfold Queue.dispatch, Queue.length, Queue.tasks.
  destruct (Queue.queued q) as [|t0 rest] eqn:Hq; simpl.
  - by rewrite Hq.
  - rewrite !length_app. simpl. lia.
Qed.

Lemma active_settle task x q :
  x ∈ Queue.active (Queue.settle task q) → x ∈ Queue.active q ∧ x ≠ task.
Proof. unfold Queue.settle. simpl. intros [? ?]%list_elem_of_filter. done. Qed.

Lemma length_settle task q :
  (Queue.length (Queue.settle task q) ≤ Queue.length q)%nat.
Proof.
  unfold Queue.settle, Queue.length, Queue.tasks. simpl.
  rewrite !length_app. pose proof (length_filter (λ x, x ≠ task) (Queue.active q)).
  lia.
Qed.

Lemma length_settle_zero task q :
  Queue.length q = 0%nat → Queue.length (Queue.settle task q) = 0%nat.
Proof. intros H. pose proof (length_settle task q). lia. Qed.

Lemma length_set_closed b q :
  Queue.length (Queue.set_closed b q) = Queue.length q.
Proof. done. Qed.

Ltac known_build :=
  repeat match goal with
         | H : build _ = _ |- _ => rewrite H in *; clear H
         end.

Lemma step_uploads_have_build l s :
  uploads_have_build s → uploads_have_build (step l s).1.
Proof.
  intros Hub name. unfold uploads_have_build in Hub.
  destruct l; break_step; rewrite ?active_push; simpl; known_build;
    try (by intros ?%elem_of_nil); try (by eauto); try apply Hub.
  all: try (intros [Hin Hne]%active_settle; simpl in Hin;
            try apply active_dispatch in Hin as [Hin|Hin];
            try (by intros ?%elem_of_nil); eauto;
            try (by apply Hub in Hin)).
  all: try (intros [Hin|Hin]%active_dispatch; eauto; try (by apply Hub in Hin)).
  all: try (match goal with
            | H : Queue.queued _ = _, Hin : head _ = _ |- _ =>
                rewrite H in Hin; simpl in Hin; by simplify_eq
            end).
Qed.


Ltac nat_bools :=
  repeat match goal with
         | H : (_ <? _)%nat = true |- _ => apply Nat.ltb_lt in H
         | H : (_ <? _)%nat = false |- _ => apply Nat.ltb_ge in H
         | H : (_ =? _)%nat = true |- _ => apply Nat.eqb_eq in H
         | H : (_ =? _)%nat = false |- _ => apply Nat.eqb_neq in H
         end.

(** [snapshot()] pushes only while running, when no [stop()] has got past
    its guards. *)
Lemma step_drain_ok l s : lifecycle_ok s → drain_ok s → drain_ok (step l s).1.
Proof.
  intros [_ B _] [Hc He].
  destruct l; break_step; split; simpl; known_fields; simpl in *;
    rewrite ?closed_push, ?closed_dispatch, ?length_dispatch;
    nat_bools; try done; auto;
    try (intros Hp; specialize (He Hp));
    try (intros Hp; specialize (Hc Hp));
    try (apply length_settle_zero); auto;
    try (unfold Queue.length, Queue.tasks in *; simpl in *; lia).
  by destruct B.
Qed.

Lemma step_ok l s : percy_ok s → percy_ok (step l s).1.
Proof.
  intros [H1 H2 H3 H4]. split;
    [ by apply step_lifecycle_ok | by apply step_failed_closes
    | by apply step_uploads_have_build | by apply step_drain_ok ].
Qed.

Lemma percy_state_cons l t s : state (l :: t) s = state t (step l s).1.
Proof.
  unfold state. simpl. destruct (step l s) as [s1 e1]. simpl.
  by destruct (run t s1).
Qed.

Lemma percy_effects_cons l t s :
  effects (l :: t) s = (step l s).2 ++ effects t (step l s).1.
Proof.
  unfold effects. simpl. destruct (step l s) as [s1 e1]. simpl.
  by destruct (run t s1).
Qed.

Lemma percy_state_app t1 t2 s : state (t1 ++ t2) s = state t2 (state t1 s).
Proof.
  revert s. induction t1 as [|l t1 IH]; intros s; [done|].
  simpl. by rewrite !percy_state_cons, IH.
Qed.

Lemma run_ok t s : percy_ok s → percy_ok (state t s).
Proof.
  revert s. induction t as [|l t IH]; intros s Hs; [done|].
  rewrite percy_state_cons. by apply IH, step_ok.
Qed.


(** *** Readiness *)

Definition level (s : Percy) : Z :=
  match readyState s with
  | None => 0
  | Some n => n + 1
  end.

Lemma step_level l s : percy_ok s → level s ≤ level (step l s).1.
Proof.
  intros [[A B C] _ _ _]. unfold level. destruct (quiet l) eqn:Hq.
  { destruct (quiet_same l s Hq) as (-> & _ & _). lia. }
  destruct l; try done; break_step; known_fields; simpl in *; z_bools;
    try lia; try done; intuition (first [congruence | lia]).
Qed.

Lemma run_level t s : percy_ok s → level s ≤ level (state t s).
Proof.
  revert s. induction t as [|l t IH]; intros s Hs; [done|].
  rewrite percy_state_cons. pose proof (step_level l s Hs).
  pose proof (IH _ (step_ok l s Hs)). lia.
Qed.

Lemma readiness_level s :
  percy_ok s → ∃ r, readiness s = Some r ∧ level s = Z.of_nat (rank r).
Proof.
  intros [[_ _ C] _ _ _]. unfold readiness, level.
  destruct C as [->|[->|[->|[->| ->]]]]; eauto.
Qed.

(** C5: the readiness state is always one of the five, never goes back, and
    a state that was left is not entered again; [start()] outside
    unstarted and [stop()] in unstarted change nothing, and [snapshot()]
    outside running throws "Not running". *)
Theorem readiness_only_advances defer skip server port conc dflt t :
  let s := state t (new defer skip server port conc dflt) in
  (∀ t2, ∃ r r',
     readiness s = Some r ∧ readiness (state t2 s) = Some r'
     ∧ (rank r ≤ rank r')%nat)
  ∧ (∀ t2 t3,
       readiness (state t2 s) ≠ readiness s →
       readiness (state (t2 ++ t3) s) ≠ readiness s)
  ∧ (readiness s ≠ Some Unstarted → start s = (s, []))
  ∧ (readiness s = Some Unstarted → ∀ force, stop force s = (s, []))
  ∧ (readiness s ≠ Some Running →
     ∀ name, snapshot name s = (s, [Throw "Not running"])).
Proof.
  intros s.
  assert (percy_ok s) as Hs by apply run_ok, new_ok.
  assert (∀ t2, ∃ r r',
     readiness s = Some r ∧ readiness (state t2 s) = Some r'
     ∧ level s = Z.of_nat (rank r)
     ∧ level (state t2 s) = Z.of_nat (rank r')
     ∧ (rank r ≤ rank r')%nat) as Hmono.
  { intros t2. destruct (readiness_level s Hs) as (r & Hr & Hl).
    destruct (readiness_level (state t2 s) (run_ok t2 s Hs)) as (r' & Hr' & Hl').
    pose proof (run_level t2 s Hs). exists r, r'. split_and!; [done..|lia]. }
  split_and!.
  - intros t2. destruct (Hmono t2) as (r & r' & ? & ? & _ & _ & ?). by exists r, r'.
  - intros t2 t3 Hne. rewrite percy_state_app.
    destruct (Hmono t2) as (r & r2 & Hr & Hr2 & _ & _ & H12).
    assert (percy_ok (state t2 s)) as Hs2 by by apply run_ok.
    destruct (readiness_level (state t2 s) Hs2) as (r2' & Hr2' & Hl2).
    destruct (readiness_level (state t3 (state t2 s)) (run_ok t3 _ Hs2))
      as (r3 & Hr3 & Hl3).
    pose proof (run_level t3 _ Hs2) as H23.
    rewrite Hr3, Hr. rewrite Hr2, Hr in Hne. intros [= ->].
    assert (r2 = r2') as <- by congruence.
    assert (rank r2 = rank r) as Heq by lia.
    apply Hne. f_equal. by destruct r2, r.
  - unfold readiness, start. destruct (readyState s); [done|]. by intros [].
  - unfold readiness, stop. destruct (readyState s) as [n|]; [|done].
    by repeat case_match.
  - unfold readiness, snapshot. intros Hne name.
    destruct (decide (readyState s = Some 1)) as [Heq|]; [|done].
    rewrite Heq in Hne. by destruct Hne.
Qed.

(** C10: while the orchestrator is starting, [stop(force)] returns at once,
    whatever [force] is: the state is the same (no queue was closed) and
    nothing was done (neither server nor browser was closed). *)
Theorem stop_while_starting_does_nothing defer skip server port conc dflt t
    force :
  let s := state t (new defer skip server port conc dflt) in
  readiness s = Some Starting →
  stop force s = (s, [])
  ∧ readiness (stop force s).1 = Some Starting
  ∧ uploads (stop force s).1 = uploads s
  ∧ snapshots (stop force s).1 = snapshots s
  ∧ (ServerClose ∉ (stop force s).2) ∧ (BrowserClose ∉ (stop force s).2).
Proof.
  intros s Hr.
  assert (readyState s = Some 0) as H0.
  { unfold readiness in Hr. destruct (readyState s) as [n|]; [|done].
    by repeat case_match. }
  assert (stop force s = (s, [])) as Hstop.
  { unfold stop. by rewrite H0. }
  rewrite Hstop. simpl. split_and!; try done; apply not_elem_of_nil.
Qed.


(** *** Upload failures *)









(** *** Draining on stop *)



(** *** The hooks of a capture task *)

(** C9: [getResource] answers with the synthetic root when there is one and
    the URL is the root's, else with the task's own resource for the URL,
    else with what the shared cache has; there is a root exactly when a
    (non-empty) DOM snapshot was supplied.  [addResource] records a
    resource that is not flagged as root in both maps under its URL, leaving
    the other URLs alone, and records a root resource in neither. *)
Theorem hooks_resolve_in_order_and_record u domSnapshot
    (resources cache : gmap string Resource) requested resource :
  let root := capture_root u domSnapshot in
  (∀ dom, domSnapshot = Some dom → dom ≠ "" →
          root = Some (createRootResource u dom))
  ∧ (domSnapshot = None → root = None)
  ∧ (∀ r, root = Some r → url r = requested →
          getResource root resources cache requested = Some r)
  ∧ ((root = None ∨ ∃ r, root = Some r ∧ url r ≠ requested) →
     (∀ r, resources !! requested = Some r →
           getResource root resources cache requested = Some r)
     ∧ (resources !! requested = None →
        getResource root resources cache requested = cache !! requested))
  ∧ (Percy.root resource = true →
     addResource resource (resources, cache) = (resources, cache))
  ∧ (Percy.root resource = false →
     addResource resource (resources, cache)
     = (<[url resource := resource]> resources,
        <[url resource := resource]> cache)
     ∧ (addResource resource (resources, cache)).1 !! url resource
       = Some resource
     ∧ (addResource resource (resources, cache)).2 !! url resource
       = Some resource
     ∧ (∀ other, other ≠ url resource →
          (addResource resource (resources, cache)).1 !! other
          = resources !! other
          ∧ (addResource resource (resources, cache)).2 !! other
            = cache !! other)).
Proof.
  intros root. split_and!.
  - intros dom -> Hne. unfold root, capture_root.
    by rewrite (proj2 (String.eqb_neq _ _) Hne).
  - by intros ->.
  - intros r Hr Hu. unfold getResource. rewrite Hr. simpl.
    rewrite decide_True; [done | by rewrite Hu].
  - intros Hroot.
    assert (url <$> root ≠ Some requested) as Hne.
    { destruct Hroot as [->|(r & -> & Hr)]; simpl; [done|]. by intros [=]. }
    unfold getResource. rewrite decide_False by done.
    split; [by intros r -> | by intros ->].
  - intros Hr. unfold addResource. by rewrite Hr.
  - intros Hr. unfold addResource. rewrite Hr. simpl. split_and!.
    + done.
    + apply lookup_insert_eq.
    + apply lookup_insert_eq.
    + intros other Hne. split; by apply lookup_insert_ne.
Qed.

(** *** Concrete runs *)

Definition percy0 : Percy := new false false true 5338 None 5.

Lemma stop_while_starting_witness :
  readiness (state [LStart] percy0) = Some Starting
  ∧ stop true (state [LStart] percy0) = (state [LStart] percy0, []).
Proof.
  assert (readiness (state [LStart] percy0) = Some Starting) as Hr
    by reflexivity.
  split; [exact Hr|].
  exact (proj1 (stop_while_starting_does_nothing false false true 5338 None 5
                  [LStart] true Hr)).
Defined.

(** Three snapshots queued, no upload running, then [stop()]: the three
    captures (each scheduling its upload) drain before any upload progress
    is reported. *)
Definition three_snapshots : list Label :=
  [LStart; LDispatch Uploads; LBuildCreated "123" "1" "https://percy.io/b/1";
   LStartResume Fulfilled; LStartResume Fulfilled; LStartResume Fulfilled;
   LSnapshot "a"; LSnapshot "b"; LSnapshot "c";
   LStop false;
   LDispatch Snapshots; LScheduleUpload "a" "a"; LCaptureDone "a";
   LDispatch Snapshots; LScheduleUpload "b" "b"; LCaptureDone "b";
   LDispatch Snapshots; LScheduleUpload "c" "c"; LCaptureDone "c";
   LStopResume Fulfilled;
   LDispatch Uploads; LUploadSettled "a" None;
   LDispatch Uploads; LUploadSettled "b" None;
   LDispatch Uploads; LUploadSettled "c" None;
   LStopResume Fulfilled; LStopResume Fulfilled; LStopResume Fulfilled;
   LStopResume Fulfilled].

Definition progress_of (E : list Effect) : list (Which * nat) :=
  omap (λ e, match e with Progress q n => Some (q, n) | _ => None end) E.

Lemma three_snapshots_example :
  progress_of (effects three_snapshots percy0)
  = [(Snapshots, 2); (Snapshots, 1); (Snapshots, 0);
     (Uploads, 2); (Uploads, 1); (Uploads, 0)]%nat
  ∧ readyState (state three_snapshots percy0) = Some 3.
Proof. vm_compute. split; reflexivity. Qed.




End PercyFacts.

(** * More facts about the protocol session *)

Module SessionFacts.
Import Page PageFacts.

(** *** The listeners of a session *)

(** The registrations of the constructor. *)
Definition own_listeners : list (string * Handler) :=
  [("Runtime.executionContextCreated", H_ExecutionContextCreated);
   ("Runtime.executionContextDestroyed", H_ExecutionContextDestroyed);
   ("Runtime.executionContextsCleared", H_ExecutionContextsCleared);
   ("Inspector.targetCrashed", H_TargetCrashed)].

Definition is_watcher (nh : string * Handler) : Prop :=
  ∃ g, nh = watcher1 g ∨ nh = watcher2 g.

(** The constructor's registrations come first and stay; what follows are
    watchers of [goto]. *)
Definition listeners_ok (p : Page) : Prop :=
  ∃ ws, listeners p = own_listeners ++ ws ∧ Forall is_watcher ws.

Lemma remove_last_app_r {A} `{EqDecision A} (x : A) (l1 l2 : list A) :
  x ∉ l1 → remove_last x (l1 ++ l2) = l1 ++ remove_last x l2.
Proof.
  induction l1 as [|y l1 IH]; simpl; [done|].
  intros [Hne Hnin]%not_elem_of_cons.
  destruct (decide (x ∈ l1 ++ l2)) as [Hin|Hout].
  - by rewrite IH.
  - rewrite decide_False by done. f_equal.
    rewrite remove_last_absent; [done|].
    intros Hin. apply Hout, elem_of_app. by right.
Qed.

Lemma watcher_not_own nh : is_watcher nh → nh ∉ own_listeners.
Proof.
  intros [g [-> | ->]] Hin; unfold own_listeners, watcher1, watcher2 in Hin;
    repeat (apply elem_of_cons in Hin as [Hin|Hin]; [done|]);
    by apply elem_of_nil in Hin.
Qed.

Lemma listeners_ok_frame p q :
  listeners q = listeners p → listeners_ok p → listeners_ok q.
Proof. intros Hl (ws & H1 & H2). exists ws. by rewrite Hl. Qed.

Lemma listeners_ok_on n h p :
  is_watcher (n, h) → listeners_ok p → listeners_ok (on n h p).
Proof.
  intros Hw (ws & H1 & H2). exists (ws ++ [(n, h)]). split.
  - change (listeners (on n h p)) with (listeners p ++ [(n, h)]).
    by rewrite H1, (assoc_L (++)).
  - apply Forall_app. split; [done|]. by apply Forall_singleton.
Qed.

Lemma listeners_ok_off n h p :
  is_watcher (n, h) → listeners_ok p → listeners_ok (off n h p).
Proof.
  intros Hw (ws & H1 & H2). exists (remove_last (n, h) ws). split.
  - change (listeners (off n h p)) with (remove_last (n, h) (listeners p)).
    rewrite H1. apply remove_last_app_r. by apply watcher_not_own.
  - rewrite Forall_forall in H2. apply Forall_forall. intros x Hx.
    by eapply H2, remove_last_elem.
Qed.

Lemma watcher1_is g : is_watcher ("Page.frameNavigated", H_FrameNavigated g).
Proof. exists g. by left. Qed.

Lemma watcher2_is g : is_watcher ("Page.lifecycleEvent", H_Lifecycle g).
Proof. exists g. by right. Qed.

Lemma run_handler_listeners_ok h e p :
  listeners_ok p → listeners_ok (run_handler h e p).1.
Proof.
  intros Hp. unfold run_handler, close.
  repeat (case_match; simpl; try done);
    first [ apply listeners_ok_off; [first [apply watcher1_is | apply watcher2_is]|];
            by eapply listeners_ok_frame
          | by eapply listeners_ok_frame ].
Qed.

Lemma run_handlers_listeners_ok hs e p :
  listeners_ok p → listeners_ok (run_handlers hs e p).1.
Proof.
  revert p. induction hs as [|h hs IH]; intros p Hp; simpl; [done|].
  pose proof (run_handler_listeners_ok h e p Hp) as H1.
  destruct (run_handler h e p) as [p1 eff1].
  pose proof (IH p1 H1) as H2.
  by destruct (run_handlers hs e p1) as [p2 eff2].
Qed.

Lemma send_listeners m ps p : listeners (send m ps p).1 = listeners p.
Proof. unfold send. simpl. by repeat case_match. Qed.

(** *** The execution context *)

Lemma run_handler_context h e p :
  contextId (run_handler h e p).1 = contextId p
  ∨ contextId (run_handler h e p).1 = None
  ∨ ∃ cid fid, e = ExecutionContextCreated cid fid
               ∧ contextId (run_handler h e p).1 = Some cid.
Proof.
  unfold run_handler, close.
  repeat (case_match; simpl; try (by left); try (by right; left)).
  right. right. by eexists _, _.
Qed.

Lemma run_handlers_context hs e p :
  contextId (run_handlers hs e p).1 = contextId p
  ∨ contextId (run_handlers hs e p).1 = None
  ∨ ∃ cid fid, e = ExecutionContextCreated cid fid
               ∧ contextId (run_handlers hs e p).1 = Some cid.
Proof.
  revert p. induction hs as [|h hs IH]; intros p; simpl; [by left|].
  pose proof (run_handler_context h e p) as H1.
  destruct (run_handler h e p) as [p1 eff1].
  pose proof (IH p1) as H2.
  destruct (run_handlers hs e p1) as [p2 eff2]. simpl in *.
  destruct H2 as [H2|[H2|H2]]; [|by right; left|by right; right].
  by rewrite H2.
Qed.

Lemma send_context m ps p : contextId (send m ps p).1 = contextId p.
Proof. unfold send. simpl. by repeat case_match. Qed.

(** *** What identifies a session, and what reaches the browser *)

Lemma run_handler_identity h e p :
  sessionId (run_handler h e p).1 = sessionId p
  ∧ targetId (run_handler h e p).1 = targetId p
  ∧ frameId (run_handler h e p).1 = frameId p.
Proof. unfold run_handler, close. by repeat (case_match; simpl). Qed.

Lemma run_handlers_identity hs e p :
  sessionId (run_handlers hs e p).1 = sessionId p
  ∧ targetId (run_handlers hs e p).1 = targetId p
  ∧ frameId (run_handlers hs e p).1 = frameId p.
Proof.
  revert p. induction hs as [|h hs IH]; intros p; simpl; [done|].
  pose proof (run_handler_identity h e p) as H1.
  destruct (run_handler h e p) as [p1 eff1].
  pose proof (IH p1) as H2.
  destruct (run_handlers hs e p1) as [p2 eff2]. simpl in *.
  destruct H1 as (? & ? & ?), H2 as (? & ? & ?). split_and!; congruence.
Qed.

Lemma send_identity m ps p :
  sessionId (send m ps p).1 = sessionId p
  ∧ targetId (send m ps p).1 = targetId p.
Proof. unfold send. simpl. by repeat case_match. Qed.

(** Effects that are messages to the browser. *)
Definition reaches_browser (e : Effect) : bool :=
  match e with
  | ESent _ _ _ | ECloseTarget _ => true
  | _ => false
  end.

Definition silent (E : list Effect) : Prop :=
  Forall (λ e, reaches_browser e = false) E.

Lemma silent_app E1 E2 : silent E1 → silent E2 → silent (E1 ++ E2).
Proof. intros. by apply Forall_app. Qed.

Lemma send_silent m ps p : browser p = None → silent (send m ps p).2.
Proof.
  intros Hb. unfold send, silent. simpl. rewrite Hb.
  destruct (truthy_str (closedReason p)); by repeat constructor.
Qed.

Lemma send_browser m ps p : browser (send m ps p).1 = browser p.
Proof. unfold send. simpl. by repeat case_match. Qed.

Lemma run_handler_silent h e p :
  browser p = None →
  silent (run_handler h e p).2 ∧ browser (run_handler h e p).1 = None.
Proof.
  intros Hb. unfold run_handler, close, silent.
  repeat (case_match; simpl in *; simplify_eq); split; try done;
    try (by repeat constructor).

Qed.

Lemma run_handlers_silent hs e p :
  browser p = None →
  silent (run_handlers hs e p).2 ∧ browser (run_handlers hs e p).1 = None.
Proof.
  revert p. induction hs as [|h hs IH]; intros p Hb; simpl;
    [by split; [constructor|]|].
  pose proof (run_handler_silent h e p Hb) as [H1 H1'].
  destruct (run_handler h e p) as [p1 eff1].
  pose proof (IH p1 H1') as [H2 H2'].
  destruct (run_handlers hs e p1) as [p2 eff2]. simpl in *.
  split; [by apply silent_app | done].
Qed.

Ltac quiet :=
  split; [unfold silent; simpl; by repeat constructor | by simpl].

Lemma silent_settles {A} (f : A → Effect) (l : list A) :
  (∀ a, reaches_browser (f a) = false) → silent (map f l).
Proof. intros Hf. apply Forall_forall. intros e (a & -> & _)%list_elem_of_fmap. apply Hf. Qed.

Section Facts.
Variable env : Env.

Lemma step_listeners_ok l p : listeners_ok p → listeners_ok (step env l p).1.
Proof.
  intros Hp. destruct l; simpl.
  - eapply listeners_ok_frame; [apply send_listeners | done].
  - unfold send_resume. case_match; simpl; [|done]. by eapply listeners_ok_frame.
  - unfold send_reject. case_match; simpl; [|done]. by eapply listeners_ok_frame.
  - unfold _handleMessage. destruct (matches_pending data p).
    + repeat (case_match; simpl; try done); by eapply listeners_ok_frame.
    + unfold emit. destruct (m_event data) as [ev|]; [|done].
      destruct (unhandled ev p); [done|].
      pose proof (run_handlers_listeners_ok (listeners_of (event_name ev) p) ev p Hp).
      by destruct (run_handlers _ ev p).
  - by eapply listeners_ok_frame.
  - unfold close. by case_match.
  - by eapply listeners_ok_frame.
  - unfold goto.
    set (q := on _ _ (on _ _ _)).
    assert (listeners_ok q) as Hq.
    { apply listeners_ok_on; [apply watcher2_is|].
      apply listeners_ok_on; [apply watcher1_is|].
      by eapply listeners_ok_frame. }
    clearbody q. unfold navigate.
    destruct (browser q) as [b|]; simpl; [|by eapply listeners_ok_frame].
    destruct (cookies b); simpl;
      match goal with |- context [send ?m ?ps ?q] =>
        pose proof (send_listeners m ps q) as Hs;
        destruct (send m ps q) as [p' eff] end; simpl in *;
      by eapply listeners_ok_frame.
  - unfold nav_resume. destruct (gotos p !! g) as [G|]; [|done].
    destruct (g_nav G), o; simpl; try done; try (by eapply listeners_ok_frame).
    + match goal with |- context [send ?m ?ps ?q] =>
        pose proof (send_listeners m ps q) as Hs;
        destruct (send m ps q) as [p' eff] end; simpl in *.
      by eapply listeners_ok_frame.
    + destruct (truthy_str errorText); by eapply listeners_ok_frame.
  - unfold poll. repeat (case_match; simpl; try done); by eapply listeners_ok_frame.
  - unfold goto_resume. destruct (gotos p !! g) as [G|]; [|done].
    destruct (g_result G); [done|]. destruct (g_all G) as [[|m]|]; simpl; [| |done].
    + by eapply listeners_ok_frame.
    + eapply listeners_ok_frame with
        (p := off "Page.lifecycleEvent" (H_Lifecycle g)
                (off "Page.frameNavigated" (H_FrameNavigated g) p)); [done|].
      apply listeners_ok_off; [apply watcher2_is|].
      apply listeners_ok_off; [apply watcher1_is|done].
  - unfold eval. destruct (serialize env fn); simpl; [|by eapply listeners_ok_frame].
    match goal with |- context [send ?m ?ps ?q] =>
        pose proof (send_listeners m ps q) as Hs;
        destruct (send m ps q) as [p' eff] end; simpl in *.
    by eapply listeners_ok_frame.
  - unfold eval_resume. repeat (case_match; simpl; try done);
      by eapply listeners_ok_frame.
Qed.

Lemma run_listeners_ok t p : listeners_ok p → listeners_ok (state env t p).
Proof.
  revert p. induction t as [|l t IH]; intros p Hp; [done|].
  rewrite state_cons. by apply IH, step_listeners_ok.
Qed.

Lemma new_page_listeners_ok b sid tid par :
  listeners_ok (new_page b sid tid par).
Proof. exists []. by split. Qed.

Lemma step_context l p :
  contextId (step env l p).1 = contextId p
  ∨ contextId (step env l p).1 = None
  ∨ ∃ data cid fid,
      l = LMessage data ∧ m_event data = Some (ExecutionContextCreated cid fid)
      ∧ contextId (step env l p).1 = Some cid.
Proof.
  destruct l; simpl.
  - left. apply send_context.
  - left. unfold send_resume. by case_match.
  - left. unfold send_reject. by case_match.
  - unfold _handleMessage. destruct (matches_pending data p).
    + left. by repeat case_match.
    + unfold emit. destruct (m_event data) as [ev|] eqn:Hev; [|by left].
      destruct (unhandled ev p); [by left|].
      pose proof (run_handlers_context (listeners_of (event_name ev) p) ev p) as H.
      destruct (run_handlers _ ev p) as [p' eff]. simpl in *.
      destruct H as [H|[H|(cid & fid & -> & H)]]; [by left | by right; left|].
      right. right. by exists data, cid, fid.
  - by left.
  - left. unfold close. by case_match.
  - by left.
  - left. unfold goto, navigate. simpl.
    destruct (browser p) as [b|]; simpl; [|done].
    destruct (cookies b); simpl;
      match goal with |- context [send ?m ?ps ?q] =>
        pose proof (send_context m ps q) as Hs;
        destruct (send m ps q) as [p' eff] end; simpl in *; done.
  - left. unfold nav_resume. destruct (gotos p !! g) as [G|]; [|done].
    destruct (g_nav G), o; simpl; try done.
    + match goal with |- context [send ?m ?ps ?q] =>
        pose proof (send_context m ps q) as Hs;
        destruct (send m ps q) as [p' eff] end; simpl in *. done.
    + by destruct (truthy_str errorText).
  - left. unfold poll. by repeat case_match.
  - left. unfold goto_resume. by repeat case_match.
  - left. unfold eval. destruct (serialize env fn); [|done].
    match goal with |- context [send ?m ?ps ?q] =>
        pose proof (send_context m ps q) as Hs;
        destruct (send m ps q) as [p' eff] end; simpl in *. done.
  - left. unfold eval_resume. by repeat case_match.
Qed.

Lemma run_context t p c :
  contextId (state env t p) = Some c →
  contextId p = Some c
  ∨ ∃ data fid, LMessage data ∈ t
                ∧ m_event data = Some (ExecutionContextCreated c fid).
Proof.
  revert p. induction t as [|l t IH]; intros p; [by left|].
  rewrite state_cons. intros [Hc|(data & fid & Hin & Hev)]%IH.
  - destruct (step_context l p) as [H|[H|(data & cid & fid & -> & Hev & H)]].
    + left. congruence.
    + congruence.
    + right. exists data, fid. split; [apply list_elem_of_here|]. congruence.
  - right. exists data, fid. split; [by apply list_elem_of_further | done].
Qed.

Lemma filter_watchers name ws :
  Forall is_watcher ws →
  name ≠ "Page.frameNavigated" → name ≠ "Page.lifecycleEvent" →
  filter (λ nh : string * Handler, nh.1 = name) ws = [].
Proof.
  intros Hws H1 H2. induction Hws as [|nh ws Hw _ IH]; [done|].
  rewrite filter_cons_False; [done|].
  destruct Hw as [g [-> | ->]]; simpl; congruence.
Qed.

Lemma listeners_of_own name p :
  listeners_ok p →
  name ≠ "Page.frameNavigated" → name ≠ "Page.lifecycleEvent" →
  listeners_of name p
  = (filter (λ nh : string * Handler, nh.1 = name) own_listeners).*2.
Proof.
  intros (ws & Hl & Hws) H1 H2. unfold listeners_of.
  by rewrite Hl, filter_app, (filter_watchers name ws Hws H1 H2), app_nil_r.
Qed.

Lemma emit_own ev p :
  listeners_ok p →
  event_name ev ≠ "Page.frameNavigated" → event_name ev ≠ "Page.lifecycleEvent" →
  event_name ev ≠ "error" →
  emit (Some ev) p =
    let r := run_handlers
               (filter (λ nh : string * Handler, nh.1 = event_name ev)
                  own_listeners).*2 ev p in
    (r.1, EEmit (Some ev) :: r.2).
Proof.
  intros Hp H1 H2 H3. unfold emit, unhandled.
  rewrite (proj2 (String.eqb_neq _ _) H3). simpl.
  rewrite (listeners_of_own _ p Hp H1 H2).
  by destruct (run_handlers _ ev p).
Qed.

(** X1: of a message that is not the response to a pending call, the
    session's execution context follows the runtime events: a context
    created for the session's frame becomes the context, a context destroyed
    is forgotten if it is the current one, and clearing forgets it; in any
    reachable state a context that is set is the id of a created-context
    event the session received. *)
Theorem context_follows_runtime_events b sid tid par t :
  let p := state env t (new_page b sid tid par) in
  (∀ c, contextId p = Some c →
        ∃ data fid, LMessage data ∈ t
                    ∧ m_event data = Some (ExecutionContextCreated c fid))
  ∧ (∀ data cid fid,
       matches_pending data p = false →
       m_event data = Some (ExecutionContextCreated cid fid) →
       contextId (_handleMessage data p).1
       = if decide (frameId p = Some fid) then Some cid else contextId p)
  ∧ (∀ data cid,
       matches_pending data p = false →
       m_event data = Some (ExecutionContextDestroyed cid) →
       contextId (_handleMessage data p).1
       = if decide (contextId p = Some cid) then None else contextId p)
  ∧ (∀ data,
       matches_pending data p = false →
       m_event data = Some ExecutionContextsCleared →
       contextId (_handleMessage data p).1 = None).
Proof.
  intros p.
  assert (listeners_ok p) as Hp by apply run_listeners_ok, new_page_listeners_ok.
  split_and!.
  - intros c Hc. by destruct (run_context t _ c Hc) as [?|?].
  - intros data cid fid Hm Hev. unfold _handleMessage. rewrite Hm, Hev.
    rewrite emit_own by done. simpl. by case_decide.
  - intros data cid Hm Hev. unfold _handleMessage. rewrite Hm, Hev.
    rewrite emit_own by done. simpl. by case_decide.
  - intros data Hm Hev. unfold _handleMessage. rewrite Hm, Hev.
    by rewrite emit_own.
Qed.

Lemma step_identity l p :
  sessionId (step env l p).1 = sessionId p
  ∧ targetId (step env l p).1 = targetId p.
Proof.
  destruct l; simpl.
  - apply send_identity.
  - unfold send_resume. by case_match.
  - unfold send_reject. by case_match.
  - unfold _handleMessage. destruct (matches_pending data p).
    + by repeat case_match.
    + unfold emit. destruct (m_event data) as [ev|]; [|done].
      destruct (unhandled ev p); [done|].
      pose proof (run_handlers_identity (listeners_of (event_name ev) p) ev p) as H.
      destruct (run_handlers _ ev p). simpl in *. by destruct H as (? & ? & ?).
  - done.
  - unfold close. by case_match.
  - done.
  - unfold goto, navigate. simpl.
    destruct (browser p) as [b|]; simpl; [|done].
    destruct (cookies b); simpl;
      match goal with |- context [send ?m ?ps ?q] =>
        pose proof (send_identity m ps q) as Hs;
        destruct (send m ps q) as [p' eff] end; simpl in *; done.
  - unfold nav_resume. destruct (gotos p !! g) as [G|]; [|done].
    destruct (g_nav G), o; simpl; try done.
    + match goal with |- context [send ?m ?ps ?q] =>
        pose proof (send_identity m ps q) as Hs;
        destruct (send m ps q) as [p' eff] end; simpl in *. done.
    + by destruct (truthy_str errorText).
  - unfold poll. by repeat case_match.
  - unfold goto_resume. by repeat case_match.
  - unfold eval. destruct (serialize env fn); [|done].
    match goal with |- context [send ?m ?ps ?q] =>
        pose proof (send_identity m ps q) as Hs;
        destruct (send m ps q) as [p' eff] end; simpl in *. done.
  - unfold eval_resume. by repeat case_match.
Qed.

Lemma run_identity t p :
  sessionId (state env t p) = sessionId p
  ∧ targetId (state env t p) = targetId p.
Proof.
  revert p. induction t as [|l t IH]; intros p; [done|].
  rewrite state_cons. destruct (IH (step env l p).1) as [-> ->].
  apply step_identity.
Qed.

Lemma step_silent l p :
  browser p = None →
  silent (step env l p).2 ∧ browser (step env l p).1 = None.
Proof.
  intros Hb. destruct l; simpl.
  - split; [by apply send_silent | by rewrite send_browser].
  - unfold send_resume. case_match; quiet.
  - unfold send_reject. case_match; quiet.
  - unfold _handleMessage. destruct (matches_pending data p).
    + repeat (case_match; simpl); quiet.
    + unfold emit. destruct (m_event data) as [ev|]; [|quiet].
      destruct (unhandled ev p); [quiet|].
      pose proof (run_handlers_silent (listeners_of (event_name ev) p) ev p Hb)
        as [H1 H2].
      destruct (run_handlers _ ev p). simpl in *. split; [|done].
      by constructor.
  - split; [|done]. unfold _handleClose. simpl. by apply silent_settles.
  - unfold close. rewrite Hb. quiet.
  - quiet.
  - unfold goto, navigate. simpl. rewrite Hb. simpl. quiet.
  - unfold nav_resume. destruct (gotos p !! g) as [G|]; [|quiet].
    destruct (g_nav G), o; simpl; try quiet.
    + pose proof (send_silent "Page.navigate" (VObj [("url", VStr (g_url G))]) p Hb).
      pose proof (send_browser "Page.navigate" (VObj [("url", VStr (g_url G))]) p).
      destruct (send _ _ p). simpl in *. split; [done | congruence].
    + destruct (truthy_str errorText); quiet.
  - unfold poll. repeat case_match; quiet.
  - unfold goto_resume. repeat case_match; quiet.
  - unfold eval. destruct (serialize env fn); [|quiet].
    match goal with |- context [send ?m ?ps ?q] =>
        pose proof (send_silent m ps q Hb);
        pose proof (send_browser m ps q);
        destruct (send m ps q) as [p' eff] end; simpl in *.
    split; [done | congruence].
  - unfold eval_resume. repeat case_match; quiet.
Qed.

Lemma run_silent t p :
  browser p = None → silent (effects env t p) ∧ browser (state env t p) = None.
Proof.
  revert p. induction t as [|l t IH]; intros p Hb; [quiet|].
  rewrite effects_cons, state_cons.
  destruct (step_silent l p Hb) as [H1 H2]. destruct (IH _ H2) as [H3 H4].
  split; [by apply silent_app | done].
Qed.

(** X2: once [_handleClose] has run, the session never sends anything to
    the browser again, whatever is called on it: no protocol message and no
    request to close the target; [close()] does nothing at all. *)
Theorem closed_session_stays_silent b sid tid par t1 t2 :
  let p := state env (t1 ++ [LClose]) (new_page b sid tid par) in
  browser (state env t2 p) = None
  ∧ (∀ e, e ∈ effects env t2 p →
          (∀ s m ps, e ≠ ESent s m ps) ∧ (∀ target, e ≠ ECloseTarget target))
  ∧ close (state env t2 p) = (state env t2 p, []).
Proof.
  intros p.
  assert (browser p = None) as Hb by (unfold p; by rewrite state_app).
  destruct (run_silent t2 p Hb) as [Hs Hb2]. split_and!; [done| |].
  - intros e He. unfold silent in Hs. rewrite Forall_forall in Hs.
    specialize (Hs e He). split; intros; intros ->; done.
  - unfold close. by rewrite Hb2.
Qed.

(** *** A crash *)

Lemma step_crashed l p :
  session_ok p → closedReason p = Some page_crashed →
  closedReason (step env l p).1 = Some page_crashed.
Proof.
  intros Hp Hc. pose proof (close_reason_cases p Hp) as [_ Hcr].
  destruct (step_reason_change env l p) as [[H _]|[[H _]|[_ [H _]]]];
    rewrite H; [done | done |]. by rewrite (Hcr _ Hc).
Qed.

Lemma run_crashed t p :
  session_ok p → closedReason p = Some page_crashed →
  closedReason (state env t p) = Some page_crashed.
Proof.
  revert p. induction t as [|l t IH]; intros p Hp Hc; [done|].
  rewrite state_cons. apply IH; [|by apply step_crashed].
  eapply reason_change_ok; [apply step_reason_change | done].
Qed.

(** X3: when the target crashes, the session records "Page crashed!" and
    asks the browser to close its target (if it still has a browser); the
    pending calls are left pending.  From then on the reason stays "Page
    crashed!": every later [send] is refused with it, and so are the calls
    that [_handleClose] rejects. *)
Theorem crash_reason_sticks b sid tid par t t2 :
  let p := state env t (new_page b sid tid par) in
  let p1 := (_handleMessage (event TargetCrashed) p).1 in
  let p2 := state env t2 p1 in
  (_handleMessage (event TargetCrashed) p).2
  = EEmit (Some TargetCrashed)
      :: match browser p with
         | Some _ => [EDebug "Page closing"; ECloseTarget tid]
         | None => []
         end
  ∧ callbacks p1 = callbacks p ∧ awaiting p1 = awaiting p
  ∧ closedReason p2 = Some "Page crashed!"
  ∧ (∀ m ps,
       (send m ps p2).2
       = [ESettle (next_slot p2)
            (Rejected (protocol_error m "Page crashed!"))])
  ∧ (_handleClose p2).2
    = map (λ callback,
             ESettle (cb_slot callback)
               (Rejected (protocol_error (cb_method callback) "Page crashed!")))
        (JsMap.values (callbacks p2)).
Proof.
  intros p p1 p2.
  assert (listeners_ok p) as Hl by apply run_listeners_ok, new_page_listeners_ok.
  assert (session_ok p) as Hp by apply run_session_ok, new_page_session_ok.
  assert (targetId p = tid) as Ht by apply (run_identity t (new_page b sid tid par)).
  assert (_handleMessage (event TargetCrashed) p
          = (set_closedReason (Some "Page crashed!") p,
             EEmit (Some TargetCrashed)
               :: match browser p with
                  | Some _ => [EDebug "Page closing"; ECloseTarget tid]
                  | None => []
                  end)) as Hm.
  { unfold _handleMessage.
    change (matches_pending (event TargetCrashed) p) with false.
    change (m_event (event TargetCrashed)) with (Some TargetCrashed).
    cbv iota. rewrite emit_own by done. simpl.
    unfold close. simpl. rewrite Ht. by destruct (browser p). }
  assert (session_ok p1) as Hp1.
  { unfold p1. change (_handleMessage (event TargetCrashed) p)
      with (step env (LMessage (event TargetCrashed)) p).
    eapply reason_change_ok; [apply step_reason_change | done]. }
  assert (closedReason p1 = Some page_crashed) as Hc1 by (unfold p1; by rewrite Hm).
  assert (session_ok p2) as Hp2 by by apply run_session_ok.
  assert (closedReason p2 = Some page_crashed) as Hc2 by by apply run_crashed.
  split_and!.
  - by rewrite Hm.
  - unfold p1. by rewrite Hm.
  - unfold p1. by rewrite Hm.
  - done.
  - intros m ps. by rewrite (send_closed m ps p2 page_crashed Hp2 Hc2).
  - unfold _handleClose, close_reason. by rewrite Hc2.
Qed.

(** *** Navigating a closed session, and cookies *)

Lemma off_last (ls : list (string * Handler)) x y :
  x ∉ ls → y ∉ ls → x ≠ y →
  remove_last y (remove_last x ((ls ++ [x]) ++ [y])) = ls.
Proof.
  intros Hx Hy Hne. rewrite <-(assoc_L (++)).
  rewrite (remove_last_app_r x ls) by done. simpl.
  rewrite (decide_False (P := x ∈ [y]))
    by (by intros ->%list_elem_of_singleton).
  rewrite (decide_True (P := x = x)) by done.
  rewrite (remove_last_app_r y ls) by done. simpl.
  rewrite (decide_True (P := y = y)) by done. apply app_nil_r.
Qed.

(** X5: [goto] on a session that [_handleClose] has closed sends nothing.
    It fails as soon as it resumes, not with the close reason but with the
    TypeError of reading [cookies] of the browser reference that is gone,
    prefixed "Navigation failed: "; both watchers are removed again, so the
    listeners are what they were. *)
Theorem goto_on_closed_session_fails b sid tid par t1 t2 url waitUntil now :
  let p := state env (t1 ++ LClose :: t2) (new_page b sid tid par) in
  let g := length (gotos p) in
  let t := [LGoto url waitUntil now; LGotoResume g] in
  effects env t p = [EDebug ("Navigate to: " +:+ url)]
  ∧ g_result <$> gotos (state env t p) !! g
    = Some (Some (Fail ("Navigation failed: " +:+ null_deref "cookies")))
  ∧ listeners (state env t p) = listeners p.
Proof.
  intros p g t.
  assert (browser p = None) as Hb.
  { unfold p. rewrite state_app, state_cons. by apply run_silent. }
  assert (nav_ok p) as [Hnd Hbound _] by apply run_nav_ok, new_page_nav_ok.
  assert (watcher1 g ∉ listeners p) as H1.
  { intros Hin. assert (g < g)%nat; [|lia]. eapply Hbound. by left. }
  assert (watcher2 g ∉ listeners p) as H2.
  { intros Hin. assert (g < g)%nat; [|lia]. eapply Hbound. by right. }
  unfold t, effects, state. simpl. unfold goto, navigate. simpl. rewrite Hb.
  simpl. unfold goto_resume, update_goto. simpl. fold g.
  rewrite list_lookup_alter_eq, lookup_app_r, Nat.sub_diag by done. simpl.
  rewrite list_lookup_alter_eq, list_lookup_alter_eq, lookup_app_r, Nat.sub_diag
    by done.
  simpl. split_and!; [done..|].
  by apply off_last.
Qed.

Lemma run_browser t p :
  browser (state env t p) = browser p ∨ browser (state env t p) = None.
Proof.
  revert p. induction t as [|l t IH]; intros p; [by left|].
  rewrite state_cons.
  destruct (IH (step env l p).1) as [H|H]; [|by right]. rewrite H.
  destruct (step_reason_change env l p) as [[_ H']|[[_ H']|[_ [_ H']]]]; auto.
Qed.

(** X6: with cookies configured, [goto] on an open session first sends
    them, and only them: [Network.setCookies] with a copy of each cookie in
    which a cookie that has neither a url nor a domain gets the hostname of
    the target URL as its domain and every other cookie is unchanged.
    [Page.navigate] is sent when that call has resolved; if it is rejected,
    nothing more is sent and the navigation fails with its message. *)
Theorem cookies_are_set_before_navigating b sid tid par t url waitUntil now :
  let p := state env t (new_page b sid tid par) in
  let g := length (gotos p) in
  let p1 := (goto env url waitUntil now p).1 in
  closedReason p = None → cookies b ≠ [] →
  sent (goto env url waitUntil now p).2
  = [(sid, "Network.setCookies",
      VObj [("cookies",
             VArr (map (λ c, cookie_value (scope_cookie (hostname env url) c))
                     (cookies b)))])]
  ∧ (∀ c, scope_cookie (hostname env url) c
          = if truthy_str (cookie_url c) || truthy_str (cookie_domain c) then c
            else {| cookie_url := cookie_url c;
                    cookie_domain := Some (hostname env url);
                    cookie_name := cookie_name c |})
  ∧ (∀ errorText,
       sent (nav_resume g (NavResolved errorText) p1).2
       = [(sid, "Page.navigate", VObj [("url", VStr url)])])
  ∧ (∀ m,
       sent (nav_resume g (NavRejected m) p1).2 = []
       ∧ g_navigate <$> gotos (nav_resume g (NavRejected m) p1).1 !! g
         = Some (Some (Fail m))).
Proof.
  intros p g p1 Hc Hck.
  assert (session_ok p) as Hp by apply run_session_ok, new_page_session_ok.
  assert (sessionId p = sid) as Hs by apply (run_identity t (new_page b sid tid par)).
  assert (browser p = Some b) as Hb.
  { destruct (run_browser t (new_page b sid tid par)) as [H|H]; [done|].
    destruct (session_ok_open p Hp Hc) as [b' Hb']. unfold p in Hb'. congruence. }
  destruct (cookies b) as [|c0 cs] eqn:Hcs; [done|].
  assert (goto env url waitUntil now p
          = (update_goto g (set_nav (NavCookies (next_slot p)))
               (set_awaiting (awaiting p ++ [(next_slot p, "Network.setCookies")])
                  (set_next_slot (S (next_slot p))
                     (on "Page.lifecycleEvent" (H_Lifecycle g)
                        (on "Page.frameNavigated" (H_FrameNavigated g)
                           (set_gotos
                              (gotos p ++
                               [{| g_url := url; g_waitUntil := waitUntil;
                                   g_start := now; g_finished1 := false;
                                   g_finished2 := false; g_nav := NavReturned;
                                   g_navigate := None; g_waitFor := None;
                                   g_all := None; g_result := None |}]) p))))),
             [EDebug ("Navigate to: " +:+ url);
              ESent sid "Network.setCookies"
                (VObj [("cookies",
                        VArr (map (λ c, cookie_value
                                          (scope_cookie (hostname env url) c))
                                (c0 :: cs)))])])) as Hgoto.
  { unfold goto, navigate. simpl. rewrite Hb, Hcs. unfold send. simpl.
    rewrite Hc, Hb, Hs. done. }
  split_and!.
  - by rewrite Hgoto.
  - intros c. unfold scope_cookie.
    by destruct (truthy_str (cookie_url c)), (truthy_str (cookie_domain c)).
  - intros errorText. unfold p1. rewrite Hgoto. simpl.
    unfold nav_resume, update_goto. simpl. fold g.
    rewrite list_lookup_alter_eq, lookup_app_r, Nat.sub_diag by done. simpl.
    unfold send. simpl. rewrite Hc, Hb, Hs. done.
  - intros m. unfold p1. rewrite Hgoto. simpl.
    unfold nav_resume, update_goto. simpl. fold g.
    rewrite list_lookup_alter_eq, lookup_app_r, Nat.sub_diag by done. simpl.
    rewrite list_lookup_alter_eq, list_lookup_alter_eq, lookup_app_r, Nat.sub_diag
      by done.
    done.
Qed.

(** *** Calls, whatever ids the transport hands out *)

(** X14: whatever ids the transport hands out, also ids it has handed out
    before, no promise that [send] returned is ever settled twice, and a
    promise that has been settled is no longer pending: the promises settled
    so far and the promises still outstanding are distinct promises that
    [send] created. *)
Theorem no_promise_is_settled_twice b sid tid par t :
  let p := state env t (new_page b sid tid par) in
  let E := effects env t (new_page b sid tid par) in
  NoDup (settled E ++ outstanding p)
  ∧ (∀ k, k ∈ settled E ++ outstanding p → (k < next_slot p)%nat)
  ∧ (∀ k o o', ESettle k o ∈ E → ESettle k o' ∈ E →
       ∃ E1 E2, E = E1 ++ ESettle k o :: E2
                ∧ (∀ o'', ESettle k o'' ∉ E1 ++ E2) ∧ o' = o).
Proof.
  intros p E.
  assert (settled E ++ outstanding p ⊆+ seq 0 (next_slot p)) as Hs.
  { apply (run_slots env t (new_page b sid tid par) []);
      [apply new_page_calls_ok | done]. }
  assert (NoDup (settled E ++ outstanding p)) as Hnd.
  { eapply submseteq_NoDup; [exact Hs | apply NoDup_seq]. }
  split_and!; [done| |].
  - intros k Hk. eapply elem_of_submseteq in Hk; [|exact Hs].
    apply elem_of_seq in Hk. lia.
  - intros k o o' Hin Hin'.
    apply NoDup_app in Hnd as (Hnd & _ & _).
    apply list_elem_of_split in Hin as (E1 & E2 & HE).
    exists E1, E2. split; [done|].
    assert (∀ o'', ESettle k o'' ∉ E1 ++ E2) as Hnot.
    { intros o'' Hin. rewrite HE, settled_app in Hnd. simpl in Hnd.
      apply NoDup_app in Hnd as (_ & Hdisj & [Hk _]%NoDup_cons).
      apply elem_of_app in Hin as [Hin|Hin].
      - apply (Hdisj k); [by eapply elem_of_settled | apply list_elem_of_here].
      - apply Hk. by eapply elem_of_settled. }
    split; [done|].
    rewrite HE in Hin'. apply elem_of_app in Hin' as [Hin'|Hin'].
    + destruct (Hnot o'). apply elem_of_app. by left.
    + apply elem_of_cons in Hin' as [[= ->]|Hin']; [done|].
      destruct (Hnot o'). apply elem_of_app. by right.
Qed.

Lemma run_lost t p k :
  calls_ok p → (k < next_slot p)%nat → k ∉ outstanding p →
  (k ∉ settled (effects env t p)) ∧ (k ∉ outstanding (state env t p)).
Proof.
  revert p. induction t as [|l t IH]; intros p Hp Hlt Hout.
  - split; [apply not_elem_of_nil | done].
  - rewrite state_cons, effects_cons, settled_app.
    assert (calls_ok (step env l p).1) as Hp'.
    { eapply slot_change_ok; [apply step_slot_change | done]. }
    destruct (step_slots env l p Hp) as [Hle Hs].
    assert (k ∉ settled (step env l p).2 ++ outstanding (step env l p).1) as Hk.
    { intros Hin. eapply elem_of_submseteq in Hin; [|exact Hs].
      apply elem_of_app in Hin as [Hin|Hin]; [done|].
      apply elem_of_seq in Hin. lia. }
    destruct (IH (step env l p).1) as [H1 H2]; [done | lia | |].
    + intros Hin. apply Hk, elem_of_app. by right.
    + split; [|done]. intros [Hin|Hin]%elem_of_app; [|done].
      apply Hk, elem_of_app. by left.
Qed.

(** X15: if the transport answers a [send] with an id under which another
    call of the session is still pending, the new call takes the entry and
    the earlier call is lost: its promise is no longer pending and is never
    settled, neither by a response nor when the session closes. *)
Theorem reused_id_loses_the_earlier_call b sid tid par t k id method earlier t2 :
  let p := state env t (new_page b sid tid par) in
  let p' := (send_resume k id p).1 in
  JsMap.get k (awaiting p) = Some method →
  JsMap.get id (callbacks p) = Some earlier →
  JsMap.get id (callbacks p') = Some {| cb_slot := k; cb_method := method |}
  ∧ cb_slot earlier ∈ outstanding p
  ∧ (cb_slot earlier ∉ outstanding p')
  ∧ (∀ o, ESettle (cb_slot earlier) o ∉ effects env t2 p')
  ∧ (cb_slot earlier ∉ outstanding (state env t2 p')).
Proof.
  intros p p' Hk Hid.
  destruct (reachable_ok env b sid tid par t) as [Hc _]. fold p in Hc.
  assert (p' = set_callbacks
                 (JsMap.set id {| cb_slot := k; cb_method := method |}
                    (callbacks p))
                 (set_awaiting (JsMap.delete k (awaiting p)) p)) as Hp'.
  { unfold p', send_resume. by rewrite Hk. }
  assert (calls_ok p') as Hc'.
  { unfold p'. change (send_resume k id p) with (step env (LSendResume k id) p).
    eapply slot_change_ok; [apply step_slot_change | done]. }
  destruct Hc as [Hnd Hb Hkeys].
  assert (cb_slot earlier ∈ outstanding p) as Hin.
  { apply elem_of_app. right. apply list_elem_of_fmap. exists earlier.
    split; [done|]. apply JsMapFacts.get_Some_elem in Hid.
    apply list_elem_of_fmap. by exists (id, earlier). }
  assert (k ∈ (awaiting p).*1) as Hka.
  { apply JsMapFacts.get_Some_elem in Hk. apply list_elem_of_fmap.
    by exists (k, method). }
  assert (cb_slot earlier ≠ k) as Hne.
  { intros Heq. unfold outstanding in Hnd.
    apply NoDup_app in Hnd as (_ & Hdisj & _). apply (Hdisj k Hka).
    rewrite <-Heq. apply list_elem_of_fmap. exists earlier. split; [done|].
    apply JsMapFacts.get_Some_elem in Hid. apply list_elem_of_fmap.
    by exists (id, earlier). }
  destruct (JsMapFacts.delete_split id earlier (callbacks p) Hkeys Hid)
    as (C1 & C2 & HC & HD).
  assert ((id ∉ C1.*1) ∧ (id ∉ C2.*1)) as [HC1 HC2].
  { unfold JsMap.keys in Hkeys. rewrite HC, fmap_app in Hkeys. simpl in Hkeys.
    apply NoDup_app in Hkeys as (_ & Hd & [? _]%NoDup_cons). split; [|done].
    intros Hx. apply (Hd id Hx). apply list_elem_of_here. }
  assert (JsMap.set id {| cb_slot := k; cb_method := method |} (callbacks p)
          = C1 ++ (id, {| cb_slot := k; cb_method := method |}) :: C2) as Hset.
  { rewrite HC. clear -HC1. induction C1 as [|[k' v'] C1 IH]; simpl.
    - by rewrite decide_True.
    - apply not_elem_of_cons in HC1 as [? ?]. rewrite decide_False by done.
      by rewrite IH. }
  assert (cb_slot earlier ∉ outstanding p') as Hout.
  { rewrite Hp'. unfold outstanding. simpl. rewrite Hset.
    unfold outstanding in Hnd. rewrite HC in Hnd.
    unfold JsMap.values in *. rewrite !fmap_app in *. simpl in *.
    rewrite ?fmap_app in Hnd. simpl in Hnd.
    apply NoDup_app in Hnd as (_ & Hdisj & Hnd2).
    apply NoDup_app in Hnd2 as (_ & Hd2 & [Hn2 _]%NoDup_cons).
    intros [[Hx _]%keys_delete_elem|Hx]%elem_of_app.
    - apply (Hdisj _ Hx). apply elem_of_app. right. apply list_elem_of_here.
    - apply elem_of_app in Hx as [Hx|Hx].
      + apply (Hd2 _ Hx). apply list_elem_of_here.
      + apply elem_of_cons in Hx as [Hx|Hx]; [done|]. done. }
  split_and!; [|done|done| |].
  - rewrite Hp'. simpl. apply JsMapFacts.get_set_eq.
  - intros o Ho. apply elem_of_settled in Ho.
    destruct (run_lost t2 p' (cb_slot earlier) Hc') as [H1 _]; [|done|done].
    rewrite Hp'. simpl. by apply Hb.
  - destruct (run_lost t2 p' (cb_slot earlier) Hc') as [_ H2]; [|done|done].
    rewrite Hp'. simpl. by apply Hb.
Qed.

End Facts.

(** A browser with two cookies, one of them not scoped. *)
Definition cookie_jar : Browser :=
  {| cookies :=
       [{| cookie_url := None; cookie_domain := None; cookie_name := "session" |};
        {| cookie_url := Some "http://a.test/"; cookie_domain := None;
           cookie_name := "a" |}] |}.

Lemma cookies_before_navigating_witness :
  sent (goto env0 "http://localhost/" "load" 0
          (state env0 [] (new_page cookie_jar "S1" "T1" None))).2
  = [("S1", "Network.setCookies",
      VObj [("cookies",
             VArr [VObj [("name", VStr "session"); ("url", VUndefined);
                         ("domain", VStr "http://localhost/")];
                   VObj [("name", VStr "a"); ("url", VStr "http://a.test/");
                         ("domain", VUndefined)]])])].
Proof.
  pose proof (cookies_are_set_before_navigating env0 cookie_jar "S1" "T1" None
                [] "http://localhost/" "load" 0 eq_refl) as H.
  destruct H as [H _]; [discriminate|]. exact H.
Defined.

(** The transport answers the second call with the id of the first. *)
Definition reused_id : list Label :=
  [LSend "Page.enable" VUndefined; LSendResume 0 7;
   LSend "Page.getFrameTree" VUndefined].

Lemma reused_id_witness :
  JsMap.get 1%nat (awaiting (state env0 reused_id page0))
  = Some "Page.getFrameTree"
  ∧ JsMap.get 7 (callbacks (state env0 reused_id page0))
    = Some {| cb_slot := 0; cb_method := "Page.enable" |}
  ∧ (∀ o, ESettle 0 o
          ∉ effects env0 [LMessage (response 7 (VStr "tree")); LClose]
              (send_resume 1 7 (state env0 reused_id page0)).1).
Proof.
  assert (JsMap.get 1%nat (awaiting (state env0 reused_id page0))
          = Some "Page.getFrameTree") as H1 by reflexivity.
  assert (JsMap.get 7 (callbacks (state env0 reused_id page0))
          = Some {| cb_slot := 0; cb_method := "Page.enable" |}) as H2
    by reflexivity.
  split; [exact H1|]. split; [exact H2|].
  destruct (reused_id_loses_the_earlier_call env0 {| cookies := [] |} "S1" "T1"
              None reused_id 1 7 "Page.getFrameTree"
              {| cb_slot := 0; cb_method := "Page.enable" |}
              [LMessage (response 7 (VStr "tree")); LClose] H1 H2)
    as (_ & _ & _ & H & _).
  exact H.
Defined.

End SessionFacts.

Module NavigationFacts.
Import Page PageFacts SessionFacts.

(** *** What makes a navigation succeed *)

(** [Promise.all] fulfilled only with [navigate()] fulfilled. *)
Definition all_navigated (G : Goto) : Prop :=
  g_all G = Some Ok → g_navigate G = Some Ok.

(** What one event, handled while the session's frame is [frame], can have
    done to an activation of [goto]. *)
Record after_event (e : Event) (frame : option string) (G G' : Goto)
  : Prop := {
  ev_waitUntil : g_waitUntil G' = g_waitUntil G;
  ev_navigate : g_navigate G' = g_navigate G;
  ev_all : g_all G' = g_all G;
  ev_nav : g_nav G' = g_nav G;
  ev_finished1 :
    g_finished1 G' = true →
    g_finished1 G = true
    ∨ ∃ fid, e = FrameNavigated fid ∧ frame = Some fid;
  ev_finished2 :
    g_finished2 G' = true →
    g_finished2 G = true
    ∨ ∃ fid, e = LifecycleEvent fid (g_waitUntil G) ∧ frame = Some fid
}.

Lemma after_event_refl e frame G : after_event e frame G G.
Proof. split; auto. Qed.

Lemma after_event_trans e frame G1 G2 G3 :
  after_event e frame G1 G2 → after_event e frame G2 G3 →
  after_event e frame G1 G3.
Proof.
  intros [A1 A2 A3 A6 A4 A5] [B1 B2 B3 B6 B4 B5]. split; try congruence.
  - intros H. destruct (B4 H) as [?|?]; auto.
  - intros H. destruct (B5 H) as [?|(fid & He & Hf)]; auto.
    right. exists fid. by rewrite <-A1.
Qed.

Definition gotos_after_event (e : Event) (frame : option string)
    (gs gs' : list Goto) : Prop :=
  length gs' = length gs
  ∧ ∀ g G', gs' !! g = Some G' →
      ∃ G, gs !! g = Some G ∧ after_event e frame G G'.

Lemma gotos_after_event_refl e frame gs : gotos_after_event e frame gs gs.
Proof.
  split; [done|]. intros g G HG. exists G. split; [done|apply after_event_refl].
Qed.

Lemma gotos_after_event_trans e frame gs1 gs2 gs3 :
  gotos_after_event e frame gs1 gs2 → gotos_after_event e frame gs2 gs3 →
  gotos_after_event e frame gs1 gs3.
Proof.
  intros [L1 H1] [L2 H2]. split; [congruence|].
  intros g G3 HG3. destruct (H2 g G3 HG3) as (G2 & HG2 & A2).
  destruct (H1 g G2 HG2) as (G1 & HG1 & A1).
  exists G1. split; [done | by eapply after_event_trans].
Qed.

Lemma gotos_after_event_alter e frame f g gs :
  (∀ G, gs !! g = Some G → after_event e frame G (f G)) →
  gotos_after_event e frame gs (alter f g gs).
Proof.
  intros Hf. split; [apply length_alter|].
  intros g' G'. destruct (decide (g = g')) as [<-|Hne].
  - rewrite list_lookup_alter_eq. destruct (gs !! g) as [G|] eqn:HG; [|done].
    intros [= <-]. exists G. split; [done | by apply Hf].
  - rewrite list_lookup_alter_ne by done. intros HG. exists G'.
    split; [done | apply after_event_refl].
Qed.

Lemma run_handler_after h e p :
  gotos_after_event e (frameId p) (gotos p) (gotos (run_handler h e p).1).
Proof.
  destruct h as [| | | |g0|g0], e as [cid fid|cid| | |fid|fid name|m ps];
    simpl; try apply gotos_after_event_refl;
    try (case_decide; simpl; apply gotos_after_event_refl).
  - unfold close. simpl. case_match; apply gotos_after_event_refl.
  - unfold close. simpl. case_match; apply gotos_after_event_refl.
  - unfold close. simpl. case_match; apply gotos_after_event_refl.
  - unfold close. simpl. case_match; apply gotos_after_event_refl.
  - unfold close. simpl. case_match; apply gotos_after_event_refl.
  - unfold close. simpl. case_match; apply gotos_after_event_refl.
  - unfold close. simpl. case_match; apply gotos_after_event_refl.
  - case_decide; simpl; [|apply gotos_after_event_refl].
    apply gotos_after_event_alter. intros G0 HG0. split; simpl; auto.
    intros _. right. by exists fid.
  - destruct (gotos p !! g0) as [G|] eqn:HG; [|apply gotos_after_event_refl].
    destruct (bool_decide (frameId p = Some fid) && String.eqb name (g_waitUntil G))
      eqn:Hc; simpl; [|apply gotos_after_event_refl].
    apply andb_prop in Hc as [Hf%bool_decide_eq_true Hn%String.eqb_eq].
    apply gotos_after_event_alter. intros G0 HG0.
    assert (G0 = G) as -> by congruence.
    split; simpl; auto. intros _. right. exists fid. by subst.
Qed.

Lemma run_handlers_after hs e p :
  gotos_after_event e (frameId p) (gotos p) (gotos (run_handlers hs e p).1).
Proof.
  revert p. induction hs as [|h hs IH]; intros p; simpl;
    [apply gotos_after_event_refl|].
  pose proof (run_handler_after h e p) as H1.
  pose proof (run_handler_identity h e p) as (_ & _ & Hf).
  destruct (run_handler h e p) as [p1 eff1].
  pose proof (IH p1) as H2.
  destruct (run_handlers hs e p1) as [p2 eff2]. simpl in *.
  rewrite Hf in H2. by eapply gotos_after_event_trans.
Qed.

(** [Promise.all] is fulfilled only with [navigate()] fulfilled, and
    [navigate()] is settled once it has returned. *)
Record goto_inv (G : Goto) : Prop := {
  inv_all : g_all G = Some Ok → g_navigate G = Some Ok;
  inv_nav : g_nav G ≠ NavReturned → g_navigate G = None
}.

(** What one segment, run while the session's frame is [frame], can have
    done to activation [g] of [goto]. *)
Record after_step (l : Label) (frame : option string) (g : nat)
    (G G' : Goto) : Prop := {
  st_waitUntil : g_waitUntil G' = g_waitUntil G;
  st_finished1 :
    g_finished1 G' = true →
    g_finished1 G = true
    ∨ ∃ data fid, l = LMessage data ∧ m_event data = Some (FrameNavigated fid)
                  ∧ frame = Some fid;
  st_finished2 :
    g_finished2 G' = true →
    g_finished2 G = true
    ∨ ∃ data fid,
        l = LMessage data
        ∧ m_event data = Some (LifecycleEvent fid (g_waitUntil G))
        ∧ frame = Some fid;
  st_navigate :
    g_navigate G' = Some Ok →
    g_navigate G = Some Ok
    ∨ ∃ errorText k, l = LNavResume g (NavResolved errorText)
                     ∧ truthy_str errorText = false
                     ∧ g_nav G = NavNavigate k;
  st_inv : goto_inv G → goto_inv G'
}.

Definition fresh_goto (G : Goto) : Prop :=
  g_finished1 G = false ∧ g_finished2 G = false ∧ g_navigate G ≠ Some Ok
  ∧ goto_inv G.

Definition gotos_after_step (l : Label) (frame : option string)
    (gs gs' : list Goto) : Prop :=
  ∀ g G', gs' !! g = Some G' →
    (∃ G, gs !! g = Some G ∧ after_step l frame g G G')
    ∨ (gs !! g = None ∧ fresh_goto G').

Lemma after_step_refl l frame g G : after_step l frame g G G.
Proof. split; auto. Qed.

Lemma gotos_after_step_refl l frame gs : gotos_after_step l frame gs gs.
Proof.
  intros g G HG. left. exists G. split; [done | apply after_step_refl].
Qed.

Lemma gotos_after_step_event data e frame gs gs' :
  m_event data = Some e → gotos_after_event e frame gs gs' →
  gotos_after_step (LMessage data) frame gs gs'.
Proof.
  intros He [_ H] g G' HG'. left.
  destruct (H g G' HG') as (G & HG & [A1 A2 A3 A6 A4 A5]).
  exists G. split; [done|]. split.
  - done.
  - intros Hf. destruct (A4 Hf) as [?|(fid & -> & ?)]; [by left|].
    right. by exists data, fid.
  - intros Hf. destruct (A5 Hf) as [?|(fid & -> & ?)]; [by left|].
    right. by exists data, fid.
  - intros Hn. left. congruence.
  - intros [I1 I2]. split; rewrite ?A3, ?A2, ?A6; done.
Qed.

Lemma gotos_after_step_alter l frame f g gs :
  (∀ G, gs !! g = Some G → after_step l frame g G (f G)) →
  gotos_after_step l frame gs (alter f g gs).
Proof.
  intros Hf g' G'. destruct (decide (g = g')) as [<-|Hne].
  - rewrite list_lookup_alter_eq. destruct (gs !! g) as [G|] eqn:HG; [|done].
    intros [= <-]. left. exists G. split; [done | by apply Hf].
  - rewrite list_lookup_alter_ne by done. intros HG. left. exists G'.
    split; [done | apply after_step_refl].
Qed.

(** [navigate()] has not settled. *)
Definition navigating (G : Goto) : Prop :=
  g_nav G ≠ NavReturned ∨ g_navigate G = None.

Lemma navigating_none G : navigating G → goto_inv G → g_navigate G = None.
Proof. intros [?|?] [_ I2]; auto. Qed.

Lemma after_step_set_nav l frame g pc G :
  navigating G → after_step l frame g G (set_nav pc G).
Proof.
  intros Hpc. split; simpl; auto. intros HI.
  pose proof (navigating_none G Hpc HI) as Hn. destruct HI as [I1 I2].
  split; simpl; auto.
Qed.

Lemma after_step_fail l frame g m G :
  navigating G → after_step l frame g G (settle_navigate (Fail m) G).
Proof.
  intros Hpc. unfold settle_navigate, all_settle. simpl.
  split; try (destruct (g_all G) as [[|a]|] eqn:Ha; simpl; auto; done).
  intros HI. pose proof (navigating_none G Hpc HI) as Hn. destruct HI as [I1 I2].
  destruct (g_all G) as [[|a]|] eqn:Ha; simpl.
  - specialize (I1 eq_refl). congruence.
  - split; simpl; [by rewrite Ha | done].
  - split; simpl; done.
Qed.

Lemma after_step_ok l frame g errorText k G :
  l = LNavResume g (NavResolved errorText) → truthy_str errorText = false →
  g_nav G = NavNavigate k →
  after_step l frame g G (settle_navigate Ok G).
Proof.
  intros Hl He Hk. unfold settle_navigate, all_settle. simpl.
  split.
  - by repeat (case_match; simpl).
  - by repeat (case_match; simpl; auto).
  - by repeat (case_match; simpl; auto).
  - intros _. right. by exists errorText, k.
  - intros [I1 I2]. split; repeat (case_match; simpl; auto); done.
Qed.

Lemma settle_waitFor_fields d G :
  g_waitUntil (settle_waitFor d G) = g_waitUntil G
  ∧ g_finished1 (settle_waitFor d G) = g_finished1 G
  ∧ g_finished2 (settle_waitFor d G) = g_finished2 G
  ∧ g_navigate (settle_waitFor d G) = g_navigate G
  ∧ g_nav (settle_waitFor d G) = g_nav G.
Proof. unfold settle_waitFor, all_settle. simpl. by repeat case_match. Qed.

Lemma after_step_waitFor l frame g d G :
  after_step l frame g G (settle_waitFor d G).
Proof.
  destruct (settle_waitFor_fields d G) as (F1 & F2 & F3 & F4 & F5).
  split; rewrite ?F1, ?F2, ?F3, ?F4; auto.
  intros [I1 I2]. split; rewrite ?F4, ?F5; [|done].
  unfold settle_waitFor, all_settle. simpl.
  repeat (case_match; simpl; auto); try congruence.
  intros Hx. apply I1. congruence.
Qed.

Lemma after_step_result l frame g d G : after_step l frame g G (set_result d G).
Proof. split; simpl; auto. intros [I1 I2]. by split. Qed.

Lemma gotos_after_step_new l frame f gs G0 :
  fresh_goto (f G0) →
  gotos_after_step l frame gs (alter f (length gs) (gs ++ [G0])).
Proof.
  intros Hf g G'. destruct (decide (length gs = g)) as [<-|Hne].
  - rewrite list_lookup_alter_eq, lookup_app_r, Nat.sub_diag by done. simpl.
    intros [= <-]. right. split; [|done]. by apply lookup_ge_None_2.
  - rewrite list_lookup_alter_ne by done. intros HG.
    assert (g < length (gs ++ [G0]))%nat as Hlt by by eapply lookup_lt_Some.
    rewrite length_app in Hlt. simpl in Hlt.
    rewrite lookup_app_l in HG by lia.
    left. exists G'. split; [done | apply after_step_refl].
Qed.

Section Facts.
Variable env : Env.

Ltac same := simpl; first [apply gotos_after_step_refl | done].

Lemma step_gotos_after l p :
  gotos_after_step l (frameId p) (gotos p) (gotos (step env l p).1).
Proof.
  destruct l; simpl.
  - destruct (send_nav method params p) as [_ ->]. apply gotos_after_step_refl.
  - unfold send_resume. case_match; same.
  - unfold send_reject. case_match; same.
  - unfold _handleMessage. destruct (matches_pending data p).
    + repeat case_match; same.
    + unfold emit. destruct (m_event data) as [ev|] eqn:Hev; [|same].
      destruct (unhandled ev p); [same|].
      pose proof (run_handlers_after (listeners_of (event_name ev) p) ev p) as H.
      destruct (run_handlers _ ev p) as [p' eff]. simpl in *.
      by eapply gotos_after_step_event.
  - same.
  - unfold close. case_match; same.
  - same.
  - unfold goto, navigate. simpl. destruct (browser p) as [b'|]; simpl.
    + destruct (cookies b'); simpl;
        match goal with |- context [send ?m ?ps ?q] =>
          pose proof (send_nav m ps q) as [Hl Hg];
          destruct (send m ps q) as [q' eff] end; simpl in *;
        rewrite Hg; apply gotos_after_step_new; by repeat split.
    + apply gotos_after_step_new. by repeat split.
  - unfold nav_resume. destruct (gotos p !! g) as [G|] eqn:HG; [|same].
    destruct (g_nav G) eqn:Hnav, o; simpl; try apply gotos_after_step_refl.
    + apply gotos_after_step_alter. intros G0 HG0.
      assert (G0 = G) as -> by congruence.
      apply after_step_fail. left. by rewrite Hnav.
    + match goal with |- context [send ?m ?ps ?q] =>
          pose proof (send_nav m ps q) as [Hl Hg];
          destruct (send m ps q) as [q' eff] end; simpl in *.
      rewrite Hg. apply gotos_after_step_alter. intros G0 HG0.
      assert (G0 = G) as -> by congruence.
      apply after_step_set_nav. left. by rewrite Hnav.
    + apply gotos_after_step_alter. intros G0 HG0.
      assert (G0 = G) as -> by congruence.
      apply after_step_fail. left. by rewrite Hnav.
    + destruct (truthy_str errorText) eqn:He; simpl;
        apply gotos_after_step_alter; intros G0 HG0;
        assert (G0 = G) as -> by congruence.
      * apply after_step_fail. left. by rewrite Hnav.
      * by eapply after_step_ok.
  - unfold poll. destruct (gotos p !! g) as [G|] eqn:HG; [|same].
    destruct (g_waitFor G) eqn:Hw; [same|].
    destruct (waitFor_poll env _ _ _) as [d|]; [|same].
    simpl. apply gotos_after_step_alter. intros. apply after_step_waitFor.
  - unfold goto_resume. destruct (gotos p !! g) as [G|] eqn:HG; [|same].
    destruct (g_result G) eqn:Hr; [same|].
    destruct (g_all G) as [[|m]|] eqn:Ha; simpl; [| |same];
      apply gotos_after_step_alter; intros; apply after_step_result.
  - unfold eval. destruct (serialize env fn); [|same].
    match goal with |- context [send ?m ?ps ?q] =>
          pose proof (send_nav m ps q) as [Hl Hg];
          destruct (send m ps q) as [q' eff] end; simpl in *.
    rewrite Hg. apply gotos_after_step_refl.
  - unfold eval_resume. repeat case_match; same.
Qed.

(** *** The call [navigate()] awaited *)

Lemma scheduled_app t1 t2 p E :
  scheduled env (t1 ++ t2) p E
  ↔ scheduled env t1 p E
    ∧ scheduled env t2 (state env t1 p) (E ++ effects env t1 p).
Proof.
  revert p E. induction t1 as [|l t1 IH]; intros p E.
  - unfold state, effects. simpl. rewrite app_nil_r. tauto.
  - simpl. rewrite IH, state_cons, effects_cons, (assoc_L (++)). tauto.
Qed.

(** A promise of [send] is fulfilled only by the response to its call. *)
Lemma resolved_by_response t p0 k res :
  session_ok p0 → ESettle k (Resolved res) ∈ effects env t p0 →
  ∃ t1 data t2 id callback,
    t = t1 ++ LMessage data :: t2
    ∧ m_id data = Some id ∧ id ≠ 0
    ∧ JsMap.get id (callbacks (state env t1 p0)) = Some callback
    ∧ cb_slot callback = k
    ∧ m_error data = None ∧ m_result data = res.
Proof.
  intros H0. induction t as [|l t IH] using rev_ind.
  - by intros ?%elem_of_nil.
  - rewrite effects_app. intros [Hin|Hin]%elem_of_app.
    + destruct (IH Hin) as (t1 & data & t2 & id & cb & -> & ?).
      exists t1, data, (t2 ++ [l]), id, cb.
      split; [|done]. by rewrite <-(assoc_L (++)).
    + rewrite effects_cons in Hin. unfold effects in Hin. simpl in Hin.
      rewrite app_nil_r in Hin.
      assert (session_ok (state env t p0)) as Hs by by apply run_session_ok.
      destruct (step_settles env l _ k _ Hs Hin)
        as [data id cb -> Hid Hz Hg Hk Ho| | |]; [|done..].
      unfold response_outcome in Ho.
      destruct (m_error data) eqn:He; [done|]. injection Ho as ->.
      by exists t, data, [], id, cb.
Qed.

Lemma slot_change_next l p p' eff :
  slot_change l p p' eff → (next_slot p ≤ next_slot p')%nat.
Proof. intros []; lia. Qed.

Lemma run_next_slot t p : (next_slot p ≤ next_slot (state env t p))%nat.
Proof.
  revert p. induction t as [|l t IH]; intros p; [done|].
  rewrite state_cons.
  pose proof (slot_change_next _ _ _ _ (step_slot_change env l p)).
  specialize (IH (step env l p).1). lia.
Qed.

Lemma g_nav_settle_navigate d G : g_nav (settle_navigate d G) = NavReturned.
Proof. unfold settle_navigate, all_settle. simpl. by repeat case_match. Qed.

(** An activation that awaits [Page.navigate] as a call issued before this
    segment did so before the segment. *)
Lemma step_nav_back l p g G' k :
  gotos (step env l p).1 !! g = Some G' → g_nav G' = NavNavigate k →
  (k < next_slot p)%nat →
  ∃ G, gotos p !! g = Some G ∧ g_nav G = NavNavigate k.
Proof.
  intros HG' Hk Hlt.
  assert (∀ q, gotos q = gotos p →
               gotos q !! g = Some G' →
               ∃ G, gotos p !! g = Some G ∧ g_nav G = NavNavigate k) as Hsame.
  { intros q Hq HG. rewrite Hq in HG. by exists G'. }
  assert (∀ gs (f : Goto → Goto) g0,
            gs = gotos p →
            (∀ G, g_nav (f G) = g_nav G ∨ g_nav (f G) = NavReturned
                  ∨ g_nav (f G) = NavNavigate (next_slot p)
                  ∨ ∃ k', g_nav (f G) = NavCookies k') →
            alter f g0 gs !! g = Some G' →
            ∃ G, gotos p !! g = Some G ∧ g_nav G = NavNavigate k) as Halter.
  { intros gs f g0 -> Hf HG.
    destruct (decide (g0 = g)) as [->|Hne].
    - rewrite list_lookup_alter_eq in HG.
      destruct (gotos p !! g) as [G|] eqn:HGp; [|done].
      injection HG as <-. exists G. split; [done|].
      destruct (Hf G) as [H|[H|[H|[k' H]]]]; rewrite H in Hk;
        [done|done| |done].
      injection Hk as <-. lia.
    - rewrite list_lookup_alter_ne in HG by done. by exists G'. }
  revert HG'. destruct l; simpl.
  - apply Hsame, send_nav.
  - unfold send_resume. case_match; by apply Hsame.
  - unfold send_reject. case_match; by apply Hsame.
  - unfold _handleMessage. destruct (matches_pending data p).
    + repeat case_match; by apply Hsame.
    + unfold emit. destruct (m_event data) as [ev|]; [|by apply Hsame].
      destruct (unhandled ev p); [by apply Hsame|].
      pose proof (run_handlers_after (listeners_of (event_name ev) p) ev p)
        as [_ H].
      destruct (run_handlers _ ev p) as [p' eff]. simpl in *.
      intros HG. destruct (H g G' HG) as (G & HGp & [_ _ _ Hnav _ _]).
      exists G. split; [done|]. congruence.
  - by apply Hsame.
  - unfold close. case_match; by apply Hsame.
  - by apply Hsame.
  - unfold goto, navigate. simpl.
    assert (∀ (f : Goto → Goto) G0,
              (g_nav (f G0) = NavReturned
               ∨ g_nav (f G0) = NavNavigate (next_slot p)
               ∨ ∃ k', g_nav (f G0) = NavCookies k') →
              alter f (length (gotos p)) (gotos p ++ [G0]) !! g = Some G' →
              ∃ G, gotos p !! g = Some G ∧ g_nav G = NavNavigate k) as Hnew.
    { intros f G0 Hf HG.
      destruct (decide (length (gotos p) = g)) as [<-|Hne].
      - rewrite list_lookup_alter_eq, lookup_app_r, Nat.sub_diag in HG by done.
        simpl in HG. injection HG as <-.
        destruct Hf as [H|[H|[k' H]]]; rewrite H in Hk; [done| |done].
        injection Hk as <-. lia.
      - rewrite list_lookup_alter_ne in HG by done.
        assert (g < length (gotos p ++ [G0]))%nat as Hl
          by by eapply lookup_lt_Some.
        rewrite length_app in Hl. simpl in Hl.
        rewrite lookup_app_l in HG by lia. by exists G'. }
    destruct (browser p) as [b'|]; simpl.
    + destruct (cookies b'); simpl;
        match goal with |- context [send ?m ?ps ?q] =>
          pose proof (send_nav m ps q) as [Hl Hg];
          destruct (send m ps q) as [q' eff] end; simpl in *;
        rewrite Hg; apply Hnew; simpl; eauto.
    + apply Hnew. left. apply g_nav_settle_navigate.
  - unfold nav_resume. destruct (gotos p !! g0) as [G|] eqn:HG; [|by apply Hsame].
    destruct (g_nav G) eqn:Hnav, o; simpl; try (by apply Hsame).
    + apply Halter; [done|]. intros. right. left. apply g_nav_settle_navigate.
    + match goal with |- context [send ?m ?ps ?q] =>
          pose proof (send_nav m ps q) as [Hl Hg];
          destruct (send m ps q) as [q' eff] end; simpl in *.
      apply Halter; [done|]. intros. simpl. eauto.
    + apply Halter; [done|]. intros. right. left. apply g_nav_settle_navigate.
    + destruct (truthy_str errorText); simpl;
        (apply Halter; [done|]); intros; right; left;
        apply g_nav_settle_navigate.
  - unfold poll. destruct (gotos p !! g0) as [G|]; [|by apply Hsame].
    destruct (g_waitFor G); [by apply Hsame|].
    destruct (waitFor_poll env _ _ _) as [d|]; [|by apply Hsame].
    simpl. apply Halter; [done|]. intros G0. left.
    by destruct (settle_waitFor_fields d G0) as (_ & _ & _ & _ & ?).
  - unfold goto_resume. destruct (gotos p !! g0) as [G|]; [|by apply Hsame].
    destruct (g_result G); [by apply Hsame|].
    destruct (g_all G) as [[|m]|]; simpl; [| |by apply Hsame];
      (apply Halter; [done|]); intros; simpl; by left.
  - unfold eval. destruct (serialize env fn); [|by apply Hsame].
    match goal with |- context [send ?m ?ps ?q] =>
          pose proof (send_nav m ps q) as [Hl Hg];
          destruct (send m ps q) as [q' eff] end; simpl in *.
    by apply Hsame.
  - unfold eval_resume. repeat case_match; by apply Hsame.
Qed.

Lemma state_snoc t l p : state env (t ++ [l]) p = (step env l (state env t p)).1.
Proof. by rewrite state_app, state_cons. Qed.

Lemma run_nav_back t2 t1 p0 g G k :
  gotos (state env (t1 ++ t2) p0) !! g = Some G → g_nav G = NavNavigate k →
  (k < next_slot (state env t1 p0))%nat →
  ∃ G1, gotos (state env t1 p0) !! g = Some G1 ∧ g_nav G1 = NavNavigate k.
Proof.
  revert G. induction t2 as [|l t2 IH] using rev_ind; intros G HG Hk Hlt.
  - rewrite app_nil_r in HG. by exists G.
  - rewrite (assoc_L (++)), state_snoc in HG.
    destruct (step_nav_back l _ g G k HG Hk) as (G2 & HG2 & Hk2).
    + rewrite state_app. pose proof (run_next_slot t2 (state env t1 p0)). lia.
    + by eapply IH.
Qed.

(** The response that let [navigate()] of activation [g] return. *)
Definition navigate_answered (p0 : Page) (t : list Label) (g : nat) : Prop :=
  ∃ t1 data t2 id callback,
    t = t1 ++ LMessage data :: t2
    ∧ g_nav <$> gotos (state env t1 p0) !! g
      = Some (NavNavigate (cb_slot callback))
    ∧ m_id data = Some id ∧ id ≠ 0
    ∧ JsMap.get id (callbacks (state env t1 p0)) = Some callback
    ∧ m_error data = None
    ∧ truthy (errorText_of (m_result data)) = false.

Lemma says_no_errorText v errorText :
  errorText_says v (NavResolved errorText) →
  truthy_str errorText = false → truthy v = false.
Proof.
  unfold errorText_says.
  destruct v as [| |c|n|text|items|fields]; simpl; intros H He; try done.
  - destruct c; [by destruct H | done].
  - destruct (n =? 0); [done | by destruct H].
  - by simplify_eq.
  - by destruct H.
  - by destruct H.
Qed.

Lemma nav_says_resolved k out errorText :
  nav_says (NavNavigate k) out (NavResolved errorText) →
  truthy_str errorText = false →
  ∃ res, out = Resolved res ∧ truthy (errorText_of res) = false.
Proof.
  destruct out as [res|[m|v]]; cbn [nav_says]; [|done..].
  intros Hs He. exists res. split; [done|].
  destruct res; try done; by eapply says_no_errorText.
Qed.

(** What the trace [t] holds for an activation of [goto]. *)
Record goto_history (p0 : Page) (t : list Label) (g : nat) (G : Goto)
  : Prop := {
  hist_inv : goto_inv G;
  hist_finished1 :
    g_finished1 G = true →
    ∃ t1 data t2 fid,
      t = t1 ++ LMessage data :: t2
      ∧ m_event data = Some (FrameNavigated fid)
      ∧ frameId (state env t1 p0) = Some fid;
  hist_finished2 :
    g_finished2 G = true →
    ∃ t1 data t2 fid,
      t = t1 ++ LMessage data :: t2
      ∧ m_event data = Some (LifecycleEvent fid (g_waitUntil G))
      ∧ frameId (state env t1 p0) = Some fid;
  hist_navigate :
    g_navigate G = Some Ok → scheduled env t p0 [] → navigate_answered p0 t g
}.

Lemma run_goto_history t p0 :
  gotos p0 = [] → calls_ok p0 → session_ok p0 →
  ∀ g G, gotos (state env t p0) !! g = Some G → goto_history p0 t g G.
Proof.
  intros H0 Hc0 Hs0. induction t as [|l t IH] using rev_ind; intros g G'.
  - unfold state. simpl. by rewrite H0, lookup_nil.
  - rewrite state_snoc. intros HG'.
    destruct (step_gotos_after l (state env t p0) g G' HG')
      as [(G & HG & [S1 S2 S3 S4 S5])|(_ & F1 & F2 & F3 & F4)].
    + destruct (IH g G HG) as [I0 I1 I2 I3]. split.
      * by apply S5.
      * intros Hf. destruct (S2 Hf) as [Hold|(data & fid & -> & Hev & Hfr)].
        -- destruct (I1 Hold) as (t1 & data & t2 & fid & -> & ? & ?).
           exists t1, data, (t2 ++ [l]), fid.
           split; [|done]. by rewrite <-(assoc_L (++)).
        -- by exists t, data, [], fid.
      * intros Hf. rewrite S1.
        destruct (S3 Hf) as [Hold|(data & fid & -> & Hev & Hfr)].
        -- destruct (I2 Hold) as (t1 & data & t2 & fid & -> & ? & ?).
           exists t1, data, (t2 ++ [l]), fid.
           split; [|done]. by rewrite <-(assoc_L (++)).
        -- by exists t, data, [], fid.
      * intros Hn [Hsch Hl]%scheduled_app.
        destruct (S4 Hn) as [Hold|(e & k & -> & He & Hk)].
        -- destruct (I3 Hold Hsch)
             as (t1 & data & t2 & id & cb & -> & ?).
           exists t1, data, (t2 ++ [l]), id, cb.
           split; [|done]. by rewrite <-(assoc_L (++)).
        -- simpl in Hl. destruct Hl as [Hl _].
           destruct (Hl G k HG) as (out & Hin & Hsays); [by rewrite Hk|].
           rewrite Hk in Hsays.
           destruct (nav_says_resolved k out e Hsays He) as (res & -> & Hres).
           destruct (resolved_by_response t p0 k res Hs0 Hin)
             as (t1 & data & t2 & id & cb & -> & Hid & Hz & Hg & Hcb & Her & Hr).
           assert (k < next_slot (state env t1 p0))%nat as Hlt.
           { apply (calls_bound _ (run_calls_ok env t1 p0 Hc0)).
             apply elem_of_app. right. apply list_elem_of_fmap.
             exists cb. split; [done|].
             apply JsMapFacts.get_Some_elem in Hg. apply list_elem_of_fmap.
             by exists (id, cb). }
           destruct (run_nav_back (LMessage data :: t2) t1 p0 g G k HG Hk Hlt)
             as (G1 & HG1 & Hk1).
           exists t1, data, (t2 ++ [LNavResume g (NavResolved e)]), id, cb.
           split_and!; try done.
           ++ by rewrite <-(assoc_L (++)).
           ++ rewrite HG1. simpl. by rewrite Hk1, Hcb.
           ++ by rewrite Hr.
    + split; [done|..]; congruence.
Qed.

(** X23: a [goto] succeeds only after the navigation it waited for.  The
    session has received a [Page.frameNavigated] event for its own frame
    and a [Page.lifecycleEvent] for its own frame whose name is the
    [waitUntil] of that [goto].  And, in a trace in which [navigate()]
    resumes only when the call it awaits has settled, the [Page.navigate]
    call of that [goto] was answered: a response without error arrived for
    the pending call that [navigate()] of that [goto] was awaiting as its
    [Page.navigate] call, and the result has no [errorText]. *)
Theorem goto_succeeds_only_after_its_events b sid tid par t g G :
  let p0 := new_page b sid tid par in
  gotos (state env t p0) !! g = Some G →
  g_result G = Some Ok →
  (∃ t1 data t2 fid,
     t = t1 ++ LMessage data :: t2
     ∧ m_event data = Some (FrameNavigated fid)
     ∧ frameId (state env t1 p0) = Some fid)
  ∧ (∃ t1 data t2 fid,
       t = t1 ++ LMessage data :: t2
       ∧ m_event data = Some (LifecycleEvent fid (g_waitUntil G))
       ∧ frameId (state env t1 p0) = Some fid)
  ∧ (scheduled env t p0 [] →
     ∃ t1 data t2 id callback,
       t = t1 ++ LMessage data :: t2
       ∧ g_nav <$> gotos (state env t1 p0) !! g
         = Some (NavNavigate (cb_slot callback))
       ∧ m_id data = Some id ∧ id ≠ 0
       ∧ JsMap.get id (callbacks (state env t1 p0)) = Some callback
       ∧ m_error data = None
       ∧ truthy (errorText_of (m_result data)) = false).
Proof.
  intros p0 HG Hok.
  assert (nav_ok (state env t p0)) as Hn by apply run_nav_ok, new_page_nav_ok.
  destruct (gotos_ok _ Hn g G HG) as [_ _ F3 F4 F5 _].
  pose proof (F5 Hok) as Hall. destruct (F3 (F4 Hall)) as [H1 H2].
  destruct (run_goto_history t p0 eq_refl (new_page_calls_ok b sid tid par)
              (new_page_session_ok b sid tid par) g G HG)
    as [[I1 _] A1 A2 A3].
  split_and!; [auto..|].
  intros Hsch. apply A3; [by apply I1 | done].
Qed.

End Facts.

(** Both events arrive, in a session whose frame is "F", and the
    [Page.navigate] call is answered. *)
Definition navigated : list Label :=
  [LFrameTree "F"; LGoto "http://localhost/" "load" 0; LSendResume 0 1;
   LMessage (response 1 (VObj [("frameId", VStr "F")]));
   LNavResume 0 (NavResolved None);
   LMessage (event (LifecycleEvent "F" "init"));
   LMessage (event (FrameNavigated "F"));
   LMessage (event (LifecycleEvent "F" "load"));
   LPoll 0 10; LGotoResume 0].

Definition navigated_goto : Goto :=
  {| g_url := "http://localhost/"; g_waitUntil := "load"; g_start := 0;
     g_finished1 := true; g_finished2 := true; g_nav := NavReturned;
     g_navigate := Some Ok; g_waitFor := Some Ok; g_all := Some Ok;
     g_result := Some Ok |}.

Lemma navigated_scheduled : scheduled env0 navigated page0 [].
Proof.
  simpl. split_and!; try done.
  intros G k [= <-] [= <-].
  exists (Resolved (VObj [("frameId", VStr "F")])). split; [|done].
  apply list_elem_of_further, list_elem_of_further, list_elem_of_here.
Qed.

Lemma goto_success_witness :
  gotos (state env0 navigated page0) !! 0%nat = Some navigated_goto
  ∧ ∃ t1 data t2 id callback,
      navigated = t1 ++ LMessage data :: t2
      ∧ g_nav <$> gotos (state env0 t1 page0) !! 0%nat
        = Some (NavNavigate (cb_slot callback))
      ∧ m_id data = Some id ∧ id ≠ 0
      ∧ JsMap.get id (callbacks (state env0 t1 page0)) = Some callback
      ∧ m_error data = None
      ∧ truthy (errorText_of (m_result data)) = false.
Proof.
  assert (gotos (state env0 navigated page0) !! 0%nat = Some navigated_goto)
    as HG by (vm_compute; reflexivity).
  split; [exact HG|].
  destruct (goto_succeeds_only_after_its_events env0 {| cookies := [] |}
              "S1" "T1" None navigated 0 navigated_goto HG eq_refl)
    as (_ & _ & H).
  exact (H navigated_scheduled).
Defined.

End NavigationFacts.

(** * Facts about the rest of page.js *)

Module PageRestFacts.
Import Page PageFacts PageRest.

Lemma substring_all s : String.substring 0 (String.length s) s = s.
Proof. induction s as [|c s IH]; simpl; [done | by rewrite IH]. Qed.

Lemma length_append s1 s2 :
  String.length (s1 +:+ s2) = (String.length s1 + String.length s2)%nat.
Proof. induction s1 as [|c s1 IH]; simpl; [done | by rewrite IH]. Qed.

Lemma substring_append s1 s2 :
  String.substring (String.length s1) (String.length s2) (s1 +:+ s2) = s2.
Proof. induction s1 as [|c s1 IH]; simpl; [apply substring_all | done]. Qed.

Lemma endsWith_append s1 s2 : endsWith (s1 +:+ s2) s2 = true.
Proof.
  unfold endsWith. rewrite length_append.
  replace (String.length s1 + String.length s2 - String.length s2)%nat
    with (String.length s1) by lia.
  rewrite substring_append, String.eqb_refl, andb_true_r.
  apply Nat.leb_le. lia.
Qed.

Lemma append_assoc s1 s2 s3 : (s1 +:+ s2) +:+ s3 = s1 +:+ (s2 +:+ s3).
Proof.
  induction s1 as [|c s1 IH]; [done|].
  change (String c ((s1 +:+ s2) +:+ s3) = String c (s1 +:+ (s2 +:+ s3))).
  by f_equal.
Qed.

Lemma protocol_error_ends method reason :
  ∃ message, protocol_error method reason = Error message
             ∧ endsWith message reason = true.
Proof.
  unfold protocol_error. eexists. split; [done|].
  rewrite <-!append_assoc. apply endsWith_append.
Qed.

Section Facts.
Variable env : Env.

(** X16: [_handleCloseRace] keeps the errors that closing causes out of the
    log: for a rejection that [send] gives on a closed session and for every
    rejection [_handleClose] hands out, the promise it returns is fulfilled
    and nothing is logged.  A fulfilled promise passes through, and the
    rejection with an [Error] always ends fulfilled: it is logged unless its
    message ends with the close reason (with "null" on an open session). *)
Theorem close_race_silences_close_errors b sid tid par t :
  let p := state env t (new_page b sid tid par) in
  (∀ method params k e,
     ESettle k (Rejected e) ∈ (send method params p).2 →
     _handleCloseRace (Rejected e) (send method params p).1
     = (Resolved VUndefined, None))
  ∧ (∀ k e,
       ESettle k (Rejected e) ∈ (_handleClose p).2 →
       _handleCloseRace (Rejected e) (_handleClose p).1
       = (Resolved VUndefined, None))
  ∧ (∀ v, _handleCloseRace (Resolved v) p = (Resolved v, None))
  ∧ (∀ message,
       _handleCloseRace (Rejected (Error message)) p
       = (Resolved VUndefined,
          if endsWith message (default "null" (closedReason p)) then None
          else Some (Error message))).
Proof.
  intros p. destruct (reachable_ok env b sid tid par t) as [_ Hs]. fold p in Hs.
  split_and!.
  - intros method params k e Hin.
    destruct (closedReason p) as [reason|] eqn:Hr.
    + rewrite (send_closed method params p reason Hs Hr) in Hin.
      rewrite (send_closed method params p reason Hs Hr).
      cbn [fst snd] in *.
      apply list_elem_of_singleton in Hin. injection Hin as _ ->.
      destruct (protocol_error_ends method reason) as (message & -> & He).
      unfold _handleCloseRace, reason_text. simpl. by rewrite Hr, He.
    + rewrite (send_open method params p Hs Hr) in Hin. simpl in Hin.
      by apply list_elem_of_singleton in Hin.
  - intros k e Hin. unfold _handleClose in *. cbn [fst snd] in *.
    apply list_elem_of_fmap in Hin as (cb & [= _ ->] & _).
    destruct (protocol_error_ends (cb_method cb) (close_reason p))
      as (message & -> & He).
    unfold _handleCloseRace, reason_text. simpl. by rewrite He.
  - done.
  - intros message. unfold _handleCloseRace, reason_text. simpl.
    destruct (closedReason p); simpl; by case_match.
Qed.

(** X17: a script given to [snapshot] as text is wrapped as the method
    shorthand [async execute({ waitFor }) { ... }], which is no expression;
    [eval] therefore rewrites it, and what is evaluated in the page is the
    async function expression named [execute] with that text as its body
    (given that the parser refuses the shorthand and accepts the function). *)
Theorem script_text_becomes_async_function execute args p :
  let rewritten :=
    "async function execute({ waitFor }) {" +:+ newline +:+ execute
    +:+ newline +:+ "}" in
  parses env ("(" +:+ execute_text execute +:+ ")") = false →
  parses env ("(" +:+ rewritten +:+ ")") = true →
  serialize env (execute_text execute) = Some rewritten
  ∧ eval env (execute_text execute) args p = eval env rewritten args p.
Proof.
  intros rewritten Hno Hyes.
  assert (serialize env (execute_text execute) = Some rewritten) as Hs.
  { unfold serialize. rewrite Hno.
    change (String.prefix "async " (execute_text execute)) with true.
    cbv iota.
    assert ("async function"
            +:+ String.substring 5 (String.length (execute_text execute) - 5)
                  (execute_text execute) = rewritten) as ->.
    { unfold rewritten.
      set (rest := newline +:+ execute +:+ newline +:+ "}").
      change (execute_text execute)
        with ("async" +:+ (" execute({ waitFor }) {" +:+ rest)).
      rewrite length_append.
      replace (String.length "async" + String.length (" execute({ waitFor }) {" +:+ rest) - 5)%nat
        with (String.length (" execute({ waitFor }) {" +:+ rest))
        by (simpl; lia).
      change 5%nat with (String.length "async").
      by rewrite substring_append. }
    by rewrite Hyes. }
  split; [done|].
  unfold eval. rewrite Hs. unfold serialize. by rewrite Hyes.
Qed.

End Facts.

Lemma script_text_witness :
  serialize env0 (execute_text "return document.title")
  = Some ("async function execute({ waitFor }) {" +:+ newline
          +:+ "return document.title" +:+ newline +:+ "}").
Proof.
  exact (proj1 (script_text_becomes_async_function env0 "return document.title"
                  [] page0 eq_refl eq_refl)).
Defined.

End PageRestFacts.

(** * More facts about the orchestrator *)

Module LifecycleFacts.
Import Percy PercyFacts.

(** *** What start and stop do to the browser, the server and the build *)

Definition is_launch (e : Effect) : bool :=
  match e with Launch => true | _ => false end.
Definition is_listen (e : Effect) : bool :=
  match e with Listen _ => true | _ => false end.
Definition is_server_close (e : Effect) : bool :=
  match e with ServerClose => true | _ => false end.
Definition is_browser_close (e : Effect) : bool :=
  match e with BrowserClose => true | _ => false end.
Definition is_finalize (e : Effect) : bool :=
  match e with FinalizeBuild _ => true | _ => false end.

(** How often effects of one kind occur. *)
Definition times (kind : Effect → bool) (E : list Effect) : nat :=
  length (filter (λ e, kind e = true) E).

Lemma times_app kind E1 E2 : times kind (E1 ++ E2) = (times kind E1 + times kind E2)%nat.
Proof. unfold times. by rewrite filter_app, length_app. Qed.

(** Whether an action of [start()] or [stop()] can still happen, by where
    the two stand. *)
Definition may_launch (s : Percy) : bool :=
  match start_pc s with
  | StartIdle | StartAwaitBuild => true
  | _ => false
  end.

Definition may_listen (s : Percy) : bool :=
  match start_pc s with
  | StartIdle | StartAwaitBuild | StartAwaitLaunch => true
  | _ => false
  end.

Definition before_teardown (s : Percy) : bool :=
  match stop_pc s with
  | StopIdle | StopAwaitSnapshots | StopAwaitUploads => true
  | _ => false
  end.

Definition may_close_server (s : Percy) : bool :=
  match start_pc s with
  | StartCatchServer _ _ | StartCatchBrowser _ _ => false
  | StartReturned =>
      before_teardown s
      && (bool_decide (readyState s = Some 1)
          || bool_decide (readyState s = Some 2))
  | _ => true
  end.

Definition may_close_browser (s : Percy) : bool :=
  match start_pc s with
  | StartCatchBrowser _ _ => false
  | StartReturned =>
      (before_teardown s
       || match stop_pc s with StopAwaitServer => true | _ => false end)
      && (bool_decide (readyState s = Some 1)
          || bool_decide (readyState s = Some 2))
  | _ => true
  end.

Definition may_finalize (s : Percy) : bool :=
  match stop_pc s with
  | StopAwaitFinalize | StopReturned => false
  | _ => true
  end.

(** An action that can no longer happen does not, and one that can happens
    at most once and then no longer can. *)
Definition budget (kind : Effect → bool) (may : Percy → bool) : Prop :=
  ∀ l s, lifecycle_ok s →
    (times kind (step l s).2 ≤ if may s then 1 else 0)%nat
    ∧ (may (step l s).1 = true → may s = true ∧ times kind (step l s).2 = 0%nat).

Lemma budget_run kind may t s :
  budget kind may → percy_ok s →
  (times kind (effects t s) ≤ if may s then 1 else 0)%nat.
Proof.
  intros Hb. revert s. induction t as [|l t IH]; intros s Hs.
  - unfold effects, times. simpl. destruct (may s); lia.
  - rewrite percy_effects_cons, times_app.
    destruct (Hb l s (ok_lifecycle s Hs)) as [H1 H2].
    pose proof (IH _ (step_ok l s Hs)) as H3.
    destruct (may (step l s).1) eqn:Hm.
    + destruct (H2 eq_refl) as [-> ->]. lia.
    + destruct (may s); lia.
Qed.

(** The effects of [start()] and [stop()] on the browser, the server and
    the build; no other segment has any. *)
Definition is_lifecycle (e : Effect) : bool :=
  match e with
  | Launch | Listen _ | ServerClose | BrowserClose | FinalizeBuild _ => true
  | _ => false
  end.

Lemma quiet_effects l s e :
  quiet l = true → e ∈ (step l s).2 → is_lifecycle e = false.
Proof.
  intros Hq. destruct l; try done; break_step;
    rewrite ?elem_of_app, ?elem_of_cons, ?elem_of_nil; intros Hin;
    repeat (destruct Hin as [Hin|Hin]); subst; try done;
    repeat match goal with
           | H : _ ∈ _ ++ _ |- _ => apply elem_of_app in H as [H|H]
           | H : _ ∈ _ :: _ |- _ => apply elem_of_cons in H as [H|H]
           | H : _ ∈ [] |- _ => by apply elem_of_nil in H
           end; subst; done.
Qed.

Lemma times_none kind E : (∀ e, e ∈ E → kind e = false) → times kind E = 0%nat.
Proof.
  unfold times. induction E as [|e E IH]; intros H; [done|].
  rewrite filter_cons_False.
  - apply IH. intros e' He'. apply H. by apply list_elem_of_further.
  - rewrite (H e) by apply list_elem_of_here. done.
Qed.

Lemma quiet_times kind l s :
  (∀ e, kind e = true → is_lifecycle e = true) →
  quiet l = true → times kind (step l s).2 = 0%nat.
Proof.
  intros Hk Hq. apply times_none. intros e He.
  pose proof (quiet_effects l s e Hq He) as Hl.
  destruct (kind e) eqn:Hke; [|done]. by rewrite (Hk e Hke) in Hl.
Qed.

Ltac budget_tac :=
  intros l s [A B C];
  destruct (quiet l) eqn:Hq;
  [ rewrite quiet_times by (done || by intros []);
    destruct (quiet_same l s Hq) as (H1 & H2 & H3);
    rewrite ?H1, ?H2, ?H3; split; [case_match; lia | done]
  | destruct l; try done; break_step; unfold times; simpl in *; known_fields;
    simpl in *; z_bools; repeat case_bool_decide; simplify_eq; simpl;
    try (split; [lia | by intros ?]);
    try (split; [lia | done]);
    try (intuition (first [congruence | lia]));
    try (exfalso; destruct_or!; simplify_eq; lia) ].

Lemma budget_launch : budget is_launch may_launch.
Proof. unfold budget, may_launch. budget_tac. Qed.

Lemma budget_listen : budget is_listen may_listen.
Proof. unfold budget, may_listen. budget_tac. Qed.

Lemma budget_finalize : budget is_finalize may_finalize.
Proof. unfold budget, may_finalize. budget_tac. Qed.

Lemma budget_server_close : budget is_server_close may_close_server.
Proof. unfold budget, may_close_server, before_teardown. budget_tac. Qed.

Lemma budget_browser_close : budget is_browser_close may_close_browser.
Proof. unfold budget, may_close_browser, before_teardown. budget_tac. Qed.

Lemma budget_back kind may t s :
  budget kind may → percy_ok s → may (state t s) = true → may s = true.
Proof.
  intros Hb. revert s. induction t as [|l t IH]; intros s Hs Hm; [done|].
  rewrite percy_state_cons in Hm.
  destruct (Hb l s (ok_lifecycle s Hs)) as [_ H].
  by destruct (H (IH _ (step_ok l s Hs) Hm)).
Qed.

Lemma budget_none kind may t s :
  budget kind may → percy_ok s →
  may (state t s) = true → times kind (effects t s) = 0%nat.
Proof.
  intros Hb. revert s. induction t as [|l t IH]; intros s Hs Hm; [done|].
  rewrite percy_state_cons in Hm. rewrite percy_effects_cons, times_app.
  rewrite (IH _ (step_ok l s Hs) Hm).
  destruct (Hb l s (ok_lifecycle s Hs)) as [_ H].
  by destruct (H (budget_back kind may t _ Hb (step_ok l s Hs) Hm)) as [_ ->].
Qed.

Lemma times_zero kind E e : times kind E = 0%nat → kind e = true → e ∉ E.
Proof.
  unfold times. intros Hz%length_zero_iff_nil Hk.
  by eapply filter_nil_not_elem_of.
Qed.

(** The configuration does not change. *)
Lemma step_config l s :
  server (step l s).1 = server s ∧ port (step l s).1 = port s
  ∧ skipUploads (step l s).1 = skipUploads s
  ∧ deferUploads (step l s).1 = deferUploads s.
Proof. destruct l; break_step; done. Qed.

Lemma run_config t s :
  server (state t s) = server s ∧ port (state t s) = port s
  ∧ skipUploads (state t s) = skipUploads s
  ∧ deferUploads (state t s) = deferUploads s.
Proof.
  revert s. induction t as [|l t IH]; intros s; [done|].
  rewrite percy_state_cons. destruct (IH (step l s).1) as (-> & -> & -> & ->).
  apply step_config.
Qed.

(** Where [start()] and [stop()] stand tells what has been done. *)
Definition evidence (e : Effect) (after : Percy → bool) : Prop :=
  ∀ l s, lifecycle_ok s →
    after (step l s).1 = true → after s = true ∨ e ∈ (step l s).2.

Lemma evidence_run e after t s :
  evidence e after → percy_ok s →
  after (state t s) = true → after s = true ∨ e ∈ effects t s.
Proof.
  intros He. revert s. induction t as [|l t IH]; intros s Hs Ha; [by left|].
  rewrite percy_state_cons in Ha. rewrite percy_effects_cons.
  destruct (IH _ (step_ok l s Hs) Ha) as [H|H].
  - destruct (He l s (ok_lifecycle s Hs) H) as [?|?]; [by left|].
    right. apply elem_of_app. by left.
  - right. apply elem_of_app. by right.
Qed.

Definition has_launched (s : Percy) : bool :=
  match start_pc s with
  | StartAwaitLaunch | StartAwaitListen => true
  | _ => bool_decide (readyState s = Some 1)
  end.

Definition has_listened (pt : Z) (s : Percy) : bool :=
  server s && bool_decide (port s = pt)
  && match start_pc s with
     | StartAwaitListen => true
     | _ => bool_decide (readyState s = Some 1)
     end.

Definition has_closed_browser (s : Percy) : bool :=
  match start_pc s, stop_pc s with
  | StartCatchBrowser _ _, _ => true
  | _, StopAwaitBrowser | _, StopAwaitFinalize => true
  | _, _ => bool_decide (readyState s = Some 3)
  end.

Definition has_closed_server (s : Percy) : bool :=
  server s
  && match start_pc s, stop_pc s with
     | StartCatchServer _ _, _ | StartCatchBrowser _ _, _ => true
     | _, StopAwaitServer | _, StopAwaitBrowser | _, StopAwaitFinalize => true
     | _, _ => bool_decide (readyState s = Some 3)
     end.

Ltac evidence_tac :=
  intros l s [A B C];
  destruct (quiet l) eqn:Hq;
  [ destruct (quiet_same l s Hq) as (H1 & H2 & H3);
    destruct (step_config l s) as (H4 & H5 & _ & _);
    rewrite ?H1, ?H2, ?H3, ?H4, ?H5; by left
  | destruct l; try done; break_step; known_fields; simpl in *;
    z_bools; repeat case_bool_decide; simplify_eq; simpl;
    rewrite ?andb_true_r, ?andb_false_r;
    try (by left); try (intros _; right; rewrite ?elem_of_app, ?elem_of_cons; by auto 10);
    try (intros ?; exfalso; destruct_or!; simplify_eq; lia);
    try (intuition (first [congruence | lia])) ].

Lemma evidence_launch : evidence Launch has_launched.
Proof. unfold evidence, has_launched. evidence_tac. Qed.

Lemma evidence_listen pt : evidence (Listen pt) (has_listened pt).
Proof. unfold evidence, has_listened. evidence_tac. Qed.

Lemma evidence_browser_close : evidence BrowserClose has_closed_browser.
Proof. unfold evidence, has_closed_browser. evidence_tac. Qed.

Lemma evidence_server_close : evidence ServerClose has_closed_server.
Proof. unfold evidence, has_closed_server. evidence_tac. Qed.

Lemma step_listen l s pt :
  Listen pt ∈ (step l s).2 → pt = port s ∧ server s = true.
Proof.
  destruct (quiet l) eqn:Hq.
  { intros Hin. by pose proof (quiet_effects l s _ Hq Hin). }
  destruct l; try done; break_step;
    rewrite ?elem_of_app, ?elem_of_cons, ?elem_of_nil; intros Hin;
    destruct_or?; simplify_eq; done.
Qed.

Lemma step_server_close l s :
  ServerClose ∈ (step l s).2 → server s = true.
Proof.
  destruct (quiet l) eqn:Hq.
  { intros Hin. by pose proof (quiet_effects l s _ Hq Hin). }
  destruct l; try done; break_step;
    rewrite ?elem_of_app, ?elem_of_cons, ?elem_of_nil; intros Hin;
    destruct_or?; simplify_eq; done.
Qed.

Lemma effects_split e t s :
  e ∈ effects t s →
  ∃ t1 l t2, t = t1 ++ l :: t2 ∧ e ∈ (step l (state t1 s)).2.
Proof.
  revert s. induction t as [|l t IH]; intros s.
  - by intros ?%elem_of_nil.
  - rewrite percy_effects_cons. intros [Hin|Hin]%elem_of_app.
    + by exists [], l, t.
    + destruct (IH _ Hin) as (t1 & l' & t2 & -> & Hin').
      exists (l :: t1), l', t2. split; [done|]. by rewrite percy_state_cons.
Qed.

Lemma effects_app_l t1 t2 s e : e ∈ effects t1 s → e ∈ effects (t1 ++ t2) s.
Proof.
  revert s. induction t1 as [|l t1 IH]; intros s.
  - by intros ?%elem_of_nil.
  - simpl. rewrite !percy_effects_cons.
    intros [Hin|Hin]%elem_of_app; apply elem_of_app; [by left|right]. by apply IH.
Qed.

(** X8: in the life of an instance the browser is launched at most once,
    the server is asked to listen at most once, server and browser are each
    closed at most once, and the build is finalized at most once, however
    often [start()] and [stop()] are called and however they interleave.
    The server is only ever asked to listen on the configured port, and
    without a server nothing is listened to or closed. *)
Theorem lifecycle_actions_happen_at_most_once defer skip server port conc
    dflt t :
  let E := effects t (new defer skip server port conc dflt) in
  (times is_launch E ≤ 1)%nat
  ∧ (times is_listen E ≤ 1)%nat
  ∧ (times is_server_close E ≤ 1)%nat
  ∧ (times is_browser_close E ≤ 1)%nat
  ∧ (times is_finalize E ≤ 1)%nat
  ∧ (∀ pt, Listen pt ∈ E → pt = port ∧ server = true)
  ∧ (ServerClose ∈ E → server = true).
Proof.
  intros E.
  pose proof (new_ok defer skip server port conc dflt) as Hok.
  split_and!.
  - apply (budget_run _ _ t _ budget_launch Hok).
  - apply (budget_run _ _ t _ budget_listen Hok).
  - apply (budget_run _ _ t _ budget_server_close Hok).
  - apply (budget_run _ _ t _ budget_browser_close Hok).
  - apply (budget_run _ _ t _ budget_finalize Hok).
  - intros pt (t1 & l & t2 & -> & Hin)%effects_split.
    apply step_listen in Hin as [Hp Hs].
    destruct (run_config t1 (new defer skip server port conc dflt))
      as (H1 & H2 & _ & _). simpl in *. split; congruence.
  - intros (t1 & l & t2 & -> & Hin)%effects_split.
    apply step_server_close in Hin.
    destruct (run_config t1 (new defer skip server port conc dflt))
      as (H1 & _ & _ & _). simpl in *. congruence.
Qed.

Lemma running_pcs s :
  lifecycle_ok s → readyState s = Some 1 →
  start_pc s = StartReturned ∧ stop_pc s = StopIdle.
Proof.
  intros [A B C] Hr. rewrite Hr in *.
  destruct (start_pc s), (stop_pc s); try done;
    destruct_or?; simplify_eq.
Qed.

(** X9: whenever the instance is running, its browser has been launched
    and, if it has a server, the server has been asked to listen on the
    configured port; neither has been closed. *)
Theorem running_means_launched_and_listening defer skip server port conc
    dflt t :
  let s := state t (new defer skip server port conc dflt) in
  let E := effects t (new defer skip server port conc dflt) in
  readiness s = Some Running →
  Launch ∈ E
  ∧ (server = true → Listen port ∈ E)
  ∧ (BrowserClose ∉ E) ∧ (ServerClose ∉ E).
Proof.
  intros s E Hr.
  pose proof (new_ok defer skip server port conc dflt) as Hok.
  assert (readyState s = Some 1) as H1.
  { unfold readiness in Hr. destruct (readyState s) as [n|]; [|done].
    by repeat (case_match; simplify_eq). }
  destruct (running_pcs s (ok_lifecycle _ (run_ok t _ Hok)) H1) as [Hs Hp].
  destruct (run_config t (new defer skip server port conc dflt))
    as (Hsv & Hpt & _ & _). fold s in Hsv, Hpt. simpl in Hsv, Hpt.
  split_and!.
  - assert (has_launched s = true) as Ha.
    { unfold has_launched. by rewrite Hs, H1. }
    by destruct (evidence_run _ _ t _ evidence_launch Hok Ha) as [?|?].
  - intros ->.
    assert (has_listened port s = true) as Ha.
    { unfold has_listened. rewrite Hs, H1, Hsv, Hpt.
      by rewrite bool_decide_eq_true_2. }
    destruct (evidence_run _ _ t _ (evidence_listen port) Hok Ha) as [Hn|?];
      [|done].
    apply andb_prop in Hn as [_ Hn]. simpl in Hn. done.
  - apply (times_zero is_browser_close); [|done].
    apply (budget_none _ _ t _ budget_browser_close Hok).
    fold s. unfold may_close_browser, before_teardown. by rewrite Hs, Hp, H1.
  - apply (times_zero is_server_close); [|done].
    apply (budget_none _ _ t _ budget_server_close Hok).
    fold s. unfold may_close_server, before_teardown. by rewrite Hs, Hp, H1.
Qed.

(** X10: whenever the instance is stopped, whether [stop()] finished or
    [start()] failed, its browser has been closed and so has its server, if
    it has one. *)
Theorem stopped_means_browser_and_server_closed defer skip server port conc
    dflt t :
  let s := state t (new defer skip server port conc dflt) in
  let E := effects t (new defer skip server port conc dflt) in
  readiness s = Some Stopped →
  BrowserClose ∈ E ∧ (server = true → ServerClose ∈ E).
Proof.
  intros s E Hr.
  pose proof (new_ok defer skip server port conc dflt) as Hok.
  assert (readyState s = Some 3) as H3.
  { unfold readiness in Hr. destruct (readyState s) as [n|]; [|done].
    by repeat (case_match; simplify_eq). }
  destruct (run_config t (new defer skip server port conc dflt))
    as (Hsv & _ & _ & _). fold s in Hsv. simpl in Hsv.
  split.
  - assert (has_closed_browser s = true) as Ha.
    { unfold has_closed_browser. rewrite H3. by repeat case_match. }
    by destruct (evidence_run _ _ t _ evidence_browser_close Hok Ha) as [?|?].
  - intros ->.
    assert (has_closed_server s = true) as Ha.
    { unfold has_closed_server. rewrite H3, Hsv. by repeat case_match. }
    destruct (evidence_run _ _ t _ evidence_server_close Hok Ha) as [Hn|?];
      [|done].
    apply andb_prop in Hn as [_ Hn]. simpl in Hn. done.
Qed.

(** *** The build *)

Lemma step_finalize l s id :
  FinalizeBuild id ∈ (step l s).2 →
  l = LStopResume Fulfilled ∧ stop_pc s = StopAwaitBrowser
  ∧ ∃ b, build s = Some b ∧ build_id b = id ∧ build_failed b = false.
Proof.
  destruct (quiet l) eqn:Hq.
  { intros Hin. by pose proof (quiet_effects l s _ Hq Hin). }
  destruct l; try done; break_step;
    rewrite ?elem_of_app, ?elem_of_cons, ?elem_of_nil; intros Hin;
    destruct_or?; simplify_eq; eauto 10.
Qed.

Lemma step_build_id l s b :
  build (step l s).1 = Some b →
  (∃ b0, build s = Some b0 ∧ build_id b0 = build_id b)
  ∨ ∃ number url, l = LBuildCreated (build_id b) number url.
Proof.
  destruct l; break_step; intros Hb; simpl in Hb; simplify_eq; simpl;
    eauto 10.
Qed.

Lemma run_build_id t s b :
  build (state t s) = Some b →
  (∃ b0, build s = Some b0 ∧ build_id b0 = build_id b)
  ∨ ∃ number url, LBuildCreated (build_id b) number url ∈ t.
Proof.
  revert s. induction t as [|l t IH]; intros s Hb; [by left; eexists|].
  rewrite percy_state_cons in Hb.
  destruct (IH _ Hb) as [(b0 & Hb0 & Hid)|(number & url & Hin)].
  - destruct (step_build_id l s b0 Hb0) as [(b1 & Hb1 & Hid1)|(n & u & ->)].
    + left. exists b1. split; [done | congruence].
    + right. exists n, u. rewrite Hid. apply list_elem_of_here.
  - right. exists number, url. by apply list_elem_of_further.
Qed.

(** X11: the build is only ever finalized by a [stop()] that has closed
    the browser, and only when there is a build that is not marked failed;
    the id it finalizes is the id [createBuild()] returned. *)
Theorem finalize_needs_created_unfailed_build defer skip server port conc
    dflt t id :
  let s0 := new defer skip server port conc dflt in
  FinalizeBuild id ∈ effects t s0 →
  ∃ t1 t2 b number url,
    t = t1 ++ LStopResume Fulfilled :: t2
    ∧ readiness (state t1 s0) = Some Stopping
    ∧ build (state t1 s0) = Some b
    ∧ build_id b = id ∧ build_failed b = false
    ∧ LBuildCreated id number url ∈ t1
    ∧ BrowserClose ∈ effects t1 s0.
Proof.
  intros s0 (t1 & l & t2 & -> & Hin)%effects_split.
  pose proof (new_ok defer skip server port conc dflt) as Hok. fold s0 in Hok.
  apply step_finalize in Hin as (-> & Hpc & b & Hb & Hid & Hf).
  pose proof (run_ok t1 s0 Hok) as [[A B C] _ _ _].
  destruct (run_build_id t1 s0 b Hb) as [(b0 & Hb0 & _)|(number & url & Hc)];
    [by unfold s0 in Hb0|].
  exists t1, t2, b, number, url. split_and!; try done.
  - unfold readiness. rewrite Hpc in B. by rewrite B.
  - by rewrite <-Hid.
  - assert (has_closed_browser (state t1 s0) = true) as Ha.
    { unfold has_closed_browser. rewrite Hpc.
      by destruct (start_pc (state t1 s0)). }
    by destruct (evidence_run _ _ t1 _ evidence_browser_close Hok Ha) as [?|?].
Qed.

Definition is_api_call (e : Effect) : bool :=
  match e with
  | CreateBuild | SendSnapshot _ _ | FinalizeBuild _ => true
  | _ => false
  end.

Lemma step_failed l s :
  percy_ok s → failed s →
  failed (step l s).1 ∧ ∀ e, e ∈ (step l s).2 → is_api_call e = false.
Proof.
  intros [_ Hfc _ _] Hf. destruct (Hfc Hf) as [Hu Hs].
  destruct Hf as (b & Hb & Hbf). unfold failed.
  destruct l; break_step; simplify_eq;
    try failed_absurd;
    (split; [by eauto|]);
    intros eff; rewrite ?elem_of_app, ?elem_of_cons, ?elem_of_nil; intros Hin;
    destruct_or?; simplify_eq; done.
Qed.

Lemma run_failed t s :
  percy_ok s → failed s →
  failed (state t s) ∧ ∀ e, e ∈ effects t s → is_api_call e = false.
Proof.
  revert s. induction t as [|l t IH]; intros s Hs Hf.
  - split; [done|]. by intros e ?%elem_of_nil.
  - rewrite percy_state_cons, percy_effects_cons.
    destruct (step_failed l s Hs Hf) as [H1 H2].
    destruct (IH _ (step_ok l s Hs) H1) as [H3 H4].
    split; [done|]. intros e [?|?]%elem_of_app; auto.
Qed.

(** X12: once the build is marked failed it stays failed, and from then on
    the instance calls the API no more: it creates no build, sends no
    snapshot and does not finalize; and no task of either queue is running
    any more, whatever [snapshot()] has pushed since: both queues stay
    force-closed. *)
Theorem failed_build_ends_api_calls defer skip server port conc dflt t1 t2 :
  let s := state t1 (new defer skip server port conc dflt) in
  failed s →
  failed (state t2 s)
  ∧ (CreateBuild ∉ effects t2 s)
  ∧ (∀ id name, SendSnapshot id name ∉ effects t2 s)
  ∧ (∀ id, FinalizeBuild id ∉ effects t2 s)
  ∧ Queue.cancelled (uploads (state t2 s))
  ∧ Queue.cancelled (snapshots (state t2 s)).
Proof.
  intros s Hf.
  assert (percy_ok s) as Hs by apply run_ok, new_ok.
  destruct (run_failed t2 s Hs Hf) as [Hf2 Hno].
  split_and!; [done|..].
  - intros Hin. by pose proof (Hno _ Hin).
  - intros id name Hin. by pose proof (Hno _ Hin).
  - intros id Hin. by pose proof (Hno _ Hin).
  - by destruct (ok_failed _ (run_ok t2 s Hs) Hf2).
  - by destruct (ok_failed _ (run_ok t2 s Hs) Hf2).
Qed.

(** *** Running without uploads *)

Record skip_ok (s : Percy) : Prop := {
  skip_paused : Queue.running (uploads s) = false;
  skip_idle : Queue.active (uploads s) = [];
  skip_build : build s = None
}.

Lemma paused_cannot_dispatch q :
  Queue.running q = false → Queue.can_dispatch q = false.
Proof.
  intros H. unfold Queue.can_dispatch. rewrite H.
  by destruct (Queue.forced q).
Qed.

Lemma running_push task pr q :
  Queue.running (Queue.push task pr q) = Queue.running q.
Proof. unfold Queue.push. by repeat case_match. Qed.

Lemma step_skip l s :
  skipUploads s = true → skip_ok s →
  skip_ok (step l s).1 ∧ ∀ e, e ∈ (step l s).2 → is_api_call e = false.
Proof.
  intros Hsk [Hr Ha Hb].
  pose proof (paused_cannot_dispatch _ Hr) as Hd.
  assert (∀ task, task ∉ Queue.active (uploads s)) as Hna.
  { intros task. rewrite Ha. apply not_elem_of_nil. }
  destruct l; break_step; simplify_eq;
    try (exfalso; eapply Hna; eassumption);
    (split;
     [ split; simpl; rewrite ?running_push, ?active_push; by simpl
     | intros eff; rewrite ?elem_of_app, ?elem_of_cons, ?elem_of_nil;
       intros Hin; destruct_or?; simplify_eq; done ]).
Qed.

Lemma run_skip t s :
  skipUploads s = true → skip_ok s →
  skip_ok (state t s) ∧ ∀ e, e ∈ effects t s → is_api_call e = false.
Proof.
  revert s. induction t as [|l t IH]; intros s Hsk Hs.
  - split; [done|]. by intros e ?%elem_of_nil.
  - rewrite percy_state_cons, percy_effects_cons.
    destruct (step_skip l s Hsk Hs) as [H1 H2].
    destruct (step_config l s) as (_ & _ & Hsk' & _).
    destruct (IH (step l s).1) as [H3 H4]; [congruence | done |].
    split; [done|]. intros e [?|?]%elem_of_app; auto.
Qed.

(** X13: an instance created with [skipUploads] never calls the API: it
    creates no build, sends no snapshot and finalizes nothing, whatever is
    called on it; its upload queue stays paused with nothing running, and
    it never has a build. *)
Theorem skip_uploads_never_calls_the_api defer server port conc dflt t :
  let s0 := new defer true server port conc dflt in
  (CreateBuild ∉ effects t s0)
  ∧ (∀ id name, SendSnapshot id name ∉ effects t s0)
  ∧ (∀ id, FinalizeBuild id ∉ effects t s0)
  ∧ build (state t s0) = None
  ∧ Queue.running (uploads (state t s0)) = false
  ∧ Queue.active (uploads (state t s0)) = [].
Proof.
  intros s0.
  destruct (run_skip t s0) as [[H1 H2 H3] Hno];
    [done | unfold s0; by split |].
  split_and!; try done.
  - intros Hin. by pose proof (Hno _ Hin).
  - intros id name Hin. by pose proof (Hno _ Hin).
  - intros id Hin. by pose proof (Hno _ Hin).
Qed.

(** *** Stopping with force *)

(** X22: [stop(true)] does not wait for queued work.  On a running
    instance it force-closes both queues, so that neither drain is awaited,
    and goes straight on to closing the server and the browser.  While an
    earlier [stop()] is awaiting a drain it only force-closes the queues,
    and with that the drain is over: when the earlier [stop()] resumes it
    goes on to closing the server. *)
Theorem force_stop_does_not_wait defer skip server port conc dflt t :
  let s := state t (new defer skip server port conc dflt) in
  (readiness s = Some Running →
   stop_pc (stop true s).1 = StopAwaitServer
   ∧ readiness (stop true s).1 = Some Stopping
   ∧ Queue.force_closed (snapshots (stop true s).1)
   ∧ Queue.force_closed (uploads (stop true s).1)
   ∧ (stop true s).2
     = Log Info "Stopping percy..." :: (if server then [ServerClose] else []))
  ∧ (readiness s = Some Stopping →
     stop true s = (close s, [])
     ∧ (stop_pc s = StopAwaitSnapshots ∨ stop_pc s = StopAwaitUploads →
        ∀ r, stop_pc (stop_resume r (close s)).1 = StopAwaitServer
             ∧ (stop_resume r (close s)).2
               = (if server then [ServerClose] else []))).
Proof.
  intros s.
  destruct (run_config t (new defer skip server port conc dflt))
    as (Hsv & _ & _ & _). fold s in Hsv. simpl in Hsv.
  split.
  - intros Hr.
    assert (readyState s = Some 1) as H1.
    { unfold readiness in Hr. destruct (readyState s) as [n|]; [|done].
      by repeat (case_match; simplify_eq). }
    unfold stop, stop_uploads, stop_teardown, server_effect, close,
      Queue.force_closed.
    rewrite H1. simpl. destruct (skipUploads s); simpl; rewrite Hsv; done.
  - intros Hr.
    assert (readyState s = Some 2) as H2.
    { unfold readiness in Hr. destruct (readyState s) as [n|]; [|done].
      by repeat (case_match; simplify_eq). }
    split.
    { unfold stop. by rewrite H2. }
    intros Hpc r.
    unfold stop_resume, stop_uploads, stop_teardown, server_effect, close.
    simpl. destruct Hpc as [-> | ->]; simpl;
      destruct (skipUploads s); simpl; rewrite Hsv; done.
Qed.

(** *** Concrete runs *)

Definition started : list Label :=
  [LStart; LDispatch Uploads; LBuildCreated "123" "1" "https://percy.io/b/1";
   LStartResume Fulfilled; LStartResume Fulfilled; LStartResume Fulfilled].

Lemma running_witness :
  readiness (state started percy0) = Some Running
  ∧ Launch ∈ effects started percy0
  ∧ Listen 5338 ∈ effects started percy0.
Proof.
  assert (readiness (state started percy0) = Some Running) as Hr
    by reflexivity.
  split; [exact Hr|].
  destruct (running_means_launched_and_listening false false true 5338 None 5
              started Hr) as (H1 & H2 & _).
  split; [exact H1 | exact (H2 eq_refl)].
Defined.

Lemma stopped_witness :
  readiness (state three_snapshots percy0) = Some Stopped
  ∧ BrowserClose ∈ effects three_snapshots percy0
  ∧ ServerClose ∈ effects three_snapshots percy0.
Proof.
  assert (readiness (state three_snapshots percy0) = Some Stopped) as Hr
    by (vm_compute; reflexivity).
  split; [exact Hr|].
  destruct (stopped_means_browser_and_server_closed false false true 5338 None
              5 three_snapshots Hr) as (H1 & H2).
  split; [exact H1 | exact (H2 eq_refl)].
Defined.

Lemma finalize_witness :
  FinalizeBuild "123" ∈ effects three_snapshots percy0
  ∧ ∃ t1 t2 b number url,
      three_snapshots = t1 ++ LStopResume Fulfilled :: t2
      ∧ readiness (state t1 percy0) = Some Stopping
      ∧ build (state t1 percy0) = Some b
      ∧ build_id b = "123" ∧ build_failed b = false
      ∧ LBuildCreated "123" number url ∈ t1
      ∧ BrowserClose ∈ effects t1 percy0.
Proof.
  assert (FinalizeBuild "123" ∈ effects three_snapshots percy0) as Hin.
  { vm_compute. repeat first [apply list_elem_of_here | apply list_elem_of_further]. }
  split; [exact Hin|].
  exact (finalize_needs_created_unfailed_build false false true 5338 None 5
           three_snapshots "123" Hin).
Defined.

(** The upload of a snapshot is refused because the build has failed. *)
Definition build_failed_response : UploadError :=
  {| upload_message := "Unprocessable Entity";
     response :=
       Some {| status := 422;
               body :=
                 BodyOf (Some [Some {| source_pointer := Some "/data/attributes/build";
                                       detail := Some "Build has failed" |}]) |} |}.

Definition build_fails : list Label :=
  started ++
  [LSnapshot "a"; LDispatch Snapshots; LScheduleUpload "a" "a"; LCaptureDone "a";
   LDispatch Uploads; LUploadSettled "a" (Some build_failed_response)].

Definition after_failure : list Label :=
  [LSnapshot "b"; LStop false; LStopResume Fulfilled; LStopResume Fulfilled].

Lemma failed_build_witness :
  failed (state build_fails percy0)
  ∧ (∀ id, FinalizeBuild id ∉ effects after_failure (state build_fails percy0))
  ∧ Queue.queued (snapshots (state after_failure (state build_fails percy0)))
    = [Queue.Capture "b"]
  ∧ Queue.cancelled (snapshots (state after_failure (state build_fails percy0))).
Proof.
  assert (failed (state build_fails percy0)) as Hf.
  { eexists. split; vm_compute; reflexivity. }
  split; [exact Hf|].
  destruct (failed_build_ends_api_calls false false true 5338 None 5 build_fails
              after_failure Hf) as (_ & _ & _ & H & _ & Hc).
  split; [exact H|]. split; [reflexivity | exact Hc].
Defined.

Definition draining : list Label := started ++ [LSnapshot "a"; LStop false].

Lemma force_stop_witness :
  (stop true (state started percy0)).2
  = [Log Info "Stopping percy..."; ServerClose]
  ∧ stop_pc (state draining percy0) = StopAwaitSnapshots
  ∧ (stop_resume Fulfilled (close (state draining percy0))).2 = [ServerClose].
Proof.
  destruct (force_stop_does_not_wait false false true 5338 None 5 started)
    as [H1 _].
  destruct (force_stop_does_not_wait false false true 5338 None 5 draining)
    as [_ H2].
  assert (readiness (state started percy0) = Some Running) as Hr1
    by reflexivity.
  assert (readiness (state draining percy0) = Some Stopping) as Hr2
    by reflexivity.
  assert (stop_pc (state draining percy0) = StopAwaitSnapshots) as Hpc
    by reflexivity.
  destruct (H1 Hr1) as (_ & _ & _ & _ & He).
  destruct (H2 Hr2) as (_ & H3).
  destruct (H3 (or_introl Hpc) Fulfilled) as (_ & He2).
  split; [exact He|]. split; [exact Hpc | exact He2].
Defined.

End LifecycleFacts.

(** * Facts about the resources of an upload *)

Module CaptureFacts.
Import Percy Capture.

(** Every resource is stored under its own URL, and once. *)
Record keyed (resources : Resources) : Prop := {
  keyed_nodup : NoDup (JsMap.keys resources);
  keyed_url : ∀ k r, (k, r) ∈ resources → url r = k
}.

Lemma keyed_set r resources :
  keyed resources → keyed (JsMap.set (url r) r resources).
Proof.
  intros [Hnd Hk]. split.
  - by apply JsMapFacts.keys_set_NoDup.
  - intros k r' [[= -> ->]|Hin]%JsMapFacts.elem_of_set; [done | by apply Hk].
Qed.

Lemma keyed_delete k resources :
  keyed resources → keyed (JsMap.delete k resources).
Proof.
  intros [Hnd Hk]. split.
  - by apply JsMapFacts.keys_delete_NoDup.
  - intros k' r' [Hin _]%JsMapFacts.elem_of_delete. by apply Hk.
Qed.

Lemma keyed_apply op resources : keyed resources → keyed (apply op resources).
Proof.
  intros H. destruct op as [r|css|u]; simpl;
    [|by apply keyed_set|by apply keyed_delete].
  destruct (root r); [done | by apply keyed_set].
Qed.

Lemma keyed_foldl ops resources :
  keyed resources →
  keyed (foldl (λ resources op, apply op resources) resources ops).
Proof.
  revert resources. induction ops as [|op ops IH]; intros rs H; [done|].
  simpl. by apply IH, keyed_apply.
Qed.

Lemma keyed_discovered ops : keyed (discovered ops).
Proof.
  apply keyed_foldl. split; [apply NoDup_nil_2|]. by intros k r ?%elem_of_nil.
Qed.

Lemma keyed_urls resources :
  keyed resources → url <$> JsMap.values resources = JsMap.keys resources.
Proof.
  intros [_ Hk]. unfold JsMap.values, JsMap.keys.
  induction resources as [|[k r] rs IH]; [done|]. simpl. f_equal.
  - apply Hk, list_elem_of_here.
  - apply IH. intros k' r' Hin. by apply Hk, list_elem_of_further.
Qed.

(** X18: the resources of an upload made from a page snapshot have
    pairwise different URLs.  The root resource comes first and is the only
    one with its URL: a discovered resource with that URL is dropped from
    the task's map; every other discovered resource is uploaded, in the
    order of discovery.  (Whatever the network added, whatever the
    percy-css resource is and whatever earlier snapshots of the task
    dropped.) *)
Theorem upload_resources_have_distinct_urls ops rootResource :
  let resources := discovered ops in
  let resources' := (page_snapshot_upload rootResource resources).1 in
  let upload := (page_snapshot_upload rootResource resources).2 in
  NoDup (url <$> upload)
  ∧ head upload = Some rootResource
  ∧ (∀ r, r ∈ upload → url r = url rootResource → r = rootResource)
  ∧ (∀ r, r ∈ JsMap.values resources → url r ≠ url rootResource → r ∈ upload)
  ∧ tail upload `sublist_of` JsMap.values resources
  ∧ JsMap.get (url rootResource) resources' = None
  ∧ keyed resources'.
Proof.
  intros resources resources' upload.
  pose proof (keyed_discovered ops) as Hk. fold resources in Hk.
  assert (keyed resources') as Hk' by by apply keyed_delete.
  assert (url rootResource ∉ JsMap.keys resources') as Hout.
  { intros ([k r] & Hkr & Hin)%list_elem_of_fmap. simpl in Hkr.
    apply JsMapFacts.elem_of_delete in Hin as [_ Hne]. simpl in Hne. congruence. }
  assert (url <$> JsMap.values resources' = JsMap.keys resources') as Hurls
    by by apply keyed_urls.
  assert (upload = rootResource :: JsMap.values resources') as Hup by done.
  split_and!.
  - rewrite Hup, fmap_cons, Hurls.
    apply NoDup_cons. split; [done | by destruct Hk'].
  - done.
  - rewrite Hup. intros r [->|Hin]%elem_of_cons Hu; [done|]. exfalso.
    apply Hout. rewrite <-Hurls, <-Hu.
    apply list_elem_of_fmap. by exists r.
  - intros r ([k r'] & -> & Hin)%list_elem_of_fmap Hne. simpl in Hne.
    rewrite Hup. apply list_elem_of_further.
    apply list_elem_of_fmap. exists (k, r'). split; [done|].
    destruct Hk as [_ Hurl]. pose proof (Hurl k r' Hin) as Hkr.
    clear -Hin Hne Hkr. unfold resources'.
    induction resources as [|[k0 r0] rs IH]; [by apply elem_of_nil in Hin|].
    simpl. apply elem_of_cons in Hin as [[= <- <-]|Hin].
    + rewrite decide_False by congruence. apply list_elem_of_here.
    + destruct (decide (url rootResource = k0)); [by apply IH|].
      apply list_elem_of_further. by apply IH.
  - simpl. apply fmap_sublist, JsMapFacts.delete_sublist.
  - apply JsMapFacts.get_delete_eq.
  - done.
Qed.

End CaptureFacts.

(** * Facts about the local API *)

Module ServerFacts.
Import Percy PercyFacts Server.

(** X19: a snapshot request to an instance that is not running is
    answered by the error handler, with status 500 and the message "Not
    running", and changes nothing.  On a running instance the snapshot is
    taken as by [percy.snapshot]; the reply is success at once, unless the
    request says [concurrent: false]: only then does the reply wait for the
    snapshot. *)
Theorem snapshot_route_needs_running_instance defer skip server port conc
    dflt t name concurrent :
  let s := state t (new defer skip server port conc dflt) in
  (readiness s ≠ Some Running →
   handle (Snapshot name concurrent) s
   = (s, [Throw "Not running"], Replied (Json 500 false (Some "Not running"))))
  ∧ (readiness s = Some Running →
     handle (Snapshot name concurrent) s
     = ((snapshot name s).1, [],
        if is_false concurrent then Pending (AwaitSnapshot name)
        else Replied (Json 200 true None))
     ∧ (is_false concurrent = true ↔ concurrent = VBool false)).
Proof.
  intros s. split.
  - intros Hr. unfold handle, snapshot.
    destruct (decide (readyState s = Some 1)) as [H1|H1]; [|done].
    destruct Hr. unfold readiness. by rewrite H1.
  - intros Hr.
    assert (readyState s = Some 1) as H1.
    { unfold readiness in Hr. destruct (readyState s) as [n|]; [|done].
      by repeat (case_match; simplify_eq). }
    split.
    + unfold handle, snapshot. rewrite decide_True by done. simpl.
      by destruct (is_false concurrent).
    + split; [|by intros ->].
      by destruct concurrent as [| |[]| | | |].
Qed.

(** X20: a stop request never forces.  On a running instance it starts
    [stop()] without force, which closes the snapshot queue and keeps its
    tasks, and the reply waits for it: success when it has finished, status
    500 with the message when it failed.  In every other state, also while
    an earlier stop is still under way, it changes nothing and the reply is
    success at once. *)
Theorem stop_route_is_graceful defer skip server port conc dflt t :
  let s := state t (new defer skip server port conc dflt) in
  (readiness s ≠ Some Running →
   handle Stop s = (s, [], Replied (Json 200 true None)))
  ∧ (readiness s = Some Running →
     handle Stop s = ((stop false s).1, (stop false s).2, Pending AwaitStop)
     ∧ readiness (stop false s).1 = Some Stopping
     ∧ Queue.closed (snapshots (stop false s).1) = true
     ∧ Queue.tasks (snapshots (stop false s).1) = Queue.tasks (snapshots s)
     ∧ Queue.queued (uploads (stop false s).1) = Queue.queued (uploads s)
     ∧ Queue.active (uploads (stop false s).1) = Queue.active (uploads s))
  ∧ resume AwaitStop Fulfilled = Json 200 true None
  ∧ (∀ code message,
       resume AwaitStop (Failed code message)
       = Json 500 false (Some message)).
Proof.
  intros s.
  assert (percy_ok s) as [[A B C] _ _ _] by apply run_ok, new_ok.
  split_and!; [| |done|done].
  - intros Hr. unfold handle.
    destruct (decide (readyState s = Some 1)) as [H1|H1].
    { destruct Hr. unfold readiness. by rewrite H1. }
    assert (stop false s = (s, [])) as ->; [|done].
    unfold stop. destruct (readyState s) as [n|] eqn:Hn; [|done].
    destruct C as [?|[?|[?|[?|?]]]]; simplify_eq; done.
  - intros Hr.
    assert (readyState s = Some 1) as H1.
    { unfold readiness in Hr. destruct (readyState s) as [n|]; [|done].
      by repeat (case_match; simplify_eq). }
    split.
    { unfold handle. destruct (stop false s) as [s' eff].
      by rewrite decide_True. }
    unfold stop, stop_uploads, stop_teardown. rewrite H1. simpl.
    repeat (case_match; simpl; simplify_eq); done.
Qed.

(** *** startServer *)

Lemma emit_settled e st o :
  started st = Some o → started (emit e st).1 = Some o.
Proof.
  intros H. unfold emit. destruct e; case_match; simpl; by rewrite ?H.
Qed.

Lemma emit_all_settled es st o :
  started st = Some o → started (emit_all es st) = Some o.
Proof.
  revert st. induction es as [|e es IH]; intros st H; [done|].
  simpl. by apply IH, emit_settled.
Qed.

(** X21: the promise of [startServer] settles with the first event of the
    server: it resolves if that is 'listening' and rejects with the error if
    that is 'error'; no later event changes the outcome, and each of the two
    listeners runs at most once. *)
Theorem start_server_settles_with_first_event es :
  started (emit_all es startServer)
  = match es with
    | [] => None
    | Listening :: _ => Some None
    | ServerError message :: _ => Some (Some message)
    end
  ∧ (Listening ∈ es → on_listening (emit_all es startServer) = false)
  ∧ ((∃ message, ServerError message ∈ es) →
     on_error (emit_all es startServer) = false)
  ∧ (∀ e st, on_listening st = false → on_error st = false →
       emit e st = (st, false)).
Proof.
  assert (∀ es st, on_listening st = false →
                   on_listening (emit_all es st) = false) as Hoff1.
  { clear. induction es as [|e es IH]; intros st H; [done|]. simpl.
    apply IH. unfold emit. destruct e; repeat case_match; simpl; congruence. }
  assert (∀ es st, on_error st = false →
                   on_error (emit_all es st) = false) as Hoff2.
  { clear. induction es as [|e es IH]; intros st H; [done|]. simpl.
    apply IH. unfold emit. destruct e; repeat case_match; simpl; congruence. }
  split_and!.
  - destruct es as [|[|message] es]; [done|..]; simpl;
      by apply emit_all_settled.
  - generalize startServer.
    induction es as [|e es IH]; intros st; [by intros ?%elem_of_nil|].
    intros [<-|Hin]%elem_of_cons; simpl; [|by apply IH].
    apply Hoff1. unfold emit. by case_match.
  - intros [message Hin]. revert Hin. generalize startServer.
    induction es as [|e es IH]; intros st; [by intros ?%elem_of_nil|].
    intros [<-|Hin]%elem_of_cons; simpl; [|by apply IH].
    apply Hoff2. unfold emit. by case_match.
  - intros e st H1 H2. unfold emit. destruct e; by rewrite ?H1, ?H2.
Qed.

Lemma snapshot_route_witness :
  handle (Snapshot "home" (VBool false)) (state LifecycleFacts.started percy0)
  = ((snapshot "home" (state LifecycleFacts.started percy0)).1, [],
     Pending (AwaitSnapshot "home"))
  ∧ handle (Snapshot "home" (VBool false)) percy0
    = (percy0, [Throw "Not running"],
       Replied (Json 500 false (Some "Not running"))).
Proof.
  destruct (snapshot_route_needs_running_instance false false true 5338 None 5
              LifecycleFacts.started "home" (VBool false)) as [_ H1].
  destruct (snapshot_route_needs_running_instance false false true 5338 None 5
              [] "home" (VBool false)) as [H2 _].
  assert (readiness (state LifecycleFacts.started percy0) = Some Running)
    as Hr by reflexivity.
  assert (readiness percy0 ≠ Some Running) as Hn by discriminate.
  destruct (H1 Hr) as [H3 _].
  split; [exact H3 | exact (H2 Hn)].
Defined.

Lemma stop_route_witness :
  handle Stop (state LifecycleFacts.started percy0)
  = ((stop false (state LifecycleFacts.started percy0)).1,
     (stop false (state LifecycleFacts.started percy0)).2, Pending AwaitStop)
  ∧ handle Stop (state three_snapshots percy0)
    = (state three_snapshots percy0, [], Replied (Json 200 true None)).
Proof.
  destruct (stop_route_is_graceful false false true 5338 None 5
              LifecycleFacts.started) as (_ & H1 & _).
  destruct (stop_route_is_graceful false false true 5338 None 5
              three_snapshots) as (H2 & _).
  assert (readiness (state LifecycleFacts.started percy0) = Some Running)
    as Hr by reflexivity.
  assert (readiness (state three_snapshots percy0) ≠ Some Running) as Hn
    by (vm_compute; discriminate).
  destruct (H1 Hr) as [H3 _].
  split; [exact H3 | exact (H2 Hn)].
Defined.

End ServerFacts.
